(** * ralphio: a shallow embedding of the loop orchestrator

    The development follows [ralphio.js]: the task store reader
    ([hasUnfinishedTasks]), the timeout guard ([withTimeout]), the commit
    reconciler ([autoCommitChanges]), the agent invocation adapter
    ([runTask]) and the loop controller ([runUntilSuccess]).

    JavaScript strings are sequences of UTF-16 code units and are modelled
    as [list N]; exceptions are modelled by an explicit completion type;
    the file system is a finite map from normalised paths to nodes.
    Console output and the dated log file are write-only for the program
    ([logToFile] swallows its own errors) and are left out of the state. *)

From Stdlib Require Import ZArith NArith Lia Ascii String DecimalString DecimalPos List Bool.
From stdpp Require Import base option list strings gmap.

Local Open Scope N_scope.

(** ** JavaScript strings *)

Abbreviation jsstring := (list N).

(** The code units of an ASCII literal of the source. *)
Fixpoint js (s : string) : jsstring :=
  match s with
  | EmptyString => []
  | String a r => N_of_ascii a :: js r
  end.

(** [s.startsWith(p)], returning the remainder after the prefix. *)
Fixpoint strip_prefix (p s : jsstring) : option jsstring :=
  match p, s with
  | [], _ => Some s
  | _ :: _, [] => None
  | a :: p', b :: s' => if N.eqb a b then strip_prefix p' s' else None
  end.

Definition startsWith (p s : jsstring) : bool :=
  match strip_prefix p s with
  | Some _ => true
  | None => false
  end.

(** [s.includes(p)]. *)
Fixpoint includes (p s : jsstring) : bool :=
  startsWith p s ||
  match s with
  | [] => false
  | _ :: s' => includes p s'
  end.

(** ECMAScript [LineTerminator]: LF, CR, LS, PS. *)
Definition is_line_terminator (c : N) : bool :=
  (c =? 10) || (c =? 13) || (c =? 8232) || (c =? 8233).

(** ECMAScript [WhiteSpace]: TAB, VT, FF, SP, NBSP, ZWNBSP and category Zs. *)
Definition is_white_space (c : N) : bool :=
  (c =? 9) || (c =? 11) || (c =? 12) || (c =? 32) || (c =? 160)
  || (c =? 5760) || ((8192 <=? c) && (c <=? 8202))
  || (c =? 8239) || (c =? 8287) || (c =? 12288) || (c =? 65279).

(** The regular expression class [\s], also what [trim] strips. *)
Definition is_regex_space (c : N) : bool :=
  is_white_space c || is_line_terminator c.

(** [s.trim()]: white space and line terminators are stripped at both ends. *)
Fixpoint trimStart (s : jsstring) : jsstring :=
  match s with
  | c :: r => if is_regex_space c then trimStart r else s
  | [] => []
  end.

Fixpoint trimEnd (s : jsstring) : jsstring :=
  match s with
  | [] => []
  | c :: r =>
      match trimEnd r with
      | [] => if is_regex_space c then [] else [c]
      | r' => c :: r'
      end
  end.

Definition trim (s : jsstring) : jsstring := trimEnd (trimStart s).

(** ** Exceptions *)

Record Error := mkError { message : jsstring }.

Inductive completion (A : Type) : Type :=
| Normal (a : A)
| Throw (e : Error).
Arguments Normal {A} a.
Arguments Throw {A} e.

#[global] Instance completion_ret : MRet completion := fun A a => Normal a.

#[global] Instance completion_bind : MBind completion := fun A B k c =>
  match c with
  | Normal a => k a
  | Throw e => Throw e
  end.

Definition try_catch {A} (c : completion A) (h : Error -> completion A) : completion A :=
  match c with
  | Normal a => Normal a
  | Throw e => h e
  end.

(** ** File system *)

Inductive node : Type :=
| Unreadable (e : Error)      (* exists, but reading or writing it throws *)
| File (content : jsstring).

(** Paths are resolved against the working directory: a leading [./] is
    dropped, so [./.agent/planning.md] and [.agent/planning.md] name the
    same file. *)
Definition resolve (p : string) : string :=
  match p with
  | String "." (String "/" r) => r
  | _ => p
  end.

Definition ENOENT (p : string) : Error :=
  mkError (js "ENOENT: no such file or directory, open '" ++ js p ++ js "'").

Definition existsSync (fs : gmap string node) (p : string) : bool :=
  match fs !! resolve p with
  | Some _ => true
  | None => false
  end.

Definition readFileSync (fs : gmap string node) (p : string) : completion jsstring :=
  match fs !! resolve p with
  | Some (File c) => Normal c
  | Some (Unreadable e) => Throw e
  | None => Throw (ENOENT p)
  end.

Definition appendFileSync (fs : gmap string node) (p : string) (data : jsstring)
  : completion (gmap string node) :=
  match fs !! resolve p with
  | Some (File c) => Normal (<[resolve p := File (c ++ data)]> fs)
  | Some (Unreadable e) => Throw e
  | None => Normal (<[resolve p := File data]> fs)
  end.

(** [iso.split('T')[0]]: the date of the ISO time stamp. *)
Fixpoint before_T (iso : jsstring) : jsstring :=
  match iso with
  | [] => []
  | c :: r => if c =? 84 then [] else c :: before_T r
  end.

(** ** Directories and the log file *)

Module Workspace.

(** A directory is a node of the file system that is there and that
    cannot be read or written as a file. *)
Definition EISDIR : Error := mkError (js "EISDIR: illegal operation on a directory").
Definition EEXIST : Error := mkError (js "EEXIST: file already exists").
Definition ENOTDIR : Error := mkError (js "ENOTDIR: not a directory").

#[global] Instance Error_eq_dec : EqDecision Error.
Proof. solve_decision. Defined.

#[global] Instance node_eq_dec : EqDecision node.
Proof. solve_decision. Defined.

Definition is_directory (n : node) : bool :=
  match n with
  | Unreadable e => bool_decide (e = EISDIR)
  | File _ => false
  end.

(** [path.join] of segments that hold no [..]. *)
Definition path_join (segments : list string) : string :=
  resolve (String.concat "/" segments).

(** The directory a path lies in is there; the working directory always is. *)
Definition parent_there (fs : gmap string node) (segments : list string) : bool :=
  match removelast segments with
  | [] => true
  | above =>
      match fs !! path_join above with
      | Some n => is_directory n
      | None => false
      end
  end.

(** Code that works on the file system, and may throw half way. *)
Definition io (A : Type) : Type :=
  gmap string node -> completion A * gmap string node.

Definition io_ret {A} (a : A) : io A := fun fs => (Normal a, fs).

Definition io_bind {A B} (m : io A) (k : A -> io B) : io B := fun fs =>
  match m fs with
  | (Normal a, fs') => k a fs'
  | (Throw e, fs') => (Throw e, fs')
  end.

Definition io_lift {A} (f : gmap string node -> completion A) : io A :=
  fun fs => (f fs, fs).

Definition io_update (f : gmap string node -> completion (gmap string node)) : io unit :=
  fun fs =>
    match f fs with
    | Normal fs' => (Normal tt, fs')
    | Throw e => (Throw e, fs)
    end.

#[global] Instance io_mret : MRet io := @io_ret.
#[global] Instance io_mbind : MBind io := fun A B k m => io_bind m k.

(** One level of [mkdirSync]: a directory that is there is left alone, a
    missing one is made, anything else is in the way. *)
Definition mkdir (p : string) (fs : gmap string node) : completion (gmap string node) :=
  match fs !! p with
  | None => Normal (<[p := Unreadable EISDIR]> fs)
  | Some n => if is_directory n then Normal fs else Throw EEXIST
  end.

(** [fs.mkdirSync(path.join(...), { recursive: true })], level by level:
    the levels made before one fails stay. *)
Fixpoint mkdir_levels (above below : list string) : io unit :=
  match below with
  | [] => io_ret tt
  | segment :: below' =>
      io_update (mkdir (path_join (above ++ [segment])));;
      mkdir_levels (above ++ [segment]) below'
  end.

Definition mkdirSync (segments : list string) : io unit :=
  mkdir_levels [] segments.

Definition writeFileSync (segments : list string) (data : jsstring) : io unit :=
  io_update (fun fs =>
    if parent_there fs segments then
      match fs !! path_join segments with
      | Some (Unreadable e) => Throw e
      | _ => Normal (<[path_join segments := File data]> fs)
      end
    else Throw (ENOENT (path_join segments))).

(** The directories a recursive [mkdirSync] goes through. *)
Fixpoint levels (above below : list string) : list string :=
  match below with
  | [] => []
  | segment :: below' =>
      path_join (above ++ [segment]) :: levels (above ++ [segment]) below'
  end.

(** Code that changes no path outside [P], and code that removes no path. *)
Definition touches_only {A} (P : string -> Prop) (m : io A) : Prop :=
  forall fs q, ~ P q -> snd (m fs) !! q = fs !! q.

Definition keeps {A} (m : io A) : Prop :=
  forall fs q, is_Some (fs !! q) -> is_Some (snd (m fs) !! q).

(** *** The log file *)

(** The characters of a path are below 256. *)
Definition string_of_js (s : jsstring) : string :=
  fold_right (fun c r => String (ascii_of_N c) r) EmptyString s.

Definition log_file (dateStr : jsstring) : list string :=
  ["./.agent/logs"; "ralphio_" +:+ string_of_js dateStr +:+ ".log"]%string.

(** [getLogFilePath]; [now] is the clock read as an ISO time stamp. *)
Definition getLogFilePath (now : jsstring) : io (list string) :=
  let dateStr := before_T now in
  let logsDir := "./.agent/logs"%string in
  ((fun fs =>
      if negb (existsSync fs logsDir) then mkdirSync ["./.agent"; "logs"]%string fs
      else (Normal tt, fs)) : io unit);;
  mret (log_file dateStr).

Definition logEntry (timestamp type message : jsstring) : jsstring :=
  js "[" ++ timestamp ++ js "] [" ++ type ++ js "] " ++ message ++ [10].

(** [logToFile]: the clock is read twice, for the entry and for the name
    of the file; whatever is thrown is dropped. *)
Definition logToFile (timestamp now : jsstring) (message type : jsstring)
  (fs : gmap string node) : gmap string node :=
  snd ((file ← getLogFilePath now;
        io_update (fun fs =>
          if parent_there fs file
          then appendFileSync fs (path_join file) (logEntry timestamp type message)
          else Throw ENOTDIR)) fs).

(** The paths logging may change: the two directories and the file of
    the day. *)
Definition log_dirs (q : string) : Prop :=
  q = ".agent"%string \/ q = ".agent/logs"%string.

Definition log_paths (now : jsstring) (q : string) : Prop :=
  log_dirs q \/ q = path_join (log_file (before_T now)).

End Workspace.

(** ** Task store reader *)

Module TaskStore.

Definition is_space_or_tab (c : N) : bool := (c =? 32) || (c =? 9).

(** The literal part of the pattern: [- \[ \]]. *)
Definition marker : jsstring := js "- [ ]".

(** The body [[ \t]*- \[ \]] of the pattern, tried at the head of [s]: the
    star is greedy and falls back to the literal; the result is the
    matched text. *)
Fixpoint match_body (s : jsstring) : option jsstring :=
  let literal := if startsWith marker s then Some marker else None in
  match s with
  | c :: rest =>
      match (if is_space_or_tab c then match_body rest else None) with
      | Some m => Some (c :: m)
      | None => literal
      end
  | [] => literal
  end.

(** [content.match(/^[ \t]*- \[ \]/gm)] as a left-to-right scan: [bol]
    says whether the current position is the start of the input or follows
    a line terminator (the [m] flag), [skip] counts the code units still
    covered by the previous match (the [g] flag resumes after it). *)
Fixpoint scan (bol : bool) (skip : nat) (s : jsstring) : list jsstring :=
  match s with
  | [] => []
  | c :: rest =>
      match skip with
      | S k => scan (is_line_terminator c) k rest
      | O =>
          match (if bol then match_body s else None) with
          | Some m => m :: scan (is_line_terminator c) (length m - 1) rest
          | None => scan (is_line_terminator c) 0 rest
          end
      end
  end.

(** [String.prototype.match] with a global pattern yields [null] when there
    is no match and the array of matches otherwise. *)
Definition match_unchecked (content : jsstring) : option (list jsstring) :=
  match scan true 0 content with
  | [] => None
  | ms => Some ms
  end.

Definition hasUnfinishedTasks (fs : gmap string node) : completion bool :=
  try_catch
    (let check (planningPath : string) : completion bool :=
       planningContent ← readFileSync fs planningPath;
       let uncheckedTasks := match_unchecked planningContent in
       match uncheckedTasks with
       | Some ms => if (0 <? length ms)%nat then Normal true else Normal false
       | None => Normal false
       end in
     let planningPath := "./.agent/planning.md"%string in
     if negb (existsSync fs planningPath) then
       let planningPath := "./planning.md"%string in
       if negb (existsSync fs planningPath) then Normal false
       else check planningPath
     else check planningPath)
    (fun error => Normal false).

(** The number of unchecked entries, as the reader counts them. *)
Definition unchecked_count (content : jsstring) : nat :=
  length (scan true 0 content).

(** *** The reader in the words of its contract *)

(** The lines of a text, cut at every line terminator. *)
Fixpoint split_lines (s : jsstring) : list jsstring :=
  match s with
  | [] => [[]]
  | c :: r =>
      if is_line_terminator c then [] :: split_lines r
      else match split_lines r with
           | l :: ls => (c :: l) :: ls
           | [] => [[c]]
           end
  end.

(** A line is unchecked when, after any run of spaces and tabs, it goes on
    with the unchecked marker. *)
Definition unchecked_line (l : jsstring) : Prop :=
  exists indent rest,
    l = indent ++ marker ++ rest /\ Forall (fun c => is_space_or_tab c = true) indent.

(** The store the reader consults: [.agent/planning.md] when it exists,
    else [planning.md] in the working directory. *)
Definition task_store (fs : gmap string node) : option node :=
  match fs !! ".agent/planning.md"%string with
  | Some n => Some n
  | None => fs !! "planning.md"%string
  end.

End TaskStore.

(** ** Commit reconciler *)

Module Commit.

(** The class [[a-zA-Z0-9 \-_]] whose complement the sanitizer deletes. *)
Definition is_safe (c : N) : bool :=
  ((97 <=? c) && (c <=? 122)) || ((65 <=? c) && (c <=? 90))
  || ((48 <=? c) && (c <=? 57)) || (c =? 32) || (c =? 45) || (c =? 95).

(** [s.replace(/[^a-zA-Z0-9 \-_]/g, '')]. *)
Definition strip_unsafe (s : jsstring) : jsstring := filter (fun c => is_safe c = true) s.

(** [s.replace(/\s+/g, ' ')]: every maximal run of [\s] becomes one space;
    [in_run] says whether the previous code unit belonged to the run. *)
Fixpoint collapse_spaces (in_run : bool) (s : jsstring) : jsstring :=
  match s with
  | [] => []
  | c :: r =>
      if is_regex_space c
      then (if in_run then collapse_spaces true r else 32 :: collapse_spaces true r)
      else c :: collapse_spaces false r
  end.

(** [s.lastIndexOf(c)], [-1] when [c] does not occur. *)
Fixpoint lastIndexOf_from (c : N) (s : jsstring) (i acc : Z) : Z :=
  match s with
  | [] => acc
  | d :: r => lastIndexOf_from c r (i + 1)%Z (if d =? c then i else acc)
  end.

Definition lastIndexOf (c : N) (s : jsstring) : Z := lastIndexOf_from c s 0%Z (-1)%Z.

(** [s.substring(0, n)] for [0 <= n]. *)
Definition substring0 (n : nat) (s : jsstring) : jsstring := take n s.

(** A string is falsy exactly when it is empty; [null] and [undefined]
    are [None]. *)
Definition or_default (v : option jsstring) (d : jsstring) : jsstring :=
  match v with
  | Some ((_ :: _) as s) => s
  | _ => d
  end.

(** The task text after the two replacements and the first [trim]. *)
Definition normalize (taskDescription : option jsstring) : jsstring :=
  trim (collapse_spaces false (strip_unsafe (or_default taskDescription (js "task")))).

(** The smart truncation: at most 50 code units, cut back to the last
    space when that space lies beyond index 30. *)
Definition truncate (task : jsstring) : jsstring :=
  if (50 <? length task)%nat then
    let task := substring0 50 task in
    let lastSpace := lastIndexOf 32 task in
    if (30 <? lastSpace)%Z then substring0 (Z.to_nat lastSpace) task else task
  else task.

Definition sanitize (taskDescription : option jsstring) : jsstring :=
  let task := normalize taskDescription in
  let task := truncate task in
  or_default (Some (trim task)) (js "task").

(** The truncation in the words of its contract: [t] is the whole of [n],
    or [n] is cut just before one of its spaces. *)
Definition cut_at_word_boundary (n t : jsstring) : Prop :=
  t = n \/ exists rest, n = t ++ 32 :: rest.

(** The truncation the code performs on the normalised text [n]. *)
Definition truncation_rule (n t : jsstring) : Prop :=
  (n = [] /\ t = js "task") \/
  (n <> [] /\ (length n <= 50)%nat /\ t = n) \/
  ((50 < length n)%nat /\
   ((exists k, (30 < k < 50)%nat /\ n !! k = Some 32 /\
       (forall j, (k < j < 50)%nat -> n !! j <> Some 32) /\ t = take k n) \/
    ((forall j, (30 < j < 50)%nat -> n !! j <> Some 32) /\ t = take 50 n))).

(** The code units the sanitizer keeps. *)
Definition safe (c : N) : Prop := is_safe c = true.

(** A text is tidy when neither end is white space. *)
Definition tidy (x : jsstring) : Prop :=
  (forall c, head x = Some c -> is_regex_space c = false) /\
  (forall c, last x = Some c -> is_regex_space c = false).

(** No two adjacent spaces; [prev] says that a space precedes the text. *)
Fixpoint single_spaced (prev : bool) (s : jsstring) : bool :=
  match s with
  | [] => true
  | c :: r => if c =? 32 then negb prev && single_spaced true r else single_spaced false r
  end.

(** The contract of the sanitizer as it is worded: safe characters only,
    at most 50 of them, cut at a word boundary (or the fallback when
    nothing is left). *)
Definition sanitized_as_worded (taskDescription : option jsstring) : Prop :=
  let task := sanitize taskDescription in
  Forall (fun c => is_safe c = true) task /\
  (length task <= 50)%nat /\
  (normalize taskDescription = [] \/
   cut_at_word_boundary (normalize taskDescription) task).

(** [iso.slice(11, 19).replace(/:/g, '')] on the ISO time stamp: HHMMSS. *)
Definition hhmmss (iso : jsstring) : jsstring :=
  filter (fun c => c <> 58) (take 8 (drop 11 iso)).

(** [sessionId ? sessionId.slice(-6) : 'nosess']. *)
Definition session_tag (sessionId : option jsstring) : jsstring :=
  match sessionId with
  | Some ((_ :: _) as s) => drop (length s - 6) s
  | _ => js "nosess"
  end.

(** The template [RALPHIO: ${task} [${session}-${timestamp}]]. *)
Definition commit_message (taskDescription sessionId : option jsstring) (iso : jsstring)
  : jsstring :=
  js "RALPHIO: " ++ sanitize taskDescription
    ++ js " [" ++ session_tag sessionId ++ js "-" ++ hhmmss iso ++ js "]".

Section Reconciler.

(** The repository with its working tree, and the external [git] behind
    [execSync]: a command either prints its output or throws, and may
    change the repository. The log directory lies in the working tree, so
    an entry written to the log reaches the repository too:
    [logToFile message type] is what it does there. The errors of the
    model carry their message only; [error_details] is how the other
    fields of an error print,
    [stderr: ${error.stderr}, status: ${error.status}]. *)
Variable Repo : Type.
Variable execSync : jsstring -> Repo -> completion jsstring * Repo.
Variable logToFile : jsstring -> jsstring -> Repo -> Repo.
Variable error_details : Error -> jsstring.

(** The repository together with the commands issued so far. *)
Record shell := mkShell { repo : Repo; issued : list jsstring }.

Definition exec (cmd : jsstring) (sh : shell) : completion jsstring * shell :=
  let '(out, r) := execSync cmd (repo sh) in
  (out, mkShell r (issued sh ++ [cmd])).

Definition log (message type : jsstring) (sh : shell) : shell :=
  mkShell (logToFile message type (repo sh)) (issued sh).

Definition git_status : jsstring := js "git status --porcelain".
Definition git_add : jsstring := js "git add -A".
Definition git_diff : jsstring := js "git diff --cached --stat".
Definition git_commit (commitMsg : jsstring) : jsstring :=
  js "git commit -m " ++ [34] ++ commitMsg ++ [34].
Definition git_status_short : jsstring := js "git status --short".

(** The four commands of one reconciliation, in the order of the source. *)
Definition commands (taskDescription sessionId : option jsstring) (iso : jsstring)
  : list jsstring :=
  [git_status; git_add; git_diff;
   git_commit (commit_message taskDescription sessionId iso)].

(** A value in a template literal; [None] is [null]. *)
Definition show (v : option jsstring) : jsstring := default (js "null") v.

Definition no_changes : jsstring :=
  js "No changes to commit - agent likely already committed".

Definition commit_attempt (taskDescription : option jsstring) (task commitMsg : jsstring)
  : jsstring :=
  js "Commit attempt - Original: " ++ [34] ++ show taskDescription ++ [34]
  ++ js ", Sanitized: " ++ [34] ++ task ++ [34]
  ++ js ", Full: " ++ [34] ++ commitMsg ++ [34].

Definition no_staged_changes : jsstring :=
  js "No staged changes - agent likely committed or changes were reverted".

Definition auto_committed (commitMsg : jsstring) : jsstring :=
  js "Auto-committed: " ++ commitMsg.

Definition auto_commit_failed (error : Error) : jsstring :=
  js "Auto-commit failed: " ++ message error.

Definition error_details_entry (error : Error) : jsstring :=
  js "Error details - " ++ error_details error.

(** The [catch] block: the expected condition is a success, anything else
    is reported. [execSync] is a constant of the [try] block, so the
    status query for the operator at the end of the block throws a
    [ReferenceError] before any command is run, and the inner [catch]
    drops it. *)
Definition commit_failed (error : Error) (sh : shell) : bool * shell :=
  if includes (js "nothing to commit") (message error)
  then (true, log (js "Nothing to commit") (js "INFO") sh)
  else
    let sh := log (auto_commit_failed error) (js "ERROR") sh in
    let sh := log (error_details_entry error) (js "DEBUG") sh in
    (false, sh).

Definition autoCommitChanges (taskDescription sessionId : option jsstring)
    (iso : jsstring) (sh : shell) : bool * shell :=
  let '(status, sh) := exec git_status sh in
  match status with
  | Throw error => commit_failed error sh
  | Normal status =>
      match trim status with
      | [] => (true, log no_changes (js "INFO") sh)
      | _ :: _ =>
          let task := sanitize taskDescription in
          let commitMsg := commit_message taskDescription sessionId iso in
          let sh := log (commit_attempt taskDescription task commitMsg) (js "DEBUG") sh in
          let '(added, sh) := exec git_add sh in
          match added with
          | Throw error => commit_failed error sh
          | Normal _ =>
              let '(stagedChanges, sh) := exec git_diff sh in
              match stagedChanges with
              | Throw error => commit_failed error sh
              | Normal stagedChanges =>
                  match trim stagedChanges with
                  | [] => (true, log no_staged_changes (js "INFO") sh)
                  | _ :: _ =>
                      let '(committed, sh) := exec (git_commit commitMsg) sh in
                      match committed with
                      | Throw error => commit_failed error sh
                      | Normal _ => (true, log (auto_committed commitMsg) (js "SUCCESS") sh)
                      end
                  end
              end
          end
      end
  end.

(** The commits attempted by a run: the [git commit] commands it issued. *)
Definition commits_issued (sh : shell) : list jsstring :=
  filter (fun cmd => startsWith (js "git commit") cmd = true) (issued sh).

(** A run that issued no [git commit] on top of the commands before it. *)
Definition no_commit (before after : shell) : Prop :=
  commits_issued after = commits_issued before.

(** How far a call gets: [reaches d s i sh k r] when the call on [sh]
    comes to run its command number [k], counted from 0, and runs it on
    the repository [r]. *)
Inductive reaches (taskDescription sessionId : option jsstring) (iso : jsstring)
    (sh : shell) : nat -> Repo -> Prop :=
| reaches_status :
    reaches taskDescription sessionId iso sh 0 (repo sh)
| reaches_add r status r1 :
    reaches taskDescription sessionId iso sh 0 r ->
    execSync git_status r = (Normal status, r1) -> trim status <> [] ->
    reaches taskDescription sessionId iso sh 1
      (logToFile (commit_attempt taskDescription (sanitize taskDescription)
                    (commit_message taskDescription sessionId iso))
         (js "DEBUG") r1)
| reaches_diff r added r2 :
    reaches taskDescription sessionId iso sh 1 r ->
    execSync git_add r = (Normal added, r2) ->
    reaches taskDescription sessionId iso sh 2 r2
| reaches_commit r stagedChanges r3 :
    reaches taskDescription sessionId iso sh 2 r ->
    execSync git_diff r = (Normal stagedChanges, r3) -> trim stagedChanges <> [] ->
    reaches taskDescription sessionId iso sh 3 r3.

(** How the command number [k], run on [r], ends a call that returns
    [ok] and leaves the repository [after]: it throws, and the call
    succeeds exactly for the expected error; or it returns, and the call
    succeeds, the command being a status query or a staged diff that
    prints nothing, or the commit. *)
Definition ends_call (taskDescription sessionId : option jsstring) (iso : jsstring)
    (k : nat) (cmd : jsstring) (r : Repo) (ok : bool) (after : Repo) : Prop :=
  (exists error r',
     execSync cmd r = (Throw error, r') /\
     ok = includes (js "nothing to commit") (message error) /\
     after = if includes (js "nothing to commit") (message error)
             then logToFile (js "Nothing to commit") (js "INFO") r'
             else logToFile (error_details_entry error) (js "DEBUG")
                    (logToFile (auto_commit_failed error) (js "ERROR") r')) \/
  (exists out r',
     execSync cmd r = (Normal out, r') /\ ok = true /\
     ((k = 0%nat /\ trim out = [] /\ after = logToFile no_changes (js "INFO") r') \/
      (k = 2%nat /\ trim out = [] /\
       after = logToFile no_staged_changes (js "INFO") r') \/
      (k = 3%nat /\
       after = logToFile
                 (auto_committed (commit_message taskDescription sessionId iso))
                 (js "SUCCESS") r'))).

End Reconciler.

(** A repository that does not see the log directory, for one that [git]
    ignores. *)
Definition ignored_log {Repo : Type} (message type : jsstring) (r : Repo) : Repo := r.

(** Errors of which nothing but the message is known. *)
Definition no_details (error : Error) : jsstring :=
  js "stderr: undefined, status: undefined".

(** *** A small repository for examples

    The working tree is clean, has a change, has a change that staging
    turns into no delta, or has staged changes; the number counts the
    commits made. *)
Inductive toy_tree := Clean | Changed | Transient | Staged.

Definition toy_git (cmd : jsstring) (r : toy_tree * nat)
  : completion jsstring * (toy_tree * nat) :=
  let '(t, commits) := r in
  if startsWith (js "git status") cmd then
    (Normal (match t with Clean => [] | _ => js " M README.md" ++ [10] end), r)
  else if startsWith (js "git add") cmd then
    (Normal [], (match t with Changed => Staged | Transient => Clean | _ => t end, commits))
  else if startsWith (js "git diff") cmd then
    (Normal (match t with Staged => js " README.md | 2 +-" ++ [10] | _ => [] end), r)
  else if startsWith (js "git commit") cmd then
    match t with
    | Staged => (Normal (js "1 file changed"), (Clean, S commits))
    | _ => (Throw (mkError (js "Command failed: nothing to commit, working tree clean")), r)
    end
  else (Throw (mkError (js "unknown command")), r).

(** *** A repository that sees its working tree

    [git] compares the files of the working tree, directories left
    aside, with the index and the index with the last commit; the log
    directory lies in the tree. *)
Record worktree := mkWorktree {
  working_tree : gmap string node;
  staging : list (string * node);
  last_commit : list (string * node);
  commit_count : nat }.

Definition tracked (fs : gmap string node) : list (string * node) :=
  filter (fun kv => Workspace.is_directory kv.2 = false) (map_to_list fs).

Definition same_files (a b : list (string * node)) : bool :=
  bool_decide (a = b).

Definition worktree_git (cmd : jsstring) (r : worktree)
  : completion jsstring * worktree :=
  if startsWith (js "git status") cmd then
    (Normal (if same_files (tracked (working_tree r)) (last_commit r) then []
             else js "?? .agent/" ++ [10]), r)
  else if startsWith (js "git add") cmd then
    (Normal [], mkWorktree (working_tree r) (tracked (working_tree r)) (last_commit r) (commit_count r))
  else if startsWith (js "git diff") cmd then
    (Normal (if same_files (staging r) (last_commit r) then []
             else js " .agent/logs/ralphio.log | 1 +" ++ [10]), r)
  else if startsWith (js "git commit") cmd then
    if same_files (staging r) (last_commit r)
    then (Throw (mkError (js "Command failed: nothing to commit, working tree clean")), r)
    else (Normal (js "1 file changed"),
          mkWorktree (working_tree r) (staging r) (staging r) (S (commit_count r)))
  else (Throw (mkError (js "unknown command")), r).

(** The log entry as [logToFile] writes it into the tree, the clock
    standing at [now]. *)
Definition worktree_log (now : jsstring) (message type : jsstring) (r : worktree)
  : worktree :=
  mkWorktree (Workspace.logToFile now now message type (working_tree r))
    (staging r) (last_commit r) (commit_count r).

(** A project with one committed file and nothing to commit. *)
Definition clean_worktree : worktree :=
  let files : gmap string node := {[ "README.md"%string := File (js "# Project") ]} in
  mkWorktree files (tracked files) (tracked files) 0.

End Commit.

(** ** Numbers *)

Module Number.

(** A Number is an IEEE double. The ones at hand are integers or
    infinite: a finite one is the integer it is, and [Infinity] is the
    first power of two that no finite double reaches, so that the order
    of the integers is the order of the Numbers. *)
Definition Infinity : Z := 2 ^ 1024.

(** The Number nearest to a natural number: 53 bits are kept, a tie goes
    to the even significand, and what rounds beyond the largest double is
    infinite. *)
Definition to_double (n : N) : Z :=
  let e := N.size n - 53 in
  let q := N.shiftr n e in
  let r := N.land n (N.ones e) in
  let half := N.shiftl 1 (e - 1) in
  let q := if (0 <? e) && ((half <? r) || ((r =? half) && N.odd q)) then q + 1 else q in
  let v := N.shiftl q e in
  if 2 ^ 1024 <=? v then Infinity else Z.of_N v.

Definition digits (n : N) : jsstring := js (NilZero.string_of_uint (N.to_uint n)).

(** The numbers [s * 10 ^ (n - k)] with [s] of [k] digits, next to [v],
    that read back as [v]. *)
Definition readings (v n k : N) : list (N * N) :=
  let scale := 10 ^ (n - k) in
  List.filter
    (fun ns => (10 ^ (k - 1) <=? ns.2) && (ns.2 <? 10 ^ k)
               && (to_double (ns.2 * scale) =? Z.of_N v)%Z)
    [(n, v / scale); (n, v / scale + 1)].

Definition distance (v k : N) (ns : N * N) : Z :=
  Z.abs (Z.of_N (ns.2 * 10 ^ (ns.1 - k)) - Z.of_N v).

Definition closer (v k : N) (a b : N * N) : N * N :=
  if (distance v k a <? distance v k b)%Z then a
  else if (distance v k b <? distance v k a)%Z then b
  else if N.even a.2 then a else b.

(** The fewest digits that read back as [v], and among the readings with
    that many digits the one closest to [v]: [(n, k, s)] for
    [s * 10 ^ (n - k)]. *)
Fixpoint shortest (v d : N) (ks : list N) : option (N * N * N) :=
  match ks with
  | [] => None
  | k :: ks' =>
      match readings v d k ++ readings v (d + 1) k with
      | [] => shortest v d ks'
      | a :: rest => let '(n, s) := foldl (closer v k) a rest in Some (n, k, s)
      end
  end.

Definition significands : list N := N.of_nat <$> seq 1 17.

(** A positive finite Number in a template literal: its shortest digits,
    filled up with zeros below [10 ^ 21] and in exponent form from there. *)
Definition show_double (v : N) : jsstring :=
  match shortest v (N.of_nat (length (digits v))) significands with
  | None => digits v
  | Some (n, k, s) =>
      if n <=? 21 then digits s ++ replicate (N.to_nat (n - k)) 48
      else
        match digits s with
        | [] => []
        | d :: ds =>
            d :: (match ds with [] => [] | _ => 46 :: ds end)
            ++ js "e+" ++ digits (n - 1)
        end
  end.

(** [`${v}`] for the Number nearest to the integer [v]. *)
Definition toString (v : Z) : jsstring :=
  let m := to_double (Z.abs_N v) in
  if (m =? Infinity)%Z then (if (v <? 0)%Z then js "-Infinity" else js "Infinity")
  else if (m =? 0)%Z then js "0"
  else (if (v <? 0)%Z then js "-" else []) ++ show_double (Z.to_N m).

End Number.

(** ** Timeout guard *)

Module Timeout.

Section Promises.

Context {T : Type}.

Inductive outcome : Type :=
| Fulfilled (v : T)
| Rejected (e : Error).

(** A promise is known by its fate: the time, in milliseconds after the
    call of the guard, at which it settles and how, or [None] when it
    never settles. *)
Definition Promise : Type := option (Z * outcome).

(** Promises are objects: the event loop holds them by identity, and a new
    promise is allocated next to the ones alive. *)
Definition new_promise (heap : list Promise) (p : Promise) : list Promise * nat :=
  (heap ++ [p], length heap).

Definition fate (heap : list Promise) (id : nat) : Promise :=
  default None (heap !! id).

(** When two promises settle within the same millisecond, the order of
    their jobs in the event loop decides which one the race sees first;
    [first_listed_wins_ties] leaves that order open. *)
Variable first_listed_wins_ties : bool.

Definition earlier (p q : Promise) : Promise :=
  match p, q with
  | None, _ => q
  | _, None => p
  | Some (tp, _), Some (tq, _) =>
      if (tp <? tq)%Z then p
      else if (tq <? tp)%Z then q
      else if first_listed_wins_ties then p else q
  end.

(** [Promise.race(ids)]: a new promise that settles as the first of the
    listed promises to settle. *)
Definition Promise_race (heap : list Promise) (ids : list nat) : list Promise * nat :=
  new_promise heap (foldr earlier None (fate heap <$> ids)).

(** Node runs a timer after its delay; a delay below 1 or above
    [2^31 - 1] is replaced by 1. *)
Definition TIMEOUT_MAX : Z := 2147483647.

Definition timer_delay (ms : Z) : Z :=
  if ((1 <=? ms) && (ms <=? TIMEOUT_MAX))%Z then ms else 1%Z.

(** [new Error(`Operation timed out after ${timeoutMs}ms`)]. *)
Definition timeout_error (timeoutMs : Z) : Error :=
  mkError (js "Operation timed out after " ++ Number.toString timeoutMs ++ js "ms").

(** [new Promise((_, reject) => setTimeout(() => reject(error), ms))]. *)
Definition reject_after (heap : list Promise) (ms : Z) (error : Error)
  : list Promise * nat :=
  new_promise heap (Some (timer_delay ms, Rejected error)).

Definition withTimeout (heap : list Promise) (promise : nat) (timeoutMs : Z)
  : list Promise * nat :=
  let '(heap, timer) := reject_after heap timeoutMs (timeout_error timeoutMs) in
  Promise_race heap [promise; timer].

(** [await p]: the value, the exception, or [None] when the wait never
    ends. *)
Definition await (heap : list Promise) (id : nat) : option (completion T) :=
  match fate heap id with
  | Some (_, Fulfilled v) => Some (Normal v)
  | Some (_, Rejected e) => Some (Throw e)
  | None => None
  end.


End Promises.

Arguments outcome T : clear implicits.
Arguments Promise T : clear implicits.

End Timeout.

(** ** Agent invocation adapter *)

Module Adapter.
Import Timeout.

(** [parseInt(s, 10)]: leading white space, a sign, then decimal digits,
    read as the nearest Number; [None] is [NaN]. *)
Definition is_digit (c : N) : bool := (48 <=? c) && (c <=? 57).

Fixpoint digits_value (acc : N) (s : jsstring) : N :=
  match s with
  | c :: r => if is_digit c then digits_value (10 * acc + (c - 48)) r else acc
  | [] => acc
  end.

Definition parseInt10 (s : jsstring) : option Z :=
  let s := trimStart s in
  let '(negative, s) :=
    match s with
    | 45 :: r => (true, r)
    | 43 :: r => (false, r)
    | _ => (false, s)
    end in
  match s with
  | c :: _ =>
      if is_digit c
      then Some (if negative then (- Number.to_double (digits_value 0 s))%Z
                 else Number.to_double (digits_value 0 s))
      else None
  | [] => None
  end.

(** [getTimeout]: the override [LOOP_TIMEOUT_MS] when it parses as a
    positive Number, else 600000. *)
Definition getTimeout (LOOP_TIMEOUT_MS : option jsstring) : Z :=
  match LOOP_TIMEOUT_MS with
  | Some ((_ :: _) as envTimeout) =>
      match parseInt10 envTimeout with
      | None => 600000%Z
      | Some timeout => if (timeout <=? 0)%Z then 600000%Z else timeout
      end
  | _ => 600000%Z
  end.

(** The messages the agent streams. *)
Inductive block : Type :=
| TextBlock (text : jsstring)
| ToolUse (name : jsstring) (input : option jsstring)
| OtherBlock.

Inductive sdk_message : Type :=
| SystemInit (session_id : option jsstring)     (* type system, subtype init *)
| Assistant (content : option (list block))
| ToolResult (tool_name : option jsstring) (is_error : bool)
| Result (result : option jsstring)             (* the terminal result *)
| Unknown (type : jsstring).

(** How the stream ends: it is exhausted, it throws, or it never yields
    again. *)
Inductive stream_end : Type :=
| Exhausted
| Errored (e : Error)
| Stalled.

(** What the agent does in one invocation: the messages it yields, how
    the stream ends, and the time at which the consumer is done with it
    (irrelevant for a stalled stream). *)
Record agent_response := mkResponse {
  events : list sdk_message;
  ending : stream_end;
  elapsed : Z }.

(** The variables of the consumer and the files it writes. *)
Record consumer := mkConsumer {
  sessionId : option jsstring;
  result : option jsstring;
  files : gmap string node }.

Definition truthy (v : option jsstring) : bool :=
  match v with
  | Some (_ :: _) => true
  | _ => false
  end.

(** The line appended to the memory store. *)
Definition breadcrumb (sessionId : option jsstring) : jsstring :=
  [10] ++ js "<!-- Last session: " ++ default [] sessionId ++ js " -->" ++ [10].

(** The body of the [for await] loop for one message. Messages other than
    the session start and the terminal result are only logged. *)
Definition on_message (st : consumer) (m : sdk_message) : completion consumer :=
  match m with
  | SystemInit session_id => Normal (mkConsumer session_id (result st) (files st))
  | Assistant _ => Normal st
  | ToolResult _ _ => Normal st
  | Result r =>
      if truthy (sessionId st) then
        fs ← appendFileSync (files st) ".agent/memory.md" (breadcrumb (sessionId st));
        Normal (mkConsumer (sessionId st) r fs)
      else Normal (mkConsumer (sessionId st) r (files st))
  | Unknown _ => Normal st
  end.

Fixpoint for_await (st : consumer) (ms : list sdk_message) : completion unit * consumer :=
  match ms with
  | [] => (Normal (), st)
  | m :: rest =>
      match on_message st m with
      | Normal st' => for_await st' rest
      | Throw e => (Throw e, st)
      end
  end.

(** The promise of the consumer: its fate and the state it leaves. The
    guard does not stop the consumer, so the state is the one after all
    the messages the stream delivers. *)
Definition queryPromise (fs : gmap string node) (response : agent_response)
  : Promise (option jsstring) * consumer :=
  let '(done, st) := for_await (mkConsumer None (Some []) fs) (events response) in
  match done with
  | Throw e => (Some (elapsed response, Rejected e), st)
  | Normal _ =>
      match ending response with
      | Exhausted => (Some (elapsed response, Fulfilled (result st)), st)
      | Errored e => (Some (elapsed response, Rejected e), st)
      | Stalled => (None, st)
      end
  end.

(** [planningContent.match(/^[ \t]*- \[ \] (.+)$/m)]: the text of the first
    line that is an unchecked entry with a non-empty text. *)
Fixpoint drop_indent (l : jsstring) : jsstring :=
  match l with
  | c :: r => if TaskStore.is_space_or_tab c then drop_indent r else l
  | [] => []
  end.

Definition task_text (line : jsstring) : option jsstring :=
  match strip_prefix (js "- [ ] ") (drop_indent line) with
  | Some ((_ :: _) as text) => Some text
  | _ => None
  end.

Definition first_task (planningContent : jsstring) : option jsstring :=
  head (omap task_text (TaskStore.split_lines planningContent)).

Section Invocation.

Variable Repo : Type.
Variable execSync : jsstring -> Repo -> completion jsstring * Repo.
Variable logToFile : jsstring -> jsstring -> Repo -> Repo.
Variable error_details : Error -> jsstring.
Variable first_listed_wins_ties : bool.

(** What one invocation can see and change: the files, the timeout
    override of the environment, the clock and the repository. *)
Record world := mkWorld {
  disk : gmap string node;
  LOOP_TIMEOUT_MS : option jsstring;
  clock : jsstring;
  git : Commit.shell Repo }.

(** [runTask]. The [catch] block logs the error and throws it again, so
    every exception of the body is the exception of the call. [None]
    stands for a call that never returns. Of the log entries, those of
    the reconciler are in the model; the ones that [runTask] writes
    itself are left out. *)
Definition runTask (w : world) (response : agent_response)
  : option (completion (option jsstring) * world) :=
  let timeoutMs := getTimeout (LOOP_TIMEOUT_MS w) in
  match readFileSync (disk w) ".agent/prompt.md" with
  | Throw error => Some (Throw error, w)
  | Normal promptContent =>
  match readFileSync (disk w) ".agent/memory.md" with
  | Throw error => Some (Throw error, w)
  | Normal memoryContent =>
  match readFileSync (disk w) ".agent/planning.md" with
  | Throw error => Some (Throw error, w)
  | Normal planningContent =>
      let currentTask := default (js "task") (first_task planningContent) in
      let '(query, st) := queryPromise (disk w) response in
      let '(heap, queryPromise) := new_promise [] query in
      let '(heap, guarded) :=
        withTimeout first_listed_wins_ties heap queryPromise timeoutMs in
      match await heap guarded with
      | None => None
      | Some (Throw error) =>
          Some (Throw error, mkWorld (files st) (LOOP_TIMEOUT_MS w) (clock w) (git w))
      | Some (Normal result) =>
          let '(committed, sh) :=
            Commit.autoCommitChanges Repo execSync logToFile error_details
              (Some currentTask) (sessionId st) (clock w) (git w) in
          Some (Normal result, mkWorld (files st) (LOOP_TIMEOUT_MS w) (clock w) sh)
      end
  end end end.

(** The three files every invocation reads first. *)
Definition context_readable (w : world) : Prop :=
  exists promptContent memoryContent planningContent,
    readFileSync (disk w) ".agent/prompt.md" = Normal promptContent /\
    readFileSync (disk w) ".agent/memory.md" = Normal memoryContent /\
    readFileSync (disk w) ".agent/planning.md" = Normal planningContent.

End Invocation.

Definition is_result (m : sdk_message) : bool :=
  match m with
  | Result _ => true
  | _ => false
  end.

Definition is_session_start (m : sdk_message) : bool :=
  match m with
  | SystemInit _ => true
  | _ => false
  end.

(** The adapter contract as it is worded: a stream that is exhausted or
    throws without a terminal result makes the call fail. *)
Definition fails_without_result {Repo} execSync logToFile error_details ties (w : world Repo)
    (response : agent_response) : Prop :=
  existsb is_result (events response) = false ->
  ending response <> Stalled ->
  exists error w', runTask Repo execSync logToFile error_details ties w response = Some (Throw error, w').

(** The breadcrumb contract as it is worded: a received session start
    leaves the breadcrumb of that session in the memory store, once. *)
Definition breadcrumb_on_session_start (fs : gmap string node)
    (response : agent_response) : Prop :=
  forall session_id memoryContent,
    SystemInit (Some session_id) ∈ events response ->
    session_id <> [] ->
    fs !! ".agent/memory.md"%string = Some (File memoryContent) ->
    files (queryPromise fs response).2 !! ".agent/memory.md"%string
    = Some (File (memoryContent ++ breadcrumb (Some session_id))).

(** The breadcrumbs a stream leaves, in the order of its messages: one at
    each terminal result received while a session id is known. *)
Fixpoint breadcrumbs (sessionId : option jsstring) (ms : list sdk_message) : jsstring :=
  match ms with
  | [] => []
  | SystemInit session_id :: rest => breadcrumbs session_id rest
  | Result _ :: rest =>
      (if truthy sessionId then breadcrumb sessionId else []) ++ breadcrumbs sessionId rest
  | _ :: rest => breadcrumbs sessionId rest
  end.

(** Messages that neither start a session nor end the invocation. *)
Definition quiet (m : sdk_message) : Prop :=
  is_result m = false /\ is_session_start m = false.

(** An invocation that completes: a session starts, the agent works, and
    the terminal result arrives. *)
Definition completed_response : agent_response :=
  mkResponse
    [SystemInit (Some (js "sess-0001"));
     Assistant (Some [TextBlock (js "working"); ToolUse (js "Edit") None]);
     ToolResult (Some (js "Edit")) false;
     Result (Some (js "Done."))]
    Exhausted 42000.

(** An invocation whose stream throws after the session start. *)
Definition failing_response : agent_response :=
  mkResponse [SystemInit (Some (js "sess-0002"))]
    (Errored (mkError (js "Claude Code process exited with code 1"))) 900.

(** *** An invocation for examples: a session starts, the agent says
    something, and the stream ends without a terminal result. *)
Definition example_world : world (Commit.toy_tree * nat) :=
  mkWorld _
    {[ ".agent/prompt.md"%string := File (js "One task per loop.");
       ".agent/memory.md"%string := File (js "# MEMORY");
       ".agent/planning.md"%string := File (js "- [ ] Add login") ]}
    None (js "2025-01-01T10:20:30.000Z")
    (Commit.mkShell _ (Commit.Clean, 0%nat) []).

Definition example_response : agent_response :=
  mkResponse
    [SystemInit (Some (js "sess-0001")); Assistant (Some [TextBlock (js "working")])]
    Exhausted 1500.

End Adapter.

(** ** Loop controller *)

Module Controller.

(** The failures in a row at the recent end of a history. *)
Fixpoint streak (h : list bool) : nat :=
  match h with
  | false :: r => S (streak r)
  | _ => 0
  end.

(** The longest run of failures anywhere in a history. *)
Fixpoint max_streak (h : list bool) : nat :=
  match h with
  | [] => 0
  | _ :: r => Nat.max (streak h) (max_streak r)
  end.

Section Loop.

(** The controller sees the world through the task store reader and
    through [runTask], which either returns or throws and leaves a new
    world. *)
Variable World : Type.
Variable hasUnfinishedTasks : World -> bool.
Variable runTask : World -> completion unit * World.

Definition maxIterations : nat := 50.
Definition maxConsecutiveFailures : nat := 3.

(** The variables of the loop; [invocations] records the outcome of every
    call of [runTask] so far, the most recent first ([true] for a call that
    returned). *)
Record loop_state := mkLoop {
  iteration : nat;
  consecutiveFailures : nat;
  world : World;
  invocations : list bool }.

Inductive step_result : Type :=
| Continue (s : loop_state)
| Exit (code : Z) (s : loop_state).      (* [process.exit(code)] *)

(** One pass through the body of the [while] loop. The pauses between
    iterations change no variable and are left out. *)
Definition loop_body (s : loop_state) : step_result :=
  if negb (hasUnfinishedTasks (world s)) then Exit 0 s
  else
    let '(outcome, w) := runTask (world s) in
    match outcome with
    | Normal _ =>
        Continue (mkLoop (S (iteration s)) 0 w (true :: invocations s))
    | Throw error =>
        let consecutiveFailures := S (consecutiveFailures s) in
        if (maxConsecutiveFailures <=? consecutiveFailures)%nat
        then Exit 1 (mkLoop (iteration s) consecutiveFailures w (false :: invocations s))
        else Continue (mkLoop (S (iteration s)) consecutiveFailures w
                         (false :: invocations s))
    end.

(** [while (iteration <= maxIterations) { ... }] followed by the exit with
    code 2; [None] when the fuel runs out. *)
Fixpoint while_loop (fuel : nat) (s : loop_state) : option (Z * loop_state) :=
  match fuel with
  | O => None
  | S fuel =>
      if (iteration s <=? maxIterations)%nat then
        match loop_body s with
        | Continue s' => while_loop fuel s'
        | Exit code s' => Some (code, s')
        end
      else Some (2%Z, s)
  end.

Definition runUntilSuccess (fuel : nat) (w : World) : option (Z * loop_state) :=
  let s := mkLoop 1 0 w [] in
  if negb (hasUnfinishedTasks w) then Some (0%Z, s)
  else while_loop fuel s.

(** The invariant of the loop at the head of the [while]. *)
Definition head_inv (s : loop_state) : Prop :=
  iteration s = S (length (invocations s)) /\
  consecutiveFailures s = streak (invocations s) /\
  (streak (invocations s) < 3)%nat /\
  (max_streak (invocations s) <= 3)%nat.

(** What holds of the state the process exits with. *)
Definition final (code : Z) (s : loop_state) : Prop :=
  consecutiveFailures s = streak (invocations s) /\
  (max_streak (invocations s) <= 3)%nat /\
  (length (invocations s) <= 50)%nat /\
  ((code = 0%Z /\ (streak (invocations s) < 3)%nat /\
    (length (invocations s) < 50)%nat /\ hasUnfinishedTasks (world s) = false) \/
   (code = 1%Z /\ streak (invocations s) = 3%nat /\
    iteration s = length (invocations s)) \/
   (code = 2%Z /\ (streak (invocations s) < 3)%nat /\
    length (invocations s) = 50%nat /\ iteration s = 51%nat)).

End Loop.

Arguments mkLoop {World} _ _ _ _.
Arguments Continue {World} s.
Arguments Exit {World} code s.
Arguments iteration {World} _.
Arguments consecutiveFailures {World} _.
Arguments world {World} _.
Arguments invocations {World} _.
Arguments head_inv {World} s.
Arguments final {World} hasUnfinishedTasks code s.

(** The contract of the always-succeeding run as it is worded: [N]
    iterations, then exit code 0. *)
Definition completes_all {World} has run (fuel : nat) (w : World) (N : nat) : Prop :=
  exists s, runUntilSuccess World has run fuel w = Some (0%Z, s) /\
            length (invocations s) = N.

(** *** Scripted worlds for examples *)

(** A world that is the list of the outcomes still to come; work remains
    as long as the script is not used up. *)
Definition scripted_has (w : list bool) : bool :=
  match w with
  | [] => false
  | _ :: _ => true
  end.

Definition scripted_run (w : list bool) : completion unit * list bool :=
  match w with
  | true :: r => (Normal (), r)
  | false :: r => (Throw (mkError (js "Operation timed out after 600000ms")), r)
  | [] => (Normal (), [])
  end.

(** A world that is the number of unchecked entries; every invocation
    returns and checks one entry off. *)
Definition counting_has (n : nat) : bool := (0 <? n)%nat.

Definition counting_run (n : nat) : completion unit * nat := (Normal (), pred n).

(** A world that is the text of the task store; every invocation returns
    after the agent has checked off the first unchecked entry. *)
Fixpoint tick (s : jsstring) : jsstring :=
  match s with
  | c :: r => if TaskStore.is_space_or_tab c then c :: tick r else js "- [x]" ++ drop 5 s
  | [] => []
  end.

Fixpoint check_off (bol : bool) (s : jsstring) : jsstring :=
  match s with
  | [] => []
  | c :: r =>
      match (if bol then TaskStore.match_body s else None) with
      | Some _ => tick s
      | None => c :: check_off (is_line_terminator c) r
      end
  end.

(** The same on the lines of the store: the first unchecked line is
    ticked. *)
Fixpoint check_lines (ls : list jsstring) : list jsstring :=
  match ls with
  | [] => []
  | l :: r =>
      match TaskStore.match_body l with
      | Some _ => tick l :: r
      | None => l :: check_lines r
      end
  end.

Definition store_has (content : jsstring) : bool :=
  match TaskStore.hasUnfinishedTasks {[ ".agent/planning.md"%string := File content ]} with
  | Normal b => b
  | Throw _ => false
  end.

Definition store_run (content : jsstring) : completion unit * jsstring :=
  (Normal (), check_off true content).

End Controller.

(** ** Log output *)

Module Logging.

(** The class [[0-9;]] of the parameters of a colour sequence. *)
Definition is_sgr_param (c : N) : bool := ((48 <=? c) && (c <=? 57)) || (c =? 59).

(** The tail [[0-9;]*m] of the pattern, tried at the head of [s]: the
    star is greedy and falls back to the letter; the result is the number
    of code units matched. *)
Fixpoint sgr_tail (s : jsstring) : option nat :=
  match s with
  | c :: r =>
      match (if is_sgr_param c then sgr_tail r else None) with
      | Some n => Some (S n)
      | None => if c =? 109 then Some 1%nat else None
      end
  | [] => None
  end.

(** The pattern [\u001b\[[0-9;]*m] at the head of [s]. *)
Definition match_sgr (s : jsstring) : option nat :=
  match s with
  | c :: d :: r =>
      if (c =? 27) && (d =? 91) then option_map (fun n => S (S n)) (sgr_tail r)
      else None
  | _ => None
  end.

(** [text.replace(/\u001b\[[0-9;]*m/g, '')]: every match is dropped and the
    search resumes after it; [skip] counts the code units of the current
    match still to drop. *)
Fixpoint strip_ansi_from (skip : nat) (s : jsstring) : jsstring :=
  match s with
  | [] => []
  | c :: r =>
      match skip with
      | S k => strip_ansi_from k r
      | O =>
          match match_sgr s with
          | Some n => strip_ansi_from (n - 1) r
          | None => c :: strip_ansi_from 0 r
          end
      end
  end.

(** [logOutput] prints [text] and logs [cleanText]. *)
Definition cleanText (text : jsstring) : jsstring := strip_ansi_from 0 text.

(** A colour sequence with the parameters [p]. *)
Definition sgr (p : jsstring) : jsstring := [27; 91] ++ p ++ [109].

End Logging.

(** ** Requirements parser *)

Module Prd.
Import Adapter.

Section ParsePrd.

(** The agent answers a prompt with a stream; the candidate locations of
    the prompt file come from the installation. *)
Variable query : jsstring -> agent_response.
Variable possiblePrdPaths : list string.

(** The first candidate that exists and can be read. *)
Fixpoint find_prompt (fs : gmap string node) (paths : list string) : option jsstring :=
  match paths with
  | [] => None
  | promptPath :: rest =>
      if existsSync fs promptPath then
        match readFileSync fs promptPath with
        | Normal parsePrompt => Some parsePrompt
        | Throw _ => find_prompt fs rest
        end
      else find_prompt fs rest
  end.

Definition fallback_prompt (currentPlanning prdContent : jsstring) : jsstring :=
  js "Analyze this PRD and generate development tasks. Each task should:" ++ [10]
  ++ js "- Be a single checkbox item: " ++ [34] ++ js "- [ ] Task description" ++ [34; 10]
  ++ js "- Be atomic and focused (roughly 2 story points)" ++ [10]
  ++ js "- Follow KISS/DRY/YAGNI principles" ++ [10]
  ++ js "- Be actionable and specific" ++ [10; 10]
  ++ js "Current planning.md content for context (avoid duplicates):" ++ [10]
  ++ currentPlanning ++ [10; 10]
  ++ js "PRD Content:" ++ [10]
  ++ prdContent ++ [10; 10]
  ++ js "Generate only the task list in markdown format, nothing else.".

Definition fullPrompt (parsePrompt prdContent currentPlanning : jsstring) : jsstring :=
  parsePrompt ++ [10; 10] ++ js "PRD Content:" ++ [10] ++ prdContent ++ [10; 10]
  ++ js "Current planning.md (for context - avoid duplicates):" ++ [10]
  ++ currentPlanning ++ [10; 10]
  ++ js "IMPORTANT: Output ONLY the task list in markdown format with story points. No explanations, no preamble, no tool calls.".

Definition block_text (b : block) : jsstring :=
  match b with
  | TextBlock text => text
  | _ => []
  end.

(** The body of the [for await] loop: the text of the assistant is
    accumulated, and a non-empty terminal result replaces what was
    accumulated. *)
Definition collect (generatedTasks : jsstring) (m : sdk_message) : jsstring :=
  match m with
  | Assistant (Some content) => generatedTasks ++ concat (block_text <$> content)
  | Result (Some ((_ :: _) as result)) => result
  | _ => generatedTasks
  end.

(** Messages that carry no non-empty terminal result. *)
Definition no_final (m : sdk_message) : Prop :=
  match m with
  | Result (Some (_ :: _)) => False
  | _ => True
  end.

Definition separator (iso : jsstring) : jsstring :=
  [10; 10] ++ js "## Tasks from PRD (" ++ before_T iso ++ js ")" ++ [10].

(** The [catch] block: the error is logged, and the call reports [false]. *)
Definition parse_failed (iso : jsstring) (error : Error) (fs : gmap string node)
  : option (bool * gmap string node) :=
  Some (false,
        Workspace.logToFile iso iso (js "PRD parsing error: " ++ message error)
          (js "ERROR") fs).

(** [parsePRD]: every exception is caught, logged and reported as
    [false]; [None] stands for a call that never returns, the stream
    being stalled. The clock stands at [iso]. *)
Definition parsePRD (iso : jsstring) (fs : gmap string node) (prdFile : string)
  : option (bool * gmap string node) :=
  if negb (existsSync fs prdFile) then Some (false, fs)
  else if negb (existsSync fs ".agent/planning.md") then Some (false, fs)
  else
    match readFileSync fs prdFile with
    | Throw error => parse_failed iso error fs
    | Normal prdContent =>
    match readFileSync fs ".agent/planning.md" with
    | Throw error => parse_failed iso error fs
    | Normal currentPlanning =>
        let parsePrompt :=
          match find_prompt fs possiblePrdPaths with
          | Some parsePrompt => parsePrompt
          | None => fallback_prompt currentPlanning prdContent
          end in
        let response := query (fullPrompt parsePrompt prdContent currentPlanning) in
        let generatedTasks := foldl collect [] (events response) in
        match ending response with
        | Stalled => None
        | Errored error => parse_failed iso error fs
        | Exhausted =>
            match generatedTasks with
            | [] => Some (false, fs)
            | _ :: _ =>
                match appendFileSync fs ".agent/planning.md"
                        (separator iso ++ generatedTasks ++ [10]) with
                | Normal fs' => Some (true, fs')
                | Throw error => parse_failed iso error fs
                end
            end
        end
    end end.

End ParsePrd.

(** *** A requirements document for examples *)

Definition prd_world : gmap string node :=
  {[ "PRD.md"%string := File (js "Users can log in.");
     ".agent/planning.md"%string := File (js "- [ ] Set up" ++ [10] ++ js "- [x] Init") ]}.

Definition prd_agent (prompt : jsstring) : agent_response :=
  mkResponse
    [SystemInit (Some (js "sess-0004"));
     Assistant (Some [TextBlock (js "thinking")]);
     Result (Some (js "- [ ] Add POST /login endpoint (2 stories)"))]
    Exhausted 3000.

End Prd.

(** ** Command line *)

Module Cli.

Inductive command : Type :=
| PrintHelp
| PrintVersion
| Init
| ParsePrd (prdFile : string)
| MissingPrdFile              (* error message, exit code 1 *)
| Once
| UntilSuccess
| UnknownCommand.             (* error message, exit code 1 *)

(** [args.includes(a)]. *)
Definition includes_arg (args : list string) (a : string) : bool :=
  bool_decide (a ∈ args).

(** [args.indexOf(a)], for an argument that occurs. *)
Fixpoint indexOf (args : list string) (a : string) : nat :=
  match args with
  | [] => 0
  | b :: rest => if bool_decide (b = a) then 0 else S (indexOf rest a)
  end.

(** The chain of tests at the end of the program, reached once the
    executable of the agent has been found. *)
Definition dispatch (args : list string) : command :=
  if bool_decide (length args = 0%nat) || includes_arg args "--help" then PrintHelp
  else if includes_arg args "--version" then PrintVersion
  else if includes_arg args "init" then Init
  else if includes_arg args "--parse-prd" then
    let prdIndex := indexOf args "--parse-prd" in
    match args !! (prdIndex + 1)%nat with
    | Some ((String _ _) as prdFile) => ParsePrd prdFile
    | _ => MissingPrdFile
    end
  else if includes_arg args "--once" then Once
  else if includes_arg args "--until-success" then UntilSuccess
  else UnknownCommand.

End Cli.

(** ** A world in which nothing works *)

Module Hopeless.

(** Work always remains and every invocation throws. *)
Definition hopeless_has (w : nat) : bool := true.

Definition hopeless_run (w : nat) : completion unit * nat :=
  (Throw (mkError (js "Claude Code process exited with code 1")), S w).

End Hopeless.

(** ** Shell quoting *)

Module Quoting.

(** The characters that keep a meaning between the double quotes of
    [git commit -m "..."]: the quote itself, [$], the backslash and the
    backquote. *)
Definition is_shell_special (c : N) : bool :=
  (c =? 34) || (c =? 36) || (c =? 92) || (c =? 96).

End Quoting.

(** ** Further worlds for examples *)

Module Fixtures.
Import Adapter.

(** A [git] that is not there: every command throws. *)
Definition broken_git (cmd : jsstring) (r : unit) : completion jsstring * unit :=
  (Throw (mkError (js "fatal: not a git repository")), r).

(** A [git] with changes at hand whose every command succeeds; the state
    counts the commands run. *)
Definition busy_git (cmd : jsstring) (r : nat) : completion jsstring * nat :=
  (Normal (js " M ralphio.js" ++ [10]), S r).

Definition broken_world : world unit :=
  mkWorld _
    {[ ".agent/prompt.md"%string := File (js "One task per loop.");
       ".agent/memory.md"%string := File (js "# MEMORY");
       ".agent/planning.md"%string := File (js "- [ ] Add login") ]}
    (Some (js "180000")) (js "2025-01-01T10:20:30.000Z")
    (Commit.mkShell _ tt []).


End Fixtures.

(** ** [init] *)

Module Init.
Import Workspace.

Definition configContent : jsstring :=
  js "{" ++ [10]
  ++ js "  " ++ [34] ++ js "paths" ++ [34] ++ js ": {" ++ [10]
  ++ js "    " ++ [34] ++ js "agentDir" ++ [34] ++ js ": " ++ [34] ++ js "./.agent" ++ [34] ++ js "," ++ [10]
  ++ js "    " ++ [34] ++ js "memoryFile" ++ [34] ++ js ": " ++ [34] ++ js "./.agent/memory.md" ++ [34] ++ js "," ++ [10]
  ++ js "    " ++ [34] ++ js "planFile" ++ [34] ++ js ": " ++ [34] ++ js "./.agent/planning.md" ++ [34] ++ js "," ++ [10]
  ++ js "    " ++ [34] ++ js "promptFile" ++ [34] ++ js ": " ++ [34] ++ js "./.agent/prompt.md" ++ [34] ++ js "," ++ [10]
  ++ js "    " ++ [34] ++ js "artifactsDir" ++ [34] ++ js ": " ++ [34] ++ js "./.agent/artifacts/loops" ++ [34] ++ js "," ++ [10]
  ++ js "    " ++ [34] ++ js "logsDir" ++ [34] ++ js ": " ++ [34] ++ js "./.agent/logs" ++ [34; 10]
  ++ js "  }" ++ [10]
  ++ js "}".

Definition memoryTemplate : jsstring :=
  js "# MEMORY" ++ [10; 10]
  ++ js "## Stack Discovery" ++ [10]
  ++ js "- **Stack**: [To be discovered on first run]" ++ [10]
  ++ js "- **Build Command**: [To be discovered]" ++ [10]
  ++ js "- **Type Check**: [To be discovered]" ++ [10; 10]
  ++ js "## Learnings" ++ [10; 10]
  ++ js "[Loop results and learnings will be recorded here automatically]" ++ [10].

Definition planTemplate : jsstring :=
  js "# Planning - Sample Tasks" ++ [10; 10]
  ++ js "## Getting Started" ++ [10]
  ++ js "- [ ] Run npm run build to verify project setup" ++ [10]
  ++ js "- [ ] Create a simple hello.txt file with greeting message" ++ [10]
  ++ js "- [ ] Add a test comment to demonstrate edit functionality" ++ [10; 10]
  ++ js "## Notes" ++ [10]
  ++ js "- Each task should be 1-2 story points (simple, focused changes)" ++ [10]
  ++ js "- Tasks are processed one at a time by RALPHIO" ++ [10]
  ++ js "- Mark tasks with `- [ ]` for unchecked, `- [x]` when complete" ++ [10]
  ++ js "- Parent tasks can have child subtasks with same indentation" ++ [10].

Definition embedded_prompt : jsstring :=
  js "# RALPHIO - ONE TASK PER LOOP WITH TDD SUPPORT - STRICT RULES" ++ [10]
  ++ js "## " ++ [55357; 57041] ++ js " STOP AND READ THIS FIRST" ++ [10]
  ++ js "IMPLEMENTATION PLAN: .agent/planning.md" ++ [10; 10]
  ++ js "You get ONE task per loop. Not two. Not three. ONE." ++ [10]
  ++ js "If you do multiple tasks, you have FAILED." ++ [10; 10]
  ++ js "## THE ONLY PROCESS YOU FOLLOW:" ++ [10]
  ++ js "### Step 0: ALWAYS READ MEMORY FIRST (CRITICAL!)" ++ [10]
  ++ js "- Read .agent/memory.md" ++ [10]
  ++ js "- This contains learnings from previous loops - don't repeat mistakes!" ++ [10; 10]
  ++ js "### Step 1: Read the plan AND EVALUATE TASK SIZE" ++ [10]
  ++ js "- Find the FIRST task in .agent/planning.md marked with `- [ ]`" ++ [10]
  ++ js "- Remember the EXACT text of this task" ++ [10]
  ++ js "- That is your ONLY task for this loop" ++ [10; 10]
  ++ js "### Step 2: DETERMINE APPROACH - TDD OR REGULAR" ++ [10]
  ++ js "**Decision: Does this task create/modify functionality that should have tests?**" ++ [10]
  ++ js "- **YES** " ++ [8594] ++ js " Features, APIs, business logic " ++ [8594] ++ js " Go to Step 2A (TDD Mode)" ++ [10]
  ++ js "- **NO** " ++ [8594] ++ js " Config, dependencies, CSS, docs " ++ [8594] ++ js " Go to Step 2B (Regular Mode)" ++ [10; 10]
  ++ js "#### Step 2A: TDD MODE" ++ [10]
  ++ js "**If task lacks [TEST] or [IMPLEMENT] marker:**" ++ [10]
  ++ js "1. Write tests that will FAIL" ++ [10]
  ++ js "2. Run tests - confirm they FAIL" ++ [10]
  ++ js "3. Commit tests: `git commit -m " ++ [34] ++ js "test: {task}" ++ [34] ++ js "`" ++ [10]
  ++ js "4. Mark task complete and add [IMPLEMENT] task" ++ [10]
  ++ js "5. STOP - Do NOT implement yet" ++ [10; 10]
  ++ js "**If task has [IMPLEMENT] marker:**" ++ [10]
  ++ js "1. Write code to pass tests" ++ [10]
  ++ js "2. Run tests until ALL pass" ++ [10]
  ++ js "3. Run `npm run build` to verify" ++ [10]
  ++ js "4. Commit: `git commit -m " ++ [34] ++ js "feat: {task}" ++ [34] ++ js "`" ++ [10]
  ++ js "5. Mark task complete" ++ [10]
  ++ js "6. STOP" ++ [10; 10]
  ++ js "#### Step 2B: REGULAR MODE" ++ [10]
  ++ js "1. Implement the task" ++ [10]
  ++ js "2. Run `npm run build` to verify" ++ [10]
  ++ js "3. Commit: `git commit -m " ++ [34] ++ js "chore: {task}" ++ [34] ++ js "`" ++ [10]
  ++ js "4. Continue to Step 3" ++ [10; 10]
  ++ js "### Step 3: Update the plan" ++ [10]
  ++ js "Use Edit tool to mark task complete in .agent/planning.md" ++ [10; 10]
  ++ js "### Step 4: Report and exit" ++ [10]
  ++ js "- Update memory.md if you learned something important" ++ [10]
  ++ js "- Your job is done for this loop" ++ [10; 10]
  ++ js "[Note: Full prompt template not embedded - please ensure ralphio is properly installed]".

Inductive init_result : Type :=
| Skipped               (* [.agent] was there *)
| Initialized
| Failed (error : Error).

(** The first candidate that exists and can be read, or else the
    embedded text. *)
Definition promptTemplate (possiblePaths : list string) (fs : gmap string node) : jsstring :=
  default embedded_prompt (Prd.find_prompt fs possiblePaths).

(** [initializeAgentStructure]; the candidate locations of the prompt
    file come from the installation. *)
Definition initializeAgentStructure (possiblePaths : list string)
  (fs : gmap string node) : init_result * gmap string node :=
  let agentDir := "./.agent"%string in
  if existsSync fs agentDir then (Skipped, fs)
  else
    match
      (mkdirSync [agentDir];;
       mkdirSync [agentDir; "artifacts"; "loops"]%string;;
       mkdirSync [agentDir; "logs"]%string;;
       writeFileSync [agentDir; "agent.config.json"]%string configContent;;
       writeFileSync [agentDir; "memory.md"]%string memoryTemplate;;
       writeFileSync [agentDir; "planning.md"]%string planTemplate;;
       prompt ← io_lift (fun fs => Normal (promptTemplate possiblePaths fs));
       writeFileSync [agentDir; "prompt.md"]%string prompt) fs
    with
    | (Normal _, fs') => (Initialized, fs')
    | (Throw error, fs') => (Failed error, fs')
    end.

(** The exit code of [ralphio init]. *)
Definition init_exit_code (r : init_result) : Z :=
  match r with
  | Failed _ => 1%Z
  | _ => 0%Z
  end.

(** *** Directories for examples *)

(** A project that has logged before. *)
Definition logged_project : gmap string node :=
  {[ ".agent"%string := Unreadable EISDIR;
     ".agent/logs"%string := Unreadable EISDIR;
     ".agent/logs/ralphio_2025-01-01.log"%string
       := File (js "[2025-01-01T09:00:00.000Z] [START] first" ++ [10]) ]}.

(** A project with a task list of the old layout only. *)
Definition legacy_project : gmap string node :=
  {[ "planning.md"%string := File (js "- [x] Add login") ]}.

End Init.

(** ** Facts about the task store reader *)

Module TaskStoreFacts.
Import TaskStore.

Lemma startsWith_app p s : startsWith p s = true <-> exists r, s = p ++ r.
Proof.
  unfold startsWith. revert s. induction p as [|a p IH]; intros s; simpl.
  - split; [eauto | done].
  - destruct s as [|b s]; simpl.
    + split; [done | intros [r Hr]; discriminate].
    + destruct (N.eqb_spec a b) as [->|Hne].
      * rewrite IH. split; intros [r Hr]; exists r; congruence.
      * split; [done | intros [r Hr]; congruence].
Qed.

Lemma space_or_tab_not_terminator c :
  is_space_or_tab c = true -> is_line_terminator c = false.
Proof.
  unfold is_space_or_tab. rewrite orb_true_iff, !N.eqb_eq.
  intros [-> | ->]; reflexivity.
Qed.

(** A literal without line terminators is not found across one. *)
Lemma startsWith_line p l t r :
  Forall (fun c => is_line_terminator c = false) p ->
  is_line_terminator t = true ->
  startsWith p (l ++ t :: r) = startsWith p l.
Proof.
  intros Hp Ht. unfold startsWith. revert l.
  induction Hp as [|a p Ha Hp IH]; intros l; [done | ].
  destruct l as [|b l]; simpl.
  - destruct (N.eqb_spec a t) as [->|]; [congruence | done].
  - destruct (N.eqb a b); [apply IH | done].
Qed.

Lemma marker_no_terminator :
  Forall (fun c => is_line_terminator c = false) marker.
Proof. repeat constructor. Qed.

Lemma startsWith_marker_line l t r :
  is_line_terminator t = true ->
  startsWith marker (l ++ t :: r) = startsWith marker l.
Proof. apply startsWith_line, marker_no_terminator. Qed.

#[local] Arguments startsWith : simpl never.

Lemma match_body_line l t r :
  is_line_terminator t = true ->
  match_body (l ++ t :: r) = match_body l.
Proof.
  intros Ht. induction l as [|c l IH].
  - simpl. pose proof (startsWith_marker_line [] t r Ht) as Hl.
    simpl in Hl. rewrite Hl.
    destruct (is_space_or_tab t) eqn:Hsp; [ | reflexivity ].
    apply space_or_tab_not_terminator in Hsp. congruence.
  - change ((c :: l) ++ t :: r) with (c :: (l ++ t :: r)).
    simpl. rewrite IH.
    change (c :: l ++ t :: r) with ((c :: l) ++ t :: r).
    by rewrite (startsWith_marker_line (c :: l) t r Ht).
Qed.

Lemma match_body_cons c s :
  match_body (c :: s) =
  if is_space_or_tab c then option_map (cons c) (match_body s)
  else if startsWith marker (c :: s) then Some marker else None.
Proof.
  simpl. destruct (is_space_or_tab c) eqn:Hc.
  - destruct (match_body s); [done | ].
    destruct (startsWith marker (c :: s)) eqn:Hl; [ | done].
    apply startsWith_app in Hl as [r Hr]. injection Hr as -> _. discriminate.
  - done.
Qed.

(** What the body of the pattern matches: an indentation of spaces and
    tabs followed by the marker, at the head of the text. *)
Lemma match_body_Some s m :
  match_body s = Some m <->
  exists indent rest,
    m = indent ++ marker /\ s = m ++ rest /\
    Forall (fun c => is_space_or_tab c = true) indent.
Proof.
  revert m. induction s as [|c s IH]; intros m.
  - split; [done | ].
    intros (indent & rest & -> & Hs & _). destruct indent; discriminate.
  - rewrite match_body_cons. destruct (is_space_or_tab c) eqn:Hc.
    + split.
      * destruct (match_body s) as [m'|] eqn:Hm; [ | done].
        intros [= <-]. destruct (proj1 (IH m') eq_refl) as (i & r & -> & -> & Hi).
        exists (c :: i), r. split; [done | ]. split; [done | by constructor].
      * intros (indent & rest & -> & Hs & Hi). destruct indent as [|d indent].
        -- simpl in Hs. injection Hs as -> _. discriminate.
        -- simpl in Hs. injection Hs as <- Hs.
           assert (match_body s = Some (indent ++ marker)) as ->.
           { apply IH. exists indent, rest. inversion Hi; subst. done. }
           done.
    + split.
      * destruct (startsWith marker (c :: s)) eqn:Hl; [ | done].
        apply startsWith_app in Hl as [r Hr].
        intros [= <-]. exists [], r. done.
      * intros (indent & rest & -> & Hs & Hi). destruct indent as [|d indent].
        -- assert (startsWith marker (c :: s) = true) as ->; [ | done].
           apply startsWith_app. eauto.
        -- simpl in Hs. injection Hs as <- _. inversion Hi; subst. congruence.
Qed.

Lemma match_body_unchecked_line l :
  is_Some (match_body l) <-> unchecked_line l.
Proof.
  unfold unchecked_line. split.
  - intros [m Hm]. apply match_body_Some in Hm as (i & r & -> & -> & Hi).
    exists i, r. by rewrite <- app_assoc.
  - intros (i & r & -> & Hi). exists (i ++ marker). apply match_body_Some.
    exists i, r. by rewrite <- app_assoc.
Qed.

Lemma match_body_no_terminator s m :
  match_body s = Some m -> Forall (fun c => is_line_terminator c = false) m.
Proof.
  intros (i & r & -> & _ & Hi)%match_body_Some.
  apply Forall_app. split; [ | apply marker_no_terminator].
  eapply Forall_impl; [exact Hi | ]. apply space_or_tab_not_terminator.
Qed.

(** The first line of a text, and what follows it. *)
Lemma split_lines_first r :
  exists l ls, split_lines r = l :: ls /\
    Forall (fun c => is_line_terminator c = false) l /\
    ((r = l /\ ls = []) \/
     (exists t r', is_line_terminator t = true /\ r = l ++ t :: r' /\ ls = split_lines r')).
Proof.
  induction r as [|c r (l & ls & Hr & Hl & Hcase)]; simpl.
  - exists [], []. split; [done | ]. split; [constructor | by left].
  - destruct (is_line_terminator c) eqn:Hc.
    + exists [], (split_lines r). split; [done | ]. split; [constructor | ].
      right. exists c, r. done.
    + rewrite Hr. exists (c :: l), ls. split; [done | ]. split; [by constructor | ].
      destruct Hcase as [[-> ->] | (t & r' & Ht & -> & ->)]; [by left | ].
      right. exists t, r'. done.
Qed.

Lemma split_lines_app p rest :
  Forall (fun c => is_line_terminator c = false) p ->
  split_lines (p ++ rest)
  = match split_lines rest with
    | l :: ls => (p ++ l) :: ls
    | [] => [p]
    end.
Proof.
  induction 1 as [|c p Hc Hp IH]; simpl.
  - destruct (split_lines_first rest) as (l & ls & -> & _). done.
  - rewrite Hc, IH. by destruct (split_lines rest).
Qed.

Lemma match_body_first_line r l ls :
  split_lines r = l :: ls -> match_body r = match_body l.
Proof.
  intros Hr. destruct (split_lines_first r) as (l' & ls' & Hr' & _ & Hcase).
  rewrite Hr in Hr'. injection Hr' as <- <-.
  destruct Hcase as [[-> _] | (t & r' & Ht & -> & _)]; [done | ].
  by apply match_body_line.
Qed.

(** The scan finds exactly the matches of the body on the lines of the
    text: a match never reaches a line terminator, so resuming after the
    previous match skips no line start. *)
Lemma scan_lines s : forall k bol,
  Forall (fun c => is_line_terminator c = false) (take k s) ->
  scan bol k s =
  omap match_body
    (if bol && bool_decide (k = 0%nat) then split_lines s else tail (split_lines s)).
Proof.
  induction s as [|c s IH]; intros k bol Hk.
  - simpl. by destruct (bol && _).
  - destruct (split_lines_first s) as (l & ls & Hs & _).
    destruct k as [|k].
    + rewrite andb_true_r. cbn [scan].
      assert (scan (is_line_terminator c) 0 s =
              omap match_body (tail (split_lines (c :: s)))) as Hrest.
      { rewrite IH by (rewrite take_0; constructor). rewrite andb_true_r.
        simpl. destruct (is_line_terminator c); [done | by rewrite Hs]. }
      assert (match_body (c :: s) = None ->
              omap match_body (split_lines (c :: s)) =
              omap match_body (tail (split_lines (c :: s)))) as Hnone.
      { intros Hm. simpl. destruct (is_line_terminator c) eqn:Hc; [done | ].
        rewrite Hs. cbn [omap list_omap tail].
        rewrite <- (match_body_first_line (c :: s) (c :: l) ls), Hm; [done | ].
        simpl. by rewrite Hc, Hs. }
      destruct bol; [ | exact Hrest].
      destruct (match_body (c :: s)) as [m|] eqn:Hm.
      * pose proof (match_body_no_terminator _ _ Hm) as Hnt.
        apply match_body_Some in Hm as Hm'.
        destruct Hm' as (i & r & Hmi & Hcs & Hi).
        destruct m as [|c' m]; [destruct i; discriminate | ].
        injection Hcs as <- Hs'. inversion Hnt as [|? ? Hc Hnt']; subst.
        rewrite Hc, IH.
        2:{ simpl. rewrite Nat.sub_0_r, take_app_length. exact Hnt'. }
        rewrite andb_false_l. simpl. rewrite Hc.
        destruct (split_lines (m ++ r)) as [|l' ls'] eqn:Hsl; [discriminate | ].
        cbn [omap list_omap tail].
        rewrite <- (match_body_first_line (c :: m ++ r) (c :: l') ls'), Hm; [done | ].
        simpl. by rewrite Hc, Hsl.
      * rewrite Hrest. symmetry. by apply Hnone.
    + rewrite andb_false_r. cbn [scan]. simpl in Hk.
      inversion Hk as [|? ? Hc Hk']; subst. rewrite Hc.
      rewrite IH by exact Hk'. rewrite andb_false_l. simpl. by rewrite Hc, Hs.
Qed.

Lemma scan_all_lines content :
  scan true 0 content = omap match_body (split_lines content).
Proof. by rewrite scan_lines by (rewrite take_0; constructor). Qed.

Lemma scan_nonempty content :
  scan true 0 content <> [] <->
  exists l, l ∈ split_lines content /\ unchecked_line l.
Proof.
  rewrite scan_all_lines. generalize (split_lines content) as ls.
  induction ls as [|l ls IH]; simpl.
  - split; [done | ]. intros (l & Hl & _). by apply not_elem_of_nil in Hl.
  - destruct (match_body l) as [m|] eqn:Hm.
    + split; [ | done]. intros _. exists l. split; [left | ].
      apply match_body_unchecked_line. eauto.
    + rewrite IH. split.
      * intros (l' & Hl' & Hu). exists l'. split; [by right | done].
      * intros (l' & Hl' & Hu). apply elem_of_cons in Hl' as [-> | Hl'].
        -- apply match_body_unchecked_line in Hu as [? ?]. congruence.
        -- eauto.
Qed.

(** The entries the reader counts are the unchecked lines of the store. *)
Lemma unchecked_count_lines content :
  unchecked_count content = length (omap match_body (split_lines content)).
Proof. unfold unchecked_count. by rewrite scan_all_lines. Qed.

Lemma check_content content :
  match match_unchecked content with
  | Some ms => if (0 <? length ms)%nat then Normal true else Normal false
  | None => Normal false
  end = Normal (bool_decide (scan true 0 content <> [])).
Proof.
  unfold match_unchecked. destruct (scan true 0 content) as [|m ms]; [done | ].
  by rewrite bool_decide_true.
Qed.

Example hasUnfinishedTasks_indented :
  hasUnfinishedTasks
    {[ ".agent/planning.md"%string :=
         File (js "# Plan" ++ [10] ++ js "- [x] done" ++ [13; 10; 9]
               ++ js "  - [ ] child task" ++ [10]) ]}
  = Normal true.
Proof. vm_compute. reflexivity. Qed.

Example hasUnfinishedTasks_mid_line :
  hasUnfinishedTasks
    {[ "planning.md"%string := File (js "note: - [ ] is the unchecked marker") ]}
  = Normal false.
Proof. vm_compute. reflexivity. Qed.

(** C9: whatever the state of the task store, [hasUnfinishedTasks] completes
    normally with a boolean. The boolean is [true] exactly when the store
    it consults is readable and one of its lines starts, after any run of
    spaces and tabs, with the unchecked marker; so a missing store, an
    unreadable store and a store without such a line all give [false]. *)
Theorem hasUnfinishedTasks_never_throws (fs : gmap string node) :
  exists b, hasUnfinishedTasks fs = Normal b /\
    (b = true <->
     exists content, task_store fs = Some (File content) /\
       exists l, l ∈ split_lines content /\ unchecked_line l).
Proof.
  unfold hasUnfinishedTasks, task_store, existsSync, readFileSync. simpl resolve.
  destruct (fs !! ".agent/planning.md"%string) as [[e|content]|] eqn:Hagent; simpl.
  - exists false. split; [done | ]. split; [done | ]. intros (c & [=] & _).
  - change (mbind _ (Normal content)) with
      (match match_unchecked content with
       | Some ms => if (0 <? length ms)%nat then Normal true else Normal false
       | None => Normal false
       end).
    rewrite check_content. simpl. eexists. split; [done | ].
    rewrite bool_decide_eq_true, scan_nonempty. split.
    + intros Hl. by exists content.
    + by intros (c & [= <-] & Hl).
  - destruct (fs !! "planning.md"%string) as [[e|content]|] eqn:Hroot; simpl.
    + exists false. split; [done | ]. split; [done | ]. intros (c & [=] & _).
    + change (mbind _ (Normal content)) with
        (match match_unchecked content with
         | Some ms => if (0 <? length ms)%nat then Normal true else Normal false
         | None => Normal false
         end).
      rewrite check_content. simpl. eexists. split; [done | ].
      rewrite bool_decide_eq_true, scan_nonempty. split.
      * intros Hl. by exists content.
      * by intros (c & [= <-] & Hl).
    + exists false. split; [done | ]. split; [done | ]. intros (c & [=] & _).
Qed.

End TaskStoreFacts.

(** ** Facts about the commit message *)

Module CommitFacts.
Import Commit.

Lemma safe_range c : is_safe c = true -> 32 <= c <= 122.
Proof.
  unfold is_safe.
  repeat match goal with
  | |- context [N.leb ?a ?b] => destruct (N.leb_spec a b)
  | |- context [N.eqb ?a ?b] => destruct (N.eqb_spec a b)
  end; simpl; try discriminate; lia.
Qed.

(** Among the safe code units only the space is white space. *)
Lemma safe_space_iff c : is_safe c = true -> is_regex_space c = (c =? 32).
Proof.
  intros H%safe_range.
  unfold is_regex_space, is_white_space, is_line_terminator.
  repeat match goal with
  | |- context [N.leb ?a ?b] => destruct (N.leb_spec a b); try lia
  | |- context [N.eqb ?a ?b] => destruct (N.eqb_spec a b); try lia
  end; reflexivity.
Qed.

Lemma trimStart_sublist s : exists p, s = p ++ trimStart s.
Proof.
  induction s as [|c s [p Hp]]; simpl; [by exists [] | ].
  destruct (is_regex_space c); [ | by exists []].
  exists (c :: p). simpl. by f_equal.
Qed.

Lemma trimEnd_sublist s : exists q, s = trimEnd s ++ q.
Proof.
  induction s as [|c s [q Hq]]; simpl; [by exists [] | ].
  destruct (trimEnd s) as [|d r] eqn:Hr.
  - destruct (is_regex_space c).
    + by exists (c :: s).
    + exists s. done.
  - exists q. simpl. by f_equal.
Qed.

Lemma trim_length s : (length (trim s) <= length s)%nat.
Proof.
  unfold trim. destruct (trimStart_sublist s) as [p Hp].
  destruct (trimEnd_sublist (trimStart s)) as [q Hq].
  rewrite Hp at 2. rewrite Hq at 2. rewrite !length_app. lia.
Qed.

Lemma trim_Forall (P : N -> Prop) s : Forall P s -> Forall P (trim s).
Proof.
  unfold trim. destruct (trimStart_sublist s) as [p Hp].
  destruct (trimEnd_sublist (trimStart s)) as [q Hq].
  intros H. rewrite Hp, Hq in H.
  apply Forall_app in H as [_ H]. by apply Forall_app in H as [H _].
Qed.

Lemma truncate_length s : (length (truncate s) <= 50)%nat.
Proof.
  unfold truncate, substring0. destruct (Nat.ltb_spec 50 (length s)); [ | lia].
  destruct (_ <? _)%Z; rewrite ?length_take; lia.
Qed.

Lemma truncate_Forall (P : N -> Prop) s : Forall P s -> Forall P (truncate s).
Proof.
  unfold truncate, substring0. intros H. destruct (_ <? _)%nat; [ | done].
  destruct (_ <? _)%Z; repeat apply Forall_take; done.
Qed.

Lemma collapse_spaces_safe b s : Forall safe s -> Forall safe (collapse_spaces b s).
Proof.
  intros H. revert b. induction H as [|c s Hc Hs IH]; intros b; simpl; [constructor | ].
  destruct (is_regex_space c); [destruct b | ]; repeat constructor; auto.
Qed.

Lemma normalize_safe desc : Forall safe (normalize desc).
Proof.
  unfold normalize. apply trim_Forall, collapse_spaces_safe.
  unfold strip_unsafe. apply list.Forall_forall. intros c Hc.
  by apply list_elem_of_filter in Hc as [Hc _].
Qed.

Lemma or_default_nonempty v d : d <> [] -> or_default v d <> [].
Proof. intros Hd. destruct v as [[|c s]|]; simpl; done. Qed.

Lemma sanitize_safe desc : Forall safe (sanitize desc).
Proof.
  unfold sanitize.
  pose proof (trim_Forall safe _ (truncate_Forall safe _ (normalize_safe desc))) as H.
  destruct (trim (truncate (normalize desc))); simpl; [ | done].
  repeat constructor.
Qed.

Lemma sanitize_length desc : (length (sanitize desc) <= 50)%nat.
Proof.
  unfold sanitize.
  pose proof (trim_length (truncate (normalize desc))) as H1.
  pose proof (truncate_length (normalize desc)) as H2.
  destruct (trim (truncate (normalize desc))); simpl in *; lia.
Qed.

Lemma sanitize_nonempty desc : sanitize desc <> [].
Proof. unfold sanitize. by apply or_default_nonempty. Qed.

(** *** Trimmed texts *)

Lemma trimStart_head s c : head (trimStart s) = Some c -> is_regex_space c = false.
Proof.
  induction s as [|d s IH]; simpl; [done | ].
  destruct (is_regex_space d) eqn:Hd; [done | ]. simpl. by intros [= <-].
Qed.

Lemma trimEnd_last s c : last (trimEnd s) = Some c -> is_regex_space c = false.
Proof.
  induction s as [|d s IH]; simpl; [done | ].
  destruct (trimEnd s) as [|e r] eqn:Hr.
  - destruct (is_regex_space d) eqn:Hd; simpl; [done | by intros [= <-]].
  - done.
Qed.

Lemma trimEnd_head s c : head (trimEnd s) = Some c -> head s = Some c.
Proof.
  destruct (trimEnd_sublist s) as [q Hq]. rewrite Hq at 2.
  by destruct (trimEnd s).
Qed.

Lemma trim_tidy s : tidy (trim s).
Proof.
  split; intros c Hc.
  - by apply trimEnd_head, trimStart_head in Hc.
  - by apply trimEnd_last in Hc.
Qed.

Lemma trimStart_id x :
  (forall c, head x = Some c -> is_regex_space c = false) -> trimStart x = x.
Proof. destruct x as [|c x]; simpl; [done | ]. intros H. by rewrite H. Qed.

Lemma trimEnd_id x :
  (forall c, last x = Some c -> is_regex_space c = false) -> trimEnd x = x.
Proof.
  induction x as [|c x IH]; simpl; [done | ]. intros H.
  destruct x as [|d x].
  - simpl. by rewrite H.
  - rewrite IH; [done | ]. intros e He. by apply H.
Qed.

Lemma trim_id x : tidy x -> trim x = x.
Proof.
  intros [Hh Hl]. unfold trim. rewrite trimStart_id by done. by apply trimEnd_id.
Qed.

(** *** Runs of spaces *)

Lemma single_spaced_collapse b s : single_spaced b (collapse_spaces b s) = true.
Proof.
  revert b. induction s as [|c s IH]; intros b; simpl; [done | ].
  destruct (is_regex_space c) eqn:Hc.
  - destruct b; [apply IH | ]. simpl. apply IH.
  - simpl. destruct (N.eqb_spec c 32) as [->|_]; [discriminate | apply IH].
Qed.

Lemma single_spaced_weaken b s : single_spaced b s = true -> single_spaced false s = true.
Proof.
  destruct s as [|c s]; simpl; [done | ].
  destruct (c =? 32); [ | done]. destruct b; simpl; [discriminate | done].
Qed.

Lemma single_spaced_app b x y :
  single_spaced b (x ++ y) = true ->
  single_spaced b x = true /\ single_spaced false y = true.
Proof.
  revert b. induction x as [|c x IH]; intros b; simpl.
  - intros H. split; [done | by eapply single_spaced_weaken].
  - destruct (c =? 32).
    + intros [Hb H]%andb_true_iff. rewrite Hb. simpl. by apply IH.
    + apply IH.
Qed.

Lemma single_spaced_adjacent b s j :
  single_spaced b s = true -> s !! j = Some 32 -> s !! S j <> Some 32.
Proof.
  revert b j. induction s as [|c s IH]; intros b j; simpl; [done | ].
  destruct j as [|j].
  - simpl. intros H [= ->]. simpl in H. apply andb_true_iff in H as [_ H].
    destruct s as [|d s]; simpl in *; [done | ].
    intros [= ->]. simpl in H. discriminate.
  - intros H. change ((c :: s) !! S j) with (s !! j).
    change ((c :: s) !! S (S j)) with (s !! S j).
    destruct (c =? 32); [apply andb_true_iff in H as [_ H] | ]; by eapply IH.
Qed.

Lemma normalize_single_spaced desc : single_spaced false (normalize desc) = true.
Proof.
  unfold normalize, trim.
  set (s := collapse_spaces false _).
  pose proof (single_spaced_collapse false (strip_unsafe (or_default desc (js "task")))) as H.
  fold s in H.
  destruct (trimStart_sublist s) as [p Hp].
  destruct (trimEnd_sublist (trimStart s)) as [q Hq].
  rewrite Hp in H. apply single_spaced_app in H as [_ H].
  rewrite Hq in H. by apply single_spaced_app in H as [H _].
Qed.

(** *** [lastIndexOf] *)

Lemma lastIndexOf_from_spec c s : forall i acc,
  (lastIndexOf_from c s i acc = acc /\ forall j, s !! j <> Some c) \/
  (exists k : nat, lastIndexOf_from c s i acc = (i + Z.of_nat k)%Z /\
     s !! k = Some c /\ forall j, (k < j)%nat -> s !! j <> Some c).
Proof.
  induction s as [|d s IH]; intros i acc; simpl.
  - left. done.
  - destruct (IH (i + 1)%Z (if d =? c then i else acc)) as [[Hr Hn] | (k & Hr & Hk & Hn)].
    + destruct (N.eqb_spec d c) as [->|Hne].
      * right. exists 0%nat. split; [lia | ]. split; [done | ].
        intros [|j] Hj; [lia | apply Hn].
      * left. split; [done | ]. intros [|j]; simpl; [congruence | apply Hn].
    + right. exists (S k). split; [lia | ]. split; [done | ].
      intros [|j] Hj; [lia | ]. apply Hn. lia.
Qed.

Lemma lastIndexOf_spec c s :
  (lastIndexOf c s = (-1)%Z /\ forall j, s !! j <> Some c) \/
  (exists k : nat, lastIndexOf c s = Z.of_nat k /\
     s !! k = Some c /\ forall j, (k < j)%nat -> s !! j <> Some c).
Proof.
  unfold lastIndexOf.
  destruct (lastIndexOf_from_spec c s 0%Z (-1)%Z) as [H | (k & Hr & H)]; [by left | ].
  right. exists k. by rewrite Hr.
Qed.

(** *** The truncation *)

Lemma tidy_take n k :
  tidy n -> Forall safe n -> (1 <= k <= length n)%nat ->
  n !! (k - 1)%nat <> Some 32 -> tidy (take k n).
Proof.
  intros [Hh _] Hsafe Hk Hsp. split; intros c Hc.
  - apply Hh. destruct k as [|k]; [lia | ]. by destruct n.
  - rewrite last_lookup, length_take_le in Hc by lia.
    rewrite lookup_take_lt in Hc by lia.
    replace (pred k) with (k - 1)%nat in Hc by lia.
    pose proof (Forall_lookup_1 safe n _ c Hsafe Hc) as Hsc.
    rewrite (safe_space_iff c Hsc).
    destruct (N.eqb_spec c 32) as [->|]; [congruence | done].
Qed.

Lemma or_default_Some x d : x <> [] -> or_default (Some x) d = x.
Proof. by destruct x. Qed.

Lemma sanitize_rule desc : truncation_rule (normalize desc) (sanitize desc).
Proof.
  unfold sanitize.
  pose proof (trim_tidy (collapse_spaces false
    (strip_unsafe (or_default desc (js "task"))))) as Htidy.
  fold (normalize desc) in Htidy.
  pose proof (normalize_safe desc) as Hsafe.
  pose proof (normalize_single_spaced desc) as Hss.
  set (n := normalize desc) in *. unfold truncate, substring0.
  destruct (Nat.ltb_spec 50 (length n)) as [Hlen|Hlen].
  - right. right. split; [done | ].
    assert (forall k, (30 < k <= 50)%nat -> n !! (k - 1)%nat <> Some 32 ->
            or_default (Some (trim (take k n))) (js "task") = take k n) as Hcut.
    { intros k Hk Hsp. rewrite trim_id by (apply tidy_take; [done | done | lia | done]).
      apply or_default_Some. intros Hnil.
      apply (f_equal length) in Hnil. rewrite length_take_le in Hnil by lia.
      simpl in Hnil. lia. }
    destruct (lastIndexOf_spec 32 (take 50 n)) as [[Hr Hn] | (k & Hr & Hk & Hn)];
      rewrite Hr.
    + right. simpl.
      assert (forall j, (j < 50)%nat -> n !! j <> Some 32) as Hn'.
      { intros j Hj. specialize (Hn j). by rewrite lookup_take_lt in Hn by lia. }
      split; [intros j Hj; apply Hn'; lia | ].
      apply Hcut; [lia | apply Hn'; lia].
    + apply lookup_take_Some in Hk as [Hk Hk50].
      assert (forall j, (k < j < 50)%nat -> n !! j <> Some 32) as Hn'.
      { intros j Hj. specialize (Hn j). rewrite lookup_take_lt in Hn by lia.
        apply Hn. lia. }
      destruct (Z.ltb_spec 30 (Z.of_nat k)) as [Hk30|Hk30].
      * left. exists k. split; [lia | ]. split; [done | ]. split; [done | ].
        rewrite Nat2Z.id, take_take, Nat.min_l by lia.
        apply Hcut; [lia | ].
        intros Hprev. eapply (single_spaced_adjacent false n (k - 1)); eauto.
        by replace (S (k - 1)) with k by lia.
      * right. split; [intros j Hj; apply Hn'; lia | ].
        apply Hcut; [lia | apply Hn'; lia].
  - rewrite trim_id by done. destruct n as [|c n'] eqn:Hn.
    + left. done.
    + right. left. done.
Qed.

(** *** The sanitizer *)

Example sanitize_login :
  sanitize (Some (js "Add POST /login endpoint!! (urgent)"))
  = js "Add POST login endpoint urgent".
Proof. vm_compute. reflexivity. Qed.

Example sanitize_long_cut_at_space :
  sanitize (Some (js "Refactor the authentication middleware to support refresh tokens"))
  = js "Refactor the authentication middleware to support".
Proof. vm_compute. reflexivity. Qed.

Example sanitize_long_word :
  sanitize (Some (js "Add internationalization_and_localization_support_for_every_page"))
  = js "Add internationalization_and_localization_support_".
Proof. vm_compute. reflexivity. Qed.

(** C8, as worded, fails: a text whose last space within the first 50
    characters lies at or before index 30 is cut at 50 characters, inside
    a word. *)
Lemma sanitize_cuts_inside_word :
  ~ sanitized_as_worded
      (Some (js "Add internationalization_and_localization_support_for_every_page")).
Proof.
  intros (_ & _ & [H | [H | [rest H]]]); vm_compute in H; discriminate.
Qed.

(** C8, amended: the sanitized task text holds only characters of
    [[A-Za-z0-9 _-]] and at most 50 of them. A normalised text of at most
    50 characters is kept whole; a longer one is cut at the last space of
    its first 50 characters when that space lies beyond index 30, and at
    exactly 50 characters otherwise. The example of the contract yields
    [Add POST login endpoint urgent], and the message is the sanitized
    text between the [RALPHIO: ] prefix and the session and time suffix. *)
Theorem sanitize_commit_message (taskDescription sessionId : option jsstring)
    (iso : jsstring) :
  let task := sanitize taskDescription in
  Forall (fun c => is_safe c = true) task /\
  (length task <= 50)%nat /\
  truncation_rule (normalize taskDescription) task /\
  sanitize (Some (js "Add POST /login endpoint!! (urgent)"))
    = js "Add POST login endpoint urgent" /\
  commit_message taskDescription sessionId iso
    = js "RALPHIO: " ++ task ++ js " [" ++ session_tag sessionId ++ js "-"
        ++ hhmmss iso ++ js "]".
Proof.
  intros task. split; [apply sanitize_safe | ].
  split; [apply sanitize_length | ].
  split; [apply sanitize_rule | ].
  split; [apply sanitize_login | reflexivity].
Qed.

Lemma strip_unsafe_all_unsafe s :
  Forall (fun c => is_safe c = false) s -> strip_unsafe s = [].
Proof.
  unfold strip_unsafe. induction 1 as [|c s Hc Hs IH]; [done | ].
  rewrite filter_cons_False by congruence. done.
Qed.

(** C10: for every task description, [null] and the empty string included,
    the task segment of the commit message is not empty and has at most 50
    characters; when nothing is left of the description after
    normalisation, in particular when all its characters are outside
    [[A-Za-z0-9 _-]], the segment is the literal [task]. *)
Theorem sanitize_task_segment (taskDescription : option jsstring) :
  sanitize taskDescription <> [] /\
  (length (sanitize taskDescription) <= 50)%nat /\
  sanitize None = js "task" /\
  sanitize (Some []) = js "task" /\
  (normalize taskDescription = [] -> sanitize taskDescription = js "task") /\
  (forall s, taskDescription = Some s -> Forall (fun c => is_safe c = false) s ->
             sanitize taskDescription = js "task").
Proof.
  split; [apply sanitize_nonempty | ].
  split; [apply sanitize_length | ].
  split; [reflexivity | ]. split; [reflexivity | ].
  assert (normalize taskDescription = [] -> sanitize taskDescription = js "task") as Hn.
  { intros Hn. unfold sanitize. by rewrite Hn. }
  split; [exact Hn | ].
  intros s -> Hs. destruct s as [|c s]; [reflexivity | ].
  apply Hn. unfold normalize. simpl or_default.
  by rewrite strip_unsafe_all_unsafe.
Qed.

Lemma sanitize_task_segment_witness :
  normalize (Some (js "!!! (???) /// ...")) = [] /\
  Forall (fun c => is_safe c = false) (js "!!!(???)///...") /\
  sanitize (Some (js "!!! (???) /// ...")) = js "task" /\
  sanitize (Some (js "!!!(???)///...")) = js "task".
Proof.
  assert (normalize (Some (js "!!! (???) /// ...")) = []) as Hn
    by (vm_compute; reflexivity).
  assert (Forall (fun c => is_safe c = false) (js "!!!(???)///...")) as Hu
    by (repeat constructor).
  split; [exact Hn | ]. split; [exact Hu | ]. split.
  - destruct (sanitize_task_segment (Some (js "!!! (???) /// ...")))
      as (_ & _ & _ & _ & H & _).
    exact (H Hn).
  - destruct (sanitize_task_segment (Some (js "!!!(???)///...")))
      as (_ & _ & _ & _ & _ & H).
    exact (H _ eq_refl Hu).
Defined.

(** *** The reconciler *)

Section ReconcilerFacts.

Variable Repo : Type.
Variable execSync : jsstring -> Repo -> completion jsstring * Repo.
Variable logToFile : jsstring -> jsstring -> Repo -> Repo.
Variable error_details : Error -> jsstring.

(** A clean status query: success, and nothing but the query was run. *)
Lemma autoCommit_clean desc sid iso sh out r :
  execSync git_status (repo Repo sh) = (Normal out, r) ->
  trim out = [] ->
  autoCommitChanges Repo execSync logToFile error_details desc sid iso sh
  = (true, mkShell Repo (logToFile no_changes (js "INFO") r)
             (issued Repo sh ++ [git_status])).
Proof.
  intros Hst Hout. unfold autoCommitChanges, exec. by rewrite Hst, Hout.
Qed.

(** Staging that leaves no staged delta: success, and no commit was run. *)
Lemma autoCommit_no_delta desc sid iso sh out r1 added r2 staged r3 :
  execSync git_status (repo Repo sh) = (Normal out, r1) ->
  trim out <> [] ->
  execSync git_add
    (logToFile (commit_attempt desc (sanitize desc) (commit_message desc sid iso))
       (js "DEBUG") r1) = (Normal added, r2) ->
  execSync git_diff r2 = (Normal staged, r3) ->
  trim staged = [] ->
  autoCommitChanges Repo execSync logToFile error_details desc sid iso sh
  = (true, mkShell Repo (logToFile no_staged_changes (js "INFO") r3)
             (issued Repo sh ++ [git_status; git_add; git_diff])).
Proof.
  intros Hst Hout Hadd Hdiff Hstaged. unfold autoCommitChanges, exec, log.
  rewrite Hst. destruct (trim out) as [|c o]; [done | ].
  cbn [repo issued]. rewrite Hadd. cbn [repo issued]. rewrite Hdiff, Hstaged.
  cbn [repo issued]. by rewrite <- !app_assoc.
Qed.

End ReconcilerFacts.

(** On a repository that sees its working tree, the entry that the first
    call logs is a change for the second: a project with nothing to
    commit is reconciled twice in a row, the first call runs the status
    query alone, and the second stages and commits the log file. *)
Lemma second_call_commits_the_log :
  let now := js "2025-01-01T10:20:30.000Z" in
  let sh := mkShell worktree clean_worktree [] in
  exists sh1 sh2,
    autoCommitChanges worktree worktree_git (worktree_log now) no_details
      (Some (js "Add login")) None now sh = (true, sh1) /\
    issued worktree sh1 = [git_status] /\
    autoCommitChanges worktree worktree_git (worktree_log now) no_details
      (Some (js "Add login")) None now sh1 = (true, sh2) /\
    issued worktree sh2
    = [git_status; git_status; git_add; git_diff;
       git_commit (js "RALPHIO: Add login [nosess-102030]")] /\
    commit_count (repo worktree sh2) = 1%nat /\
    ~ no_commit worktree sh sh2.
Proof.
  intros now sh.
  destruct (autoCommitChanges worktree worktree_git (worktree_log now) no_details
              (Some (js "Add login")) None now sh) as [ok1 sh1] eqn:E1.
  destruct (autoCommitChanges worktree worktree_git (worktree_log now) no_details
              (Some (js "Add login")) None now sh1) as [ok2 sh2] eqn:E2.
  exists sh1, sh2.
  vm_compute in E1. injection E1 as <- <-.
  vm_compute in E2. injection E2 as <- <-.
  repeat split; try reflexivity.
  intros H. vm_compute in H. discriminate H.
Qed.

(** C7: when the status query reports no change, [autoCommitChanges]
    succeeds having run nothing but that query, and having logged that;
    called twice in a row it succeeds both times and no commit is made,
    provided the status query is still clean after the entry that the
    first call logs; and when changes are reported but staging leaves no
    staged delta, it succeeds without committing. *)
Theorem autoCommitChanges_nothing_to_commit
    (Repo : Type) (execSync : jsstring -> Repo -> completion jsstring * Repo)
    (logToFile : jsstring -> jsstring -> Repo -> Repo) (error_details : Error -> jsstring)
    (desc sid : option jsstring) (iso : jsstring) (sh : shell Repo) :
  (forall out r,
     execSync git_status (repo Repo sh) = (Normal out, r) -> trim out = [] ->
     autoCommitChanges Repo execSync logToFile error_details desc sid iso sh
     = (true, mkShell Repo (logToFile no_changes (js "INFO") r)
                (issued Repo sh ++ [git_status]))) /\
  (forall out r out' r' desc' sid' iso',
     execSync git_status (repo Repo sh) = (Normal out, r) -> trim out = [] ->
     execSync git_status (logToFile no_changes (js "INFO") r) = (Normal out', r') ->
     trim out' = [] ->
     exists sh1 sh2,
       autoCommitChanges Repo execSync logToFile error_details desc sid iso sh
       = (true, sh1) /\
       autoCommitChanges Repo execSync logToFile error_details desc' sid' iso' sh1
       = (true, sh2) /\
       repo Repo sh2 = logToFile no_changes (js "INFO") r' /\
       issued Repo sh2 = issued Repo sh ++ [git_status; git_status] /\
       no_commit Repo sh sh2) /\
  (forall out r1 added r2 staged r3,
     execSync git_status (repo Repo sh) = (Normal out, r1) -> trim out <> [] ->
     execSync git_add
       (logToFile (commit_attempt desc (sanitize desc) (commit_message desc sid iso))
          (js "DEBUG") r1) = (Normal added, r2) ->
     execSync git_diff r2 = (Normal staged, r3) -> trim staged = [] ->
     exists sh',
       autoCommitChanges Repo execSync logToFile error_details desc sid iso sh
       = (true, sh') /\
       repo Repo sh' = logToFile no_staged_changes (js "INFO") r3 /\
       issued Repo sh' = issued Repo sh ++ [git_status; git_add; git_diff] /\
       no_commit Repo sh sh').
Proof.
  split; [ | split].
  - intros out r. apply autoCommit_clean.
  - intros out r out' r' desc' sid' iso' Hst Hout Hst' Hout'.
    eexists _, _. split; [by eapply autoCommit_clean | ].
    split; [by eapply autoCommit_clean | ].
    split; [done | ]. split; [simpl; by rewrite <- app_assoc | ].
    unfold no_commit, commits_issued. simpl.
    rewrite !filter_app. simpl. by rewrite !app_nil_r.
  - intros out r1 added r2 staged r3 Hst Hout Hadd Hdiff Hstaged.
    eexists. split; [by eapply autoCommit_no_delta | ].
    split; [done | ]. split; [done | ].
    unfold no_commit, commits_issued. simpl.
    rewrite filter_app. simpl. by rewrite app_nil_r.
Qed.

Lemma autoCommitChanges_nothing_to_commit_witness :
  autoCommitChanges _ toy_git ignored_log no_details
    (Some (js "Add login")) None (js "2025-01-01T10:20:30.000Z")
    (mkShell _ (Clean, 0%nat) [])
  = (true, mkShell _ (Clean, 0%nat) [git_status]) /\
  (exists sh1 sh2,
     autoCommitChanges _ toy_git ignored_log no_details
       (Some (js "Add login")) None (js "2025-01-01T10:20:30.000Z")
       (mkShell _ (Clean, 0%nat) []) = (true, sh1) /\
     autoCommitChanges _ toy_git ignored_log no_details
       (Some (js "Add logout")) None (js "2025-01-01T10:21:30.000Z")
       sh1 = (true, sh2) /\
     repo _ sh2 = (Clean, 0%nat) /\
     issued _ sh2 = [git_status; git_status] /\
     no_commit _ (mkShell _ (Clean, 0%nat) []) sh2) /\
  (exists sh',
     autoCommitChanges _ toy_git ignored_log no_details
       (Some (js "Add login")) None (js "2025-01-01T10:20:30.000Z")
       (mkShell _ (Transient, 0%nat) []) = (true, sh') /\
     repo _ sh' = (Clean, 0%nat) /\
     issued _ sh' = [git_status; git_add; git_diff] /\
     no_commit _ (mkShell _ (Transient, 0%nat) []) sh').
Proof.
  destruct (autoCommitChanges_nothing_to_commit _ toy_git ignored_log no_details
              (Some (js "Add login")) None
              (js "2025-01-01T10:20:30.000Z") (mkShell _ (Clean, 0%nat) []))
    as (Hclean & Htwice & _).
  destruct (autoCommitChanges_nothing_to_commit _ toy_git ignored_log no_details
              (Some (js "Add login")) None
              (js "2025-01-01T10:20:30.000Z") (mkShell _ (Transient, 0%nat) []))
    as (_ & _ & Hstaged).
  split; [ | split].
  - apply (Hclean [] (Clean, 0%nat)); reflexivity.
  - apply (Htwice [] (Clean, 0%nat) [] (Clean, 0%nat)); reflexivity.
  - apply (Hstaged (js " M README.md" ++ [10]) (Transient, 0%nat) [] (Clean, 0%nat) []);
      first [reflexivity | discriminate].
Defined.

End CommitFacts.

(** ** Facts about the timeout guard *)

Module TimeoutFacts.
Import Timeout.

Section GuardFacts.

Context {T : Type}.
Variable ties : bool.

Lemma fate_new_old (heap : list (Promise T)) p id :
  (id < length heap)%nat -> fate (new_promise heap p).1 id = fate heap id.
Proof. intros Hid. unfold fate, new_promise. simpl. by rewrite lookup_app_l. Qed.

Lemma fate_new (heap : list (Promise T)) p :
  fate (new_promise heap p).1 (new_promise heap p).2 = p.
Proof.
  unfold fate, new_promise. simpl.
  by rewrite list_lookup_middle.
Qed.

Lemma earlier_None_r (p : Promise T) : earlier ties p None = p.
Proof. by destruct p as [[? ?]|]. Qed.

Lemma timer_delay_le ms : (0 < ms)%Z -> (1 <= timer_delay ms <= ms)%Z.
Proof.
  intros Hms. unfold timer_delay, TIMEOUT_MAX.
  destruct (Z.leb_spec 1 ms), (Z.leb_spec ms 2147483647); simpl; lia.
Qed.

(** The fate of the guarded promise: the race of the operation and the
    timer. *)
Lemma withTimeout_fate (heap : list (Promise T)) operation ms :
  (operation < length heap)%nat ->
  fate (withTimeout ties heap operation ms).1 (withTimeout ties heap operation ms).2
  = earlier ties (fate heap operation)
      (Some (timer_delay ms, Rejected (timeout_error ms))).
Proof.
  intros Hop. unfold withTimeout, reject_after, Promise_race.
  set (timerP := Some (timer_delay ms, Rejected (timeout_error ms))).
  destruct (new_promise heap timerP) as [h1 timer] eqn:Hnew.
  rewrite fate_new. simpl.
  assert (h1 = (new_promise heap timerP).1) as Hh1 by (by rewrite Hnew).
  assert (timer = (new_promise heap timerP).2) as Htimer by (by rewrite Hnew).
  rewrite Hh1, Htimer, fate_new, fate_new_old by done.
  by rewrite earlier_None_r.
Qed.



End GuardFacts.




End TimeoutFacts.

(** ** Facts about Numbers *)

Module NumberFacts.
Import Number.

Lemma size_small n : n < 2 ^ 53 -> N.size n - 53 = 0.
Proof.
  intros Hn. destruct (N.eq_dec n 0) as [-> | Hne]; [reflexivity | ].
  rewrite N.size_log2 by done.
  assert (N.log2 n < 53) by (apply N.log2_lt_pow2; lia). lia.
Qed.

(** The integers below [2 ^ 53] are Numbers. *)
Lemma to_double_small n : n < 2 ^ 53 -> to_double n = Z.of_N n.
Proof.
  intros Hn. unfold to_double. rewrite (size_small n Hn).
  cbn [N.ltb N.compare andb]. rewrite N.shiftr_0_r, N.shiftl_0_r.
  destruct (N.leb_spec (2 ^ 1024) n) as [Hle | _]; [ | reflexivity].
  exfalso. assert (2 ^ 53 < 2 ^ 1024) by (apply N.pow_lt_mono_r; lia). lia.
Qed.

(** A positive integer is read as a positive Number. *)
Lemma to_double_pos n : 0 < n -> (0 < to_double n)%Z.
Proof.
  intros Hn. unfold to_double.
  set (e := N.size n - 53).
  assert (0 < N.shiftr n e) as Hq.
  { apply N.neq_0_lt_0. intros H0. apply N.shiftr_eq_0_iff in H0 as [-> | [_ Hlog]];
      [lia | ]. subst e. rewrite N.size_log2 in Hlog by lia. lia. }
  match goal with |- context [N.shiftl ?q e] => assert (0 < q) as Hq' end.
  { destruct (_ && _); lia. }
  match goal with |- context [N.shiftl ?q e] => set (q' := q) in * end.
  destruct (N.leb_spec (2 ^ 1024) (N.shiftl q' e)); [reflexivity | ].
  rewrite N.shiftl_mul_pow2.
  assert (0 < 2 ^ e) by (apply N.neq_0_lt_0, N.pow_nonzero; lia). nia.
Qed.

End NumberFacts.

(** ** Facts about the agent invocation adapter *)

Module AdapterFacts.
Import Timeout TimeoutFacts Adapter.


(** *** The consumer *)

Lemma for_await_no_result ms : forall st,
  existsb is_result ms = false ->
  exists sid, for_await st ms = (Normal (), mkConsumer sid (result st) (files st)).
Proof.
  induction ms as [|m ms IH]; intros st Hnr; simpl.
  - exists (sessionId st). by destruct st.
  - simpl in Hnr. apply orb_false_iff in Hnr as [Hm Hms].
    destruct m as [sid| | |r|]; simpl in *; try discriminate; try by apply IH.
    destruct (IH (mkConsumer sid (result st) (files st)) Hms) as [sid' ->]. eauto.
Qed.

Lemma queryPromise_no_result fs response :
  existsb is_result (events response) = false ->
  exists sid,
    queryPromise fs response
    = (match ending response with
       | Exhausted => Some (elapsed response, Fulfilled (Some []))
       | Errored e => Some (elapsed response, Rejected e)
       | Stalled => None
       end, mkConsumer sid (Some []) fs).
Proof.
  intros Hnr. unfold queryPromise.
  destruct (for_await_no_result (events response) (mkConsumer None (Some []) fs) Hnr)
    as [sid ->].
  exists sid. simpl. by destruct (ending response).
Qed.

Lemma for_await_memory ms : forall st memoryContent,
  files st !! ".agent/memory.md"%string = Some (File memoryContent) ->
  files (for_await st ms).2 !! ".agent/memory.md"%string
  = Some (File (memoryContent ++ breadcrumbs (sessionId st) ms)).
Proof.
  induction ms as [|m ms IH]; intros st c Hc; simpl.
  - by rewrite app_nil_r.
  - destruct m as [sid| | |r|]; simpl; try by apply IH.
    destruct (truthy (sessionId st)) eqn:Hsid.
    + unfold appendFileSync. simpl resolve. rewrite Hc. simpl.
      rewrite (IH _ (c ++ breadcrumb (sessionId st))).
      * simpl. by rewrite <- app_assoc.
      * simpl. apply lookup_insert_eq.
    + simpl. by rewrite (IH (mkConsumer (sessionId st) r (files st)) c).
Qed.

Lemma queryPromise_consumer fs response :
  (queryPromise fs response).2
  = (for_await (mkConsumer None (Some []) fs) (events response)).2.
Proof.
  unfold queryPromise.
  destruct (for_await _ _) as [[[]|e] st]; simpl; [ | done].
  by destruct (ending response).
Qed.

Lemma breadcrumbs_quiet pre rest sid :
  Forall quiet pre -> breadcrumbs sid (pre ++ rest) = breadcrumbs sid rest.
Proof.
  induction 1 as [|m pre [Hr Hs] Hpre IH]; [done | ].
  destruct m; simpl in *; done.
Qed.

Lemma breadcrumbs_no_result ms sid :
  existsb is_result ms = false -> breadcrumbs sid ms = [].
Proof.
  revert sid. induction ms as [|m ms IH]; intros sid; simpl; [done | ].
  intros [Hm Hms]%orb_false_iff. destruct m; simpl in *; try discriminate; by apply IH.
Qed.

(** *** The guarded call *)

Section RunTaskFacts.

Variable Repo : Type.
Variable execSync : jsstring -> Repo -> completion jsstring * Repo.
Variable logToFile : jsstring -> jsstring -> Repo -> Repo.
Variable error_details : Error -> jsstring.
Variable ties : bool.

(** What [runTask] does once its three files are read. *)
Lemma runTask_readable w response promptContent memoryContent planningContent :
  readFileSync (disk Repo w) ".agent/prompt.md" = Normal promptContent ->
  readFileSync (disk Repo w) ".agent/memory.md" = Normal memoryContent ->
  readFileSync (disk Repo w) ".agent/planning.md" = Normal planningContent ->
  runTask Repo execSync logToFile error_details ties w response
  = let query := queryPromise (disk Repo w) response in
    let timeoutMs := getTimeout (LOOP_TIMEOUT_MS Repo w) in
    match earlier ties query.1
            (Some (timer_delay timeoutMs, Rejected (timeout_error timeoutMs))) with
    | Some (_, Fulfilled result) =>
        let commit :=
          Commit.autoCommitChanges Repo execSync logToFile error_details
            (Some (default (js "task") (first_task planningContent)))
            (sessionId query.2) (clock Repo w) (git Repo w) in
        Some (Normal result,
              mkWorld Repo (files query.2) (LOOP_TIMEOUT_MS Repo w) (clock Repo w) commit.2)
    | Some (_, Rejected error) =>
        Some (Throw error,
              mkWorld Repo (files query.2) (LOOP_TIMEOUT_MS Repo w) (clock Repo w)
                (git Repo w))
    | None => None
    end.
Proof.
  intros Hp Hm Hpl. unfold runTask. rewrite Hp, Hm, Hpl.
  destruct (queryPromise (disk Repo w) response) as [query st]. simpl.
  unfold await, fate. simpl.
  destruct (earlier ties query _) as [[t [v|e]]|]; [ | done | done].
  by destruct (Commit.autoCommitChanges _ _ _ _ _ _).
Qed.

(** The call always returns: the timer settles the race at the latest. *)
Lemma runTask_returns w response :
  exists outcome w', runTask Repo execSync logToFile error_details ties w response = Some (outcome, w').
Proof.
  destruct (readFileSync (disk Repo w) ".agent/prompt.md") as [p|e] eqn:Hp;
    [ | unfold runTask; rewrite Hp; eauto].
  destruct (readFileSync (disk Repo w) ".agent/memory.md") as [m|e] eqn:Hm;
    [ | unfold runTask; rewrite Hp, Hm; eauto].
  destruct (readFileSync (disk Repo w) ".agent/planning.md") as [pl|e] eqn:Hpl;
    [ | unfold runTask; rewrite Hp, Hm, Hpl; eauto].
  rewrite (runTask_readable w response p m pl Hp Hm Hpl). cbv zeta.
  destruct (queryPromise (disk Repo w) response).1 as [[t o]|]; simpl.
  - destruct (_ <? _)%Z; [ | destruct (_ <? _)%Z; [ | destruct ties]];
      try destruct o; eauto.
  - eauto.
Qed.

End RunTaskFacts.

Example runTask_example_completed :
  exists w',
    runTask _ Commit.toy_git Commit.ignored_log Commit.no_details true example_world completed_response
    = Some (Normal (Some (js "Done.")), w') /\
    disk _ w' !! ".agent/memory.md"%string
    = Some (File (js "# MEMORY" ++ [10] ++ js "<!-- Last session: sess-0001 -->" ++ [10])).
Proof. eexists. split; vm_compute; reflexivity. Qed.

(** C5, as worded, fails: a stream that is exhausted without a terminal
    result lets the call return, with the empty result. *)
Lemma runTask_returns_without_result :
  ~ fails_without_result Commit.toy_git Commit.ignored_log Commit.no_details true example_world example_response.
Proof.
  intros H. destruct H as (error & w' & Hrun); [reflexivity | discriminate | ].
  vm_compute in Hrun. discriminate.
Qed.

(** C5, amended: when the stream throws without a terminal result, the
    call fails, and with the error of the stream when that error comes
    before the timer fires; when the stream is exhausted without a
    terminal result before the timer fires, the call returns the empty
    result and is a success. *)
Theorem runTask_without_result (Repo : Type)
    (execSync : jsstring -> Repo -> completion jsstring * Repo)
    (logToFile : jsstring -> jsstring -> Repo -> Repo) (error_details : Error -> jsstring) (ties : bool)
    (w : world Repo) (response : agent_response) :
  existsb is_result (events response) = false ->
  (forall e, ending response = Errored e ->
     exists error w',
       runTask Repo execSync logToFile error_details ties w response = Some (Throw error, w') /\
       (context_readable Repo w ->
        (elapsed response < timer_delay (getTimeout (LOOP_TIMEOUT_MS Repo w)))%Z ->
        error = e)) /\
  (ending response = Exhausted ->
   context_readable Repo w ->
   (elapsed response < timer_delay (getTimeout (LOOP_TIMEOUT_MS Repo w)))%Z ->
   exists w',
     runTask Repo execSync logToFile error_details ties w response = Some (Normal (Some []), w') /\
     disk Repo w' = disk Repo w).
Proof.
  intros Hnr.
  destruct (queryPromise_no_result (disk Repo w) response Hnr) as [sid Hq].
  split.
  - intros e He.
    destruct (readFileSync (disk Repo w) ".agent/prompt.md") as [p|e1] eqn:Hp.
    2:{ exists e1, w. unfold runTask, context_readable. rewrite Hp.
        split; [done | ]. intros (? & ? & ? & [=] & _). }
    destruct (readFileSync (disk Repo w) ".agent/memory.md") as [m|e1] eqn:Hm.
    2:{ exists e1, w. unfold runTask, context_readable. rewrite Hp, Hm.
        split; [done | ]. intros (? & ? & ? & _ & [=] & _). }
    destruct (readFileSync (disk Repo w) ".agent/planning.md") as [pl|e1] eqn:Hpl.
    2:{ exists e1, w. unfold runTask, context_readable. rewrite Hp, Hm, Hpl.
        split; [done | ]. intros (? & ? & ? & _ & _ & [=]). }
    rewrite (runTask_readable Repo execSync logToFile error_details ties w response p m pl Hp Hm Hpl).
    cbv zeta. rewrite Hq, He. simpl.
    destruct (Z.ltb_spec (elapsed response)
                (timer_delay (getTimeout (LOOP_TIMEOUT_MS Repo w)))) as [Hlt|Hge].
    + eexists _, _. split; [done | done].
    + destruct (_ <? _)%Z; [ | destruct ties];
        (eexists _, _; split; [done | intros _ ?; lia]).
  - intros He (p & m & pl & Hp & Hm & Hpl) Hlt.
    rewrite (runTask_readable Repo execSync logToFile error_details ties w response p m pl Hp Hm Hpl).
    cbv zeta. rewrite Hq, He. simpl.
    destruct (Z.ltb_spec (elapsed response)
                (timer_delay (getTimeout (LOOP_TIMEOUT_MS Repo w)))); [ | lia].
    eexists. split; done.
Qed.

Lemma example_world_readable : context_readable _ example_world.
Proof. eexists _, _, _. repeat split; vm_compute; reflexivity. Defined.

Lemma runTask_without_result_witness :
  (exists error w',
     runTask _ Commit.toy_git Commit.ignored_log Commit.no_details true example_world failing_response
     = Some (Throw error, w') /\
     error = mkError (js "Claude Code process exited with code 1")) /\
  (exists w',
     runTask _ Commit.toy_git Commit.ignored_log Commit.no_details true example_world example_response
     = Some (Normal (Some []), w') /\
     disk _ w' = disk _ example_world).
Proof.
  split.
  - destruct (proj1 (runTask_without_result _ Commit.toy_git Commit.ignored_log Commit.no_details true example_world
                       failing_response eq_refl) _ eq_refl)
      as (error & w' & Hrun & Herr).
    exists error, w'. split; [exact Hrun | ].
    apply Herr; [exact example_world_readable | reflexivity].
  - apply (proj2 (runTask_without_result _ Commit.toy_git Commit.ignored_log Commit.no_details true example_world
                    example_response eq_refl));
      [reflexivity | exact example_world_readable | reflexivity].
Defined.

(** C6, as worded, fails: a session that starts but never reaches the
    terminal result leaves no breadcrumb. *)
Lemma no_breadcrumb_on_session_start :
  ~ breadcrumb_on_session_start (disk _ example_world) example_response.
Proof.
  intros H.
  specialize (H (js "sess-0001") (js "# MEMORY")).
  assert (SystemInit (Some (js "sess-0001")) ∈ events example_response) as Hin
    by (simpl; left).
  specialize (H Hin).
  assert (js "sess-0001" <> []) as Hne by discriminate.
  specialize (H Hne eq_refl).
  vm_compute in H. discriminate.
Qed.

(** C6, amended: the breadcrumb is appended at each terminal result
    received while a non-empty session id is known, and at no other
    message. So an invocation without a terminal result leaves the memory
    store as it was, session or not, and an invocation whose session start
    is followed by one terminal result appends the breadcrumb of that
    session exactly once. *)
Theorem breadcrumb_on_result (fs : gmap string node) (response : agent_response)
    (memoryContent : jsstring) :
  fs !! ".agent/memory.md"%string = Some (File memoryContent) ->
  files (queryPromise fs response).2 !! ".agent/memory.md"%string
  = Some (File (memoryContent ++ breadcrumbs None (events response))) /\
  (existsb is_result (events response) = false ->
   files (queryPromise fs response).2 !! ".agent/memory.md"%string
   = Some (File memoryContent)) /\
  (forall session_id pre mid r post,
     events response = pre ++ SystemInit (Some session_id) :: mid ++ Result r :: post ->
     session_id <> [] ->
     Forall quiet pre -> Forall quiet mid -> Forall quiet post ->
     files (queryPromise fs response).2 !! ".agent/memory.md"%string
     = Some (File (memoryContent ++ breadcrumb (Some session_id)))).
Proof.
  intros Hmem.
  assert (files (queryPromise fs response).2 !! ".agent/memory.md"%string
          = Some (File (memoryContent ++ breadcrumbs None (events response)))) as Hall.
  { rewrite queryPromise_consumer. by apply for_await_memory. }
  split; [exact Hall | ]. split.
  - intros Hnr. by rewrite Hall, breadcrumbs_no_result, app_nil_r.
  - intros sid pre mid r post Hev Hsid Hpre Hmid Hpost.
    rewrite Hall, Hev. do 3 f_equal.
    rewrite breadcrumbs_quiet by done. simpl.
    rewrite breadcrumbs_quiet by done. simpl.
    destruct sid as [|c sid]; [done | ]. simpl truthy. cbv iota.
    rewrite <- (app_nil_r post), breadcrumbs_quiet by done. simpl.
    by rewrite app_nil_r.
Qed.

Lemma breadcrumb_on_result_witness :
  files (queryPromise (disk _ example_world) completed_response).2
    !! ".agent/memory.md"%string
  = Some (File (js "# MEMORY" ++ breadcrumb (Some (js "sess-0001")))) /\
  files (queryPromise (disk _ example_world) example_response).2
    !! ".agent/memory.md"%string
  = Some (File (js "# MEMORY")).
Proof.
  split.
  - apply (proj2 (proj2 (breadcrumb_on_result (disk _ example_world)
                           completed_response (js "# MEMORY") eq_refl))
             (js "sess-0001") []
             [Assistant (Some [TextBlock (js "working"); ToolUse (js "Edit") None]);
              ToolResult (Some (js "Edit")) false]
             (Some (js "Done.")) []).
    + reflexivity.
    + discriminate.
    + constructor.
    + repeat constructor.
    + constructor.
  - apply (proj1 (proj2 (breadcrumb_on_result (disk _ example_world)
                           example_response (js "# MEMORY") eq_refl))).
    reflexivity.
Defined.

End AdapterFacts.

(** ** Facts about the loop controller *)

Module ControllerFacts.
Import Controller.

Section LoopFacts.

Variable World : Type.
Variable hasUnfinishedTasks : World -> bool.
Variable runTask : World -> completion unit * World.

#[local] Abbreviation loop_body := (loop_body World hasUnfinishedTasks runTask).
#[local] Abbreviation while_loop := (while_loop World hasUnfinishedTasks runTask).
#[local] Abbreviation runUntilSuccess :=
  (runUntilSuccess World hasUnfinishedTasks runTask).
#[local] Abbreviation final := (final hasUnfinishedTasks).

Lemma loop_body_spec s :
  head_inv s -> (iteration s <= 50)%nat ->
  match loop_body s with
  | Continue s' => head_inv s' /\ iteration s' = S (iteration s)
  | Exit code s' => final code s'
  end.
Proof.
  intros (Hit & Hcf & Hst & Hmax) Hle. unfold Controller.loop_body.
  destruct (hasUnfinishedTasks (world s)) eqn:Hhas; simpl negb; cbv iota.
  - destruct (runTask (world s)) as [[[]|e] w'].
    + unfold head_inv. simpl. repeat split; lia.
    + unfold maxConsecutiveFailures.
      destruct (Nat.leb_spec 3 (S (consecutiveFailures s))) as [H3|H3].
      * unfold final. simpl. rewrite <- Hcf. repeat split; lia.
      * unfold head_inv. simpl. rewrite <- Hcf. repeat split; lia.
  - unfold final. repeat split; try lia. left. repeat split; try lia. done.
Qed.

Lemma while_loop_spec fuel : forall s,
  head_inv s -> (iteration s <= 51)%nat -> (51 - iteration s < fuel)%nat ->
  exists code s', while_loop fuel s = Some (code, s') /\ final code s'.
Proof.
  induction fuel as [|fuel IH]; intros s Hinv Hle Hfuel; [lia | ].
  simpl. unfold maxIterations.
  destruct (Nat.leb_spec (iteration s) 50) as [H50|H50].
  - pose proof (loop_body_spec s Hinv H50) as Hbody.
    destruct (loop_body s) as [s'|code s'].
    + destruct Hbody as [Hinv' Hit']. apply IH; [done | lia | lia].
    + eauto.
  - exists 2%Z, s. split; [done | ].
    destruct Hinv as (Hit & Hcf & Hst & Hmax).
    unfold final. repeat split; lia.
Qed.

Lemma head_inv_initial (w : World) : head_inv (mkLoop 1 0 w []).
Proof. unfold head_inv. simpl. repeat split; lia. Qed.

(** The controller always exits, and in a final state. *)
Lemma runUntilSuccess_spec k w :
  exists code s, runUntilSuccess (51 + k) w = Some (code, s) /\ final code s.
Proof.
  unfold Controller.runUntilSuccess.
  destruct (hasUnfinishedTasks w) eqn:Hhas; simpl negb; cbv iota.
  - apply while_loop_spec; [apply head_inv_initial | simpl; lia | simpl; lia].
  - exists 0%Z, (mkLoop 1 0 w []). split; [done | ].
    unfold final. simpl. repeat split; try lia. left. repeat split; try lia. done.
Qed.

(** *** Runs in which every invocation returns and checks one entry off *)

Section AlwaysSucceeds.

Variable count : World -> nat.
Hypothesis has_count : forall w, hasUnfinishedTasks w = (0 <? count w)%nat.
Hypothesis run_ok : forall w, (0 < count w)%nat ->
  exists w', runTask w = (Normal (), w') /\ count w' = (count w - 1)%nat.

Lemma while_loop_succeeding fuel : forall s,
  (1 <= iteration s <= 51)%nat -> (51 - iteration s < fuel)%nat ->
  exists s',
    while_loop fuel s
    = Some (if (count (world s) + iteration s <=? 50)%nat then 0%Z else 2%Z, s') /\
    length (invocations s')
    = (length (invocations s) + Nat.min (count (world s)) (51 - iteration s))%nat /\
    count (world s') = (count (world s) - (51 - iteration s))%nat.
Proof.
  induction fuel as [|fuel IH]; intros s Hit Hfuel; [lia | ].
  simpl. unfold maxIterations.
  destruct (Nat.leb_spec (iteration s) 50) as [H50|H50].
  - unfold Controller.loop_body. rewrite has_count.
    destruct (Nat.ltb_spec 0 (count (world s))) as [Hpos|Hzero]; simpl negb; cbv iota.
    + destruct (run_ok (world s) Hpos) as (w' & -> & Hcount).
      destruct (IH (mkLoop (S (iteration s)) 0 w' (true :: invocations s)))
        as (s' & Hrun & Hlen & Hleft); [simpl; lia | simpl; lia | ].
      exists s'. simpl in *. rewrite Hrun, Hlen, Hleft, Hcount.
      split; [ | split; lia].
      do 2 f_equal.
      destruct (Nat.leb_spec (count (world s) - 1 + S (iteration s)) 50),
               (Nat.leb_spec (count (world s) + iteration s) 50); done || lia.
    + exists s. replace (count (world s)) with 0%nat by lia. simpl.
      destruct (Nat.leb_spec (iteration s) 50); [ | lia].
      split; [done | split; lia].
  - exists s. replace (51 - iteration s)%nat with 0%nat by lia.
    destruct (Nat.leb_spec (count (world s) + iteration s) 50); [lia | ].
    split; [done | split; lia].
Qed.

Lemma runUntilSuccess_succeeding k w :
  exists s,
    runUntilSuccess (51 + k) w
    = Some (if (count w <? 50)%nat then 0%Z else 2%Z, s) /\
    length (invocations s) = Nat.min (count w) 50 /\
    count (world s) = (count w - 50)%nat.
Proof.
  unfold Controller.runUntilSuccess. rewrite has_count.
  destruct (Nat.ltb_spec 0 (count w)) as [Hpos|Hzero]; simpl negb; cbv iota.
  - destruct (while_loop_succeeding (51 + k) (mkLoop 1 0 w []))
      as (s & Hrun & Hlen & Hleft); [simpl; lia | simpl; lia | ].
    exists s. simpl in *. rewrite Hrun. split; [ | split; lia].
    do 2 f_equal.
    destruct (Nat.leb_spec (count w + 1) 50), (Nat.ltb_spec (count w) 50); done || lia.
  - exists (mkLoop 1 0 w []). simpl.
    destruct (Nat.ltb_spec (count w) 50); [ | lia].
    split; [done | split; lia].
Qed.

End AlwaysSucceeds.

End LoopFacts.

(** *** The task store as the world *)

Section StoreFacts.
Import TaskStore TaskStoreFacts.

Lemma tick_spec indent rest :
  Forall (fun c => is_space_or_tab c = true) indent ->
  tick (indent ++ marker ++ rest) = indent ++ js "- [x]" ++ rest.
Proof.
  induction 1 as [|c indent Hc Hi IH]; simpl.
  - reflexivity.
  - rewrite Hc. by f_equal.
Qed.

Lemma match_body_ticked indent rest :
  Forall (fun c => is_space_or_tab c = true) indent ->
  match_body (indent ++ js "- [x]" ++ rest) = None.
Proof.
  intros Hi. destruct (match_body _) as [m|] eqn:Hm; [ | done]. exfalso.
  apply match_body_Some in Hm as (i' & r' & -> & Heq & Hi').
  revert i' Heq Hi'. induction Hi as [|c indent Hc Hi IH]; intros i' Heq Hi'.
  - destruct i' as [|d i']; [discriminate | ].
    inversion Hi'; subst. injection Heq as <- _. discriminate.
  - destruct i' as [|d i'].
    + injection Heq as -> _. discriminate.
    + injection Heq as <- Heq. inversion Hi'; subst. by eapply IH.
Qed.

Lemma split_lines_tick s m l ls :
  match_body s = Some m -> split_lines s = l :: ls ->
  split_lines (tick s) = tick l :: ls /\ match_body (tick l) = None.
Proof.
  intros Hm Hs.
  pose proof (match_body_first_line s l ls Hs) as Hl. rewrite Hm in Hl.
  symmetry in Hl.
  apply match_body_Some in Hm as (i & r & -> & -> & Hi).
  apply match_body_Some in Hl as (i' & r' & Hm' & -> & Hi').
  assert (Forall (fun c => is_line_terminator c = false) (i ++ marker)) as Hnt.
  { apply Forall_app. split; [ | apply marker_no_terminator].
    eapply Forall_impl; [exact Hi | ]. apply space_or_tab_not_terminator. }
  rewrite split_lines_app in Hs by done.
  destruct (split_lines r) as [|l0 ls0] eqn:Hr; injection Hs as Hl0 <-.
  - destruct (split_lines_first r) as (? & ? & Hr' & _). congruence.
  - assert (r' = l0) as -> by (by apply app_inv_head in Hl0).
    rewrite <- !app_assoc, !tick_spec by done.
    split; [ | by apply match_body_ticked].
    rewrite app_assoc, split_lines_app, Hr, <- app_assoc; [done | ].
    apply Forall_app. split; [ | repeat constructor].
    eapply Forall_impl; [exact Hi | ]. apply space_or_tab_not_terminator.
Qed.

Lemma split_lines_check_off s : forall bol,
  split_lines (check_off bol s)
  = if bol then check_lines (split_lines s)
    else match split_lines s with
         | l :: ls => l :: check_lines ls
         | [] => []
         end.
Proof.
  induction s as [|c s IH]; intros bol.
  - by destruct bol.
  - destruct (split_lines_first s) as (l0 & ls0 & Hs & _).
    assert (split_lines (c :: check_off (is_line_terminator c) s)
            = match split_lines (c :: s) with
              | l :: ls => l :: check_lines ls
              | [] => []
              end) as Hskip.
    { simpl. destruct (is_line_terminator c) eqn:Hc.
      - by rewrite (IH true).
      - by rewrite (IH false), Hs. }
    cbn [check_off]. destruct bol; [ | exact Hskip].
    destruct (match_body (c :: s)) as [m|] eqn:Hm.
    + destruct (split_lines_first (c :: s)) as (l & ls & Hcs & _).
      destruct (split_lines_tick (c :: s) m l ls Hm Hcs) as [-> _].
      rewrite Hcs. cbn [check_lines].
      by rewrite <- (match_body_first_line (c :: s) l ls Hcs), Hm.
    + rewrite Hskip.
      destruct (split_lines_first (c :: s)) as (l & ls & Hcs & _).
      rewrite Hcs. cbn [check_lines].
      by rewrite <- (match_body_first_line (c :: s) l ls Hcs), Hm.
Qed.

Lemma check_lines_count ls :
  length (omap match_body (check_lines ls))
  = (length (omap match_body ls) - 1)%nat.
Proof.
  induction ls as [|l ls IH]; [done | ].
  cbn [check_lines]. destruct (match_body l) as [m|] eqn:Hm.
  - cbn [omap list_omap]. rewrite Hm.
    apply match_body_Some in Hm as (i & r & -> & -> & Hi).
    rewrite <- app_assoc, tick_spec, match_body_ticked by done.
    simpl. lia.
  - cbn [omap list_omap]. by rewrite Hm.
Qed.

(** Checking the first unchecked entry off leaves one entry fewer. *)
Lemma check_off_count content :
  unchecked_count (check_off true content) = (unchecked_count content - 1)%nat.
Proof.
  rewrite !unchecked_count_lines, split_lines_check_off. apply check_lines_count.
Qed.

Lemma store_has_count content :
  store_has content = (0 <? unchecked_count content)%nat.
Proof.
  unfold store_has, hasUnfinishedTasks, existsSync, readFileSync. simpl resolve.
  rewrite lookup_singleton_eq. simpl.
  change (mbind _ (Normal content)) with
    (match match_unchecked content with
     | Some ms => if (0 <? length ms)%nat then Normal true else Normal false
     | None => Normal false
     end).
  rewrite check_content. unfold unchecked_count.
  by destruct (scan true 0 content).
Qed.

Lemma store_run_ok content :
  (0 < unchecked_count content)%nat ->
  exists content',
    store_run content = (Normal (), content') /\
    unchecked_count content' = (unchecked_count content - 1)%nat.
Proof. intros _. eexists. split; [reflexivity | apply check_off_count]. Qed.

(** On the task store itself: fewer than 50 unchecked entries are worked
    off one per iteration, and the controller exits with code 0. *)
Lemma task_store_worked_off content k :
  (unchecked_count content < 50)%nat ->
  exists s,
    runUntilSuccess _ store_has store_run (51 + k) content = Some (0%Z, s) /\
    length (invocations s) = unchecked_count content /\
    unchecked_count (world s) = 0%nat.
Proof.
  intros Hn.
  destruct (runUntilSuccess_succeeding _ store_has store_run unchecked_count
              store_has_count store_run_ok k content) as (s & Hs & Hlen & Hleft).
  exists s. rewrite Hs, Hlen, Hleft.
  destruct (Nat.ltb_spec (unchecked_count content) 50); [ | lia].
  split; [done | split; lia].
Qed.

End StoreFacts.

(** *** Examples *)

Example scripted_recovers :
  runUntilSuccess _ scripted_has scripted_run 51 [false; false; true; false; false]
  = Some (0%Z, mkLoop 6 2 [] [false; false; true; false; false]).
Proof. vm_compute. reflexivity. Qed.

Example scripted_aborts :
  runUntilSuccess _ scripted_has scripted_run 51 [true; false; false; false; true]
  = Some (1%Z, mkLoop 4 3 [true] [false; false; false; true]).
Proof. vm_compute. reflexivity. Qed.

Example store_two_tasks :
  let plan := js "# Plan" ++ [10] ++ js "- [x] Set up" ++ [10]
              ++ js "- [ ] Add login" ++ [10] ++ js "  - [ ] Add logout" ++ [10] in
  runUntilSuccess _ store_has store_run 51 plan
  = Some (0%Z,
          mkLoop 3 0
            (js "# Plan" ++ [10] ++ js "- [x] Set up" ++ [10]
             ++ js "- [x] Add login" ++ [10] ++ js "  - [x] Add logout" ++ [10])
            [true; true]).
Proof. vm_compute. reflexivity. Qed.

(** With exactly 50 entries every entry is checked off, and the loop then
    leaves through the iteration ceiling. *)
Lemma fifty_tasks_exit_2 (World : Type) (has : World -> bool)
    (run : World -> completion unit * World) (count : World -> nat) (k : nat) (w : World) :
  (forall w, has w = (0 <? count w)%nat) ->
  (forall w, (0 < count w)%nat ->
     exists w', run w = (Normal (), w') /\ count w' = (count w - 1)%nat) ->
  count w = 50%nat ->
  exists s, runUntilSuccess World has run (51 + k) w = Some (2%Z, s) /\
            length (invocations s) = 50%nat /\ count (world s) = 0%nat.
Proof.
  intros Hhas Hrun Hn.
  destruct (runUntilSuccess_succeeding World has run count Hhas Hrun k w)
    as (s & Hs & Hlen & Hleft).
  exists s. rewrite Hs, Hlen, Hleft, Hn. done.
Qed.

(** C1: a returning invocation resets the counter of consecutive failures
    to 0 and a throwing one increments it, exiting with code 1 as soon as
    it reaches 3. The controller always exits; at the exit the counter is
    the number of failures in a row at the recent end of the history, no
    history holds 4 failures in a row, the exit code is 1 exactly when the
    last 3 invocations failed, and the history failure, failure, success,
    failure, failure is not an abort. *)
Theorem consecutive_failures (World : Type) (has : World -> bool)
    (run : World -> completion unit * World) (k : nat) (w : World) :
  (forall s, has (world s) = true ->
     loop_body World has run s
     = match run (world s) with
       | (Normal _, w') => Continue (mkLoop (S (iteration s)) 0 w' (true :: invocations s))
       | (Throw _, w') =>
           if (3 <=? S (consecutiveFailures s))%nat
           then Exit 1 (mkLoop (iteration s) (S (consecutiveFailures s)) w'
                          (false :: invocations s))
           else Continue (mkLoop (S (iteration s)) (S (consecutiveFailures s)) w'
                            (false :: invocations s))
       end) /\
  exists code s,
    runUntilSuccess World has run (51 + k) w = Some (code, s) /\
    consecutiveFailures s = streak (invocations s) /\
    (max_streak (invocations s) <= 3)%nat /\
    (code = 1%Z <-> streak (invocations s) = 3%nat) /\
    (invocations s = [false; false; true; false; false] -> code <> 1%Z).
Proof.
  split.
  - intros s Hhas. unfold loop_body. rewrite Hhas. simpl negb. cbv iota.
    by destruct (run (world s)) as [[[]|e] w'].
  - destruct (runUntilSuccess_spec World has run k w)
      as (code & s & Hrun & Hcf & Hmax & Hlen & Hcode).
    exists code, s. split; [exact Hrun | ]. split; [exact Hcf | ].
    split; [exact Hmax | ]. split.
    + destruct Hcode as [(-> & ? & _) | [(-> & ? & _) | (-> & ? & _)]];
        split; intros; lia || done.
    + intros Hh. rewrite Hh in Hcode. simpl in Hcode.
      destruct Hcode as [(-> & _) | [(_ & ? & _) | (-> & _)]]; lia || done.
Qed.

Lemma consecutive_failures_witness :
  loop_body _ scripted_has scripted_run (mkLoop 2 1 [false; true] [false])
  = Continue (mkLoop 3 2 [true] [false; false]) /\
  exists code s,
    runUntilSuccess _ scripted_has scripted_run 51 [false; false; true; false; false]
    = Some (code, s) /\
    invocations s = [false; false; true; false; false] /\ code <> 1%Z.
Proof.
  destruct (consecutive_failures _ scripted_has scripted_run 0
              [false; false; true; false; false]) as [Hstep Hrun].
  split.
  - apply (Hstep (mkLoop 2 1 [false; true] [false])). reflexivity.
  - destruct Hrun as (code & s & Hrun & _ & _ & _ & Hseq).
    exists code, s. split; [exact Hrun | ].
    assert (invocations s = [false; false; true; false; false]) as Hh.
    { vm_compute in Hrun. by injection Hrun as _ <-. }
    split; [exact Hh | exact (Hseq Hh)].
Defined.

(** C2, as worded, fails: with 51 unchecked entries and invocations that
    always succeed the controller does not exit with code 0 after 51
    iterations. *)
Lemma fifty_one_tasks_not_completed :
  ~ completes_all counting_has counting_run 51 51%nat 51.
Proof.
  intros (s & Hrun & _). vm_compute in Hrun. discriminate.
Qed.

(** C2, amended: when every invocation returns and checks exactly one
    entry off, a store with fewer than 50 unchecked entries is worked off
    in exactly as many iterations and the controller exits with code 0,
    with no iteration at all for an empty store; a store with more than 50
    unchecked entries gets exactly 50 iterations and exit code 2. *)
Theorem always_succeeding_run (World : Type) (has : World -> bool)
    (run : World -> completion unit * World) (count : World -> nat) (k : nat) (w : World) :
  (forall w, has w = (0 <? count w)%nat) ->
  (forall w, (0 < count w)%nat ->
     exists w', run w = (Normal (), w') /\ count w' = (count w - 1)%nat) ->
  ((count w < 50)%nat ->
     exists s, runUntilSuccess World has run (51 + k) w = Some (0%Z, s) /\
               length (invocations s) = count w /\ count (world s) = 0%nat) /\
  (count w = 0%nat ->
     runUntilSuccess World has run (51 + k) w = Some (0%Z, mkLoop 1 0 w [])) /\
  ((50 < count w)%nat ->
     exists s, runUntilSuccess World has run (51 + k) w = Some (2%Z, s) /\
               length (invocations s) = 50%nat /\
               count (world s) = (count w - 50)%nat).
Proof.
  intros Hhas Hrun.
  destruct (runUntilSuccess_succeeding World has run count Hhas Hrun k w)
    as (s & Hs & Hlen & Hleft).
  split; [ | split].
  - intros Hn. exists s. rewrite Hs, Hlen, Hleft.
    destruct (Nat.ltb_spec (count w) 50); [ | lia].
    split; [done | split; lia].
  - intros Hn. unfold runUntilSuccess. by rewrite Hhas, Hn.
  - intros Hn. exists s. rewrite Hs, Hlen, Hleft.
    destruct (Nat.ltb_spec (count w) 50); [lia | ].
    split; [done | split; lia].
Qed.

Lemma counting_run_ok (n : nat) :
  (0 < n)%nat -> exists n', counting_run n = (Normal (), n') /\ n' = (n - 1)%nat.
Proof. intros _. exists (pred n). split; [reflexivity | lia]. Defined.

Lemma always_succeeding_run_witness :
  (exists s, runUntilSuccess _ counting_has counting_run 51 3%nat = Some (0%Z, s) /\
             length (invocations s) = 3%nat /\ world s = 0%nat) /\
  runUntilSuccess _ counting_has counting_run 51 0%nat = Some (0%Z, mkLoop 1 0 0%nat []) /\
  (exists s, runUntilSuccess _ counting_has counting_run 51 60%nat = Some (2%Z, s) /\
             length (invocations s) = 50%nat /\ world s = 10%nat).
Proof.
  split; [ | split].
  - apply (proj1 (always_succeeding_run nat counting_has counting_run (fun n => n) 0 3%nat
                    (fun n => eq_refl) counting_run_ok)).
    simpl. lia.
  - apply (proj1 (proj2 (always_succeeding_run nat counting_has counting_run
                           (fun n => n) 0 0%nat (fun n => eq_refl) counting_run_ok))).
    reflexivity.
  - apply (proj2 (proj2 (always_succeeding_run nat counting_has counting_run
                           (fun n => n) 0 60%nat (fun n => eq_refl) counting_run_ok))).
    simpl. lia.
Defined.

(** C3: the controller never starts a 51st iteration; a run that makes 50
    iterations and is not aborted by the 50th exits with code 2, and exit
    code 2 is reached in no other way. *)
Theorem iteration_ceiling (World : Type) (has : World -> bool)
    (run : World -> completion unit * World) (k : nat) (w : World) :
  exists code s,
    runUntilSuccess World has run (51 + k) w = Some (code, s) /\
    (length (invocations s) <= 50)%nat /\
    (length (invocations s) = 50%nat -> code <> 1%Z -> code = 2%Z) /\
    (code = 2%Z -> length (invocations s) = 50%nat /\ iteration s = 51%nat).
Proof.
  destruct (runUntilSuccess_spec World has run k w)
    as (code & s & Hrun & Hcf & Hmax & Hlen & Hcode).
  exists code, s. split; [exact Hrun | ]. split; [exact Hlen | ].
  destruct Hcode as [(-> & ? & ? & _) | [(-> & ? & _) | (-> & ? & ? & ?)]];
    split; intros; lia || done.
Qed.

Lemma iteration_ceiling_witness :
  exists code s,
    runUntilSuccess _ counting_has counting_run 51 60%nat = Some (code, s) /\
    length (invocations s) = 50%nat /\ code = 2%Z.
Proof.
  destruct (iteration_ceiling _ counting_has counting_run 0 60%nat)
    as (code & s & Hrun & _ & Hfifty & _).
  exists code, s. split; [exact Hrun | ].
  assert (length (invocations s) = 50%nat /\ code <> 1%Z) as [Hlen Hcode].
  { vm_compute in Hrun. injection Hrun as <- <-. split; [reflexivity | discriminate]. }
  split; [exact Hlen | exact (Hfifty Hlen Hcode)].
Defined.

End ControllerFacts.

(** ** Further facts about the timeout and the invocation *)

Module AdapterProps.
Import Timeout TimeoutFacts Adapter AdapterFacts Fixtures.

(** *** The timeout override *)

Lemma digits_value_acc (d : Decimal.uint) : forall p : positive,
  digits_value (N.pos p) (js (NilEmpty.string_of_uint d)) = N.pos (Pos.of_uint_acc d p).
Proof.
  induction d; intros p; simpl; try reflexivity;
    rewrite <- IHd; f_equal; lia.
Qed.

Lemma digits_value_of_uint (d : Decimal.uint) :
  digits_value 0 (js (NilEmpty.string_of_uint d)) = Pos.of_uint d.
Proof.
  induction d; simpl; try reflexivity; try (apply (digits_value_acc d)).
  exact IHd.
Qed.

Lemma digits_value_app (d : Decimal.uint) rest : forall acc,
  (forall c, head rest = Some c -> is_digit c = false) ->
  digits_value acc (js (NilEmpty.string_of_uint d) ++ rest)
  = digits_value acc (js (NilEmpty.string_of_uint d)).
Proof.
  intros acc Hrest. revert acc.
  induction d; intros acc; simpl; try apply IHd.
  destruct rest as [|c rest]; [done | ]. simpl. by rewrite (Hrest c).
Qed.

Lemma parseInt10_digits (d : Decimal.uint) rest :
  d <> Decimal.Nil ->
  (forall c, head rest = Some c -> is_digit c = false) ->
  parseInt10 (js (NilEmpty.string_of_uint d) ++ rest)
  = Some (Number.to_double (Pos.of_uint d)).
Proof.
  intros Hd Hrest.
  rewrite <- digits_value_of_uint, <- (digits_value_app d rest 0 Hrest).
  destruct d; [done | reflexivity ..].
Qed.

Lemma parseInt10_decimal (p : positive) rest :
  (forall c, head rest = Some c -> is_digit c = false) ->
  parseInt10 (js (NilZero.string_of_int (Z.to_int (Z.pos p))) ++ rest)
  = Some (Number.to_double (N.pos p)).
Proof.
  intros Hrest. simpl Z.to_int. unfold NilZero.string_of_int, NilZero.string_of_uint.
  pose proof (DecimalPos.Unsigned.to_uint_nonnil p) as Hnil.
  destruct (Pos.to_uint p) eqn:Hd; [done | ..];
    rewrite <- Hd, parseInt10_digits, DecimalPos.Unsigned.of_to by (done || by rewrite Hd);
    reflexivity.
Qed.

(** [LOOP_TIMEOUT_MS] is read as its leading decimal digits: what follows
    the digits, a unit for instance, is ignored, and the timeout is the
    Number nearest to the positive integer that the digits write, which
    below [2 ^ 53] is that integer. *)
Theorem getTimeout_leading_digits (n : Z) (rest : jsstring) :
  (0 < n)%Z ->
  (forall c, head rest = Some c -> is_digit c = false) ->
  getTimeout (Some (js (NilZero.string_of_int (Z.to_int n)) ++ rest))
  = Number.to_double (Z.to_N n) /\
  ((n < 2 ^ 53)%Z -> Number.to_double (Z.to_N n) = n).
Proof.
  intros Hn Hrest. destruct n as [|p|p]; [lia | | lia]. split.
  - pose proof (parseInt10_decimal p rest Hrest) as Hparse.
    pose proof (NumberFacts.to_double_pos (N.pos p) ltac:(lia)) as Hpos.
    change (Z.to_N (Z.pos p)) with (N.pos p).
    destruct (js (NilZero.string_of_int (Z.to_int (Z.pos p))) ++ rest) as [|c s] eqn:Hs.
    { discriminate Hparse. }
    unfold getTimeout. rewrite Hparse.
    by destruct (Z.leb_spec (Number.to_double (N.pos p)) 0); [lia | ].
  - intros Hsmall. change (Z.to_N (Z.pos p)) with (N.pos p).
    rewrite NumberFacts.to_double_small by lia. reflexivity.
Qed.

Lemma getTimeout_leading_digits_witness :
  getTimeout (Some (js (NilZero.string_of_int (Z.to_int 180000)) ++ [])) = 180000%Z /\
  getTimeout (Some (js (NilZero.string_of_int (Z.to_int 5)) ++ js "min")) = 5%Z /\
  getTimeout (Some (js (NilZero.string_of_int (Z.to_int 9007199254740993)) ++ []))
  = 9007199254740992%Z.
Proof.
  split; [ | split].
  - destruct (getTimeout_leading_digits 180000 []) as [-> ->];
      [lia | discriminate | lia | reflexivity].
  - destruct (getTimeout_leading_digits 5 (js "min")) as [-> ->];
      [lia | | lia | reflexivity].
    intros c [= <-]. reflexivity.
  - destruct (getTimeout_leading_digits 9007199254740993 []) as [-> _];
      [lia | discriminate | ]. vm_compute. reflexivity.
Defined.

(** *** The guarded promise *)

(** The guarded promise settles no later than the timer, and either as
    the operation or with the timeout error. *)
Theorem withTimeout_settles_by_deadline {T : Type} (ties : bool)
    (heap : list (Promise T)) (operation : nat) (ms : Z) :
  (operation < length heap)%nat ->
  let guarded := withTimeout ties heap operation ms in
  exists t o,
    fate guarded.1 guarded.2 = Some (t, o) /\
    (t <= timer_delay ms)%Z /\
    (fate heap operation = Some (t, o) \/
     (t = timer_delay ms /\ o = Rejected (timeout_error ms))).
Proof.
  intros Hop guarded. subst guarded. rewrite withTimeout_fate by done.
  destruct (fate heap operation) as [[t o]|]; simpl.
  - destruct (Z.ltb_spec t (timer_delay ms)).
    + exists t, o. split; [done | ]. split; [lia | by left].
    + destruct (Z.ltb_spec (timer_delay ms) t).
      * eexists _, _. split; [done | ]. split; [lia | by right].
      * destruct ties.
        -- exists t, o. split; [done | ]. split; [lia | by left].
        -- eexists _, _. split; [done | ]. split; [lia | by right].
  - eexists _, _. split; [done | ]. split; [lia | by right].
Qed.

Lemma withTimeout_settles_by_deadline_witness :
  let heap : list (Promise nat) := [Some (700000%Z, Fulfilled 7%nat); None] in
  exists t o,
    fate (withTimeout false heap 1 600000).1 (withTimeout false heap 1 600000).2
    = Some (t, o) /\ (t <= 600000)%Z.
Proof.
  intros heap.
  assert (1 < length heap)%nat as H1 by (simpl; lia).
  destruct (withTimeout_settles_by_deadline false heap 1 600000 H1)
    as (t & o & Hfate & Ht & _).
  exists t, o. split; [exact Hfate | exact Ht].
Defined.

(** *** The invocation and the repository *)

Section RunTaskProps.

Variable Repo : Type.
Variable execSync : jsstring -> Repo -> completion jsstring * Repo.
Variable logToFile : jsstring -> jsstring -> Repo -> Repo.
Variable error_details : Error -> jsstring.
Variable ties : bool.


End RunTaskProps.



(** An invocation whose consumer settles with a value before the timer
    fires is a success whatever [git] does afterwards: the result is
    returned even when every command of the reconciler throws. *)
Theorem runTask_success_despite_commit (Repo : Type)
    (execSync : jsstring -> Repo -> completion jsstring * Repo)
    (logToFile : jsstring -> jsstring -> Repo -> Repo) (error_details : Error -> jsstring) (ties : bool)
    (w : world Repo) (response : agent_response) (t : Z) (result : option jsstring) :
  context_readable Repo w ->
  (queryPromise (disk Repo w) response).1 = Some (t, Fulfilled result) ->
  (t < timer_delay (getTimeout (LOOP_TIMEOUT_MS Repo w)))%Z ->
  exists w',
    runTask Repo execSync logToFile error_details ties w response = Some (Normal result, w') /\
    disk Repo w' = files (queryPromise (disk Repo w) response).2.
Proof.
  intros (p & m & pl & Hp & Hm & Hpl) Hq Ht.
  rewrite (runTask_readable Repo execSync logToFile error_details ties w response p m pl Hp Hm Hpl).
  cbv zeta. rewrite Hq. simpl.
  destruct (Z.ltb_spec t (timer_delay (getTimeout (LOOP_TIMEOUT_MS Repo w)))); [ | lia].
  eexists. split; done.
Qed.

Lemma broken_world_readable : context_readable _ broken_world.
Proof. eexists _, _, _. repeat split; vm_compute; reflexivity. Defined.

Lemma runTask_success_despite_commit_witness :
  exists w',
    runTask _ broken_git Commit.ignored_log Commit.no_details true broken_world completed_response
    = Some (Normal (Some (js "Done.")), w') /\
    disk _ w' = files (queryPromise (disk _ broken_world) completed_response).2.
Proof.
  apply (runTask_success_despite_commit _ broken_git Commit.ignored_log Commit.no_details true broken_world
           completed_response 42000 (Some (js "Done.")) broken_world_readable).
  - vm_compute. reflexivity.
  - vm_compute. reflexivity.
Defined.



End AdapterProps.

(** ** Further facts about the commit reconciler *)

Module CommitProps.
Import Commit CommitFacts Fixtures.

Section ReconcilerProps.

Variable Repo : Type.
Variable execSync : jsstring -> Repo -> completion jsstring * Repo.
Variable logToFile : jsstring -> jsstring -> Repo -> Repo.
Variable error_details : Error -> jsstring.

Lemma exec_issued cmd sh :
  issued Repo (exec Repo execSync cmd sh).2 = issued Repo sh ++ [cmd].
Proof. unfold exec. by destruct (execSync cmd (repo Repo sh)). Qed.

(** The [catch] block issues no command: it reports a success exactly
    for the expected error, and logs. *)
Lemma commit_failed_spec error sh :
  commit_failed Repo logToFile error_details error sh
  = (includes (js "nothing to commit") (message error),
     mkShell Repo
       (if includes (js "nothing to commit") (message error)
        then logToFile (js "Nothing to commit") (js "INFO") (repo Repo sh)
        else logToFile (error_details_entry error_details error) (js "DEBUG")
               (logToFile (auto_commit_failed error) (js "ERROR") (repo Repo sh)))
       (issued Repo sh)).
Proof.
  unfold commit_failed, log.
  by destruct (includes (js "nothing to commit") (message error)).
Qed.

(** One reconciliation from end to end: the command at which it stops,
    the repository that command runs on, and how it ends the call. *)
Lemma autoCommit_run desc sid iso sh :
  exists k r cmd,
    reaches Repo execSync logToFile desc sid iso sh k r /\
    commands desc sid iso !! k = Some cmd /\
    issued Repo (autoCommitChanges Repo execSync logToFile error_details desc sid iso sh).2
    = issued Repo sh ++ take (S k) (commands desc sid iso) /\
    ends_call Repo execSync logToFile error_details desc sid iso k cmd r
      (autoCommitChanges Repo execSync logToFile error_details desc sid iso sh).1
      (repo Repo
         (autoCommitChanges Repo execSync logToFile error_details desc sid iso sh).2).
Proof.
  pose proof (reaches_status Repo execSync logToFile desc sid iso sh) as R0.
  unfold autoCommitChanges, exec.
  destruct (execSync git_status (repo Repo sh)) as [[status|e1] r1] eqn:E1.
  2:{ exists 0%nat, (repo Repo sh), git_status. rewrite commit_failed_spec.
      cbn [repo issued fst snd].
      split; [exact R0 | ]. split; [done | ]. split; [done | ].
      left. by exists e1, r1. }
  destruct (trim status) as [|c status'] eqn:Hs.
  { exists 0%nat, (repo Repo sh), git_status. unfold log. cbn [repo issued fst snd].
    split; [exact R0 | ]. split; [done | ]. split; [done | ].
    right. exists status, r1. split; [done | ]. split; [done | ]. left. auto. }
  assert (trim status <> []) as Hs' by (rewrite Hs; done).
  pose proof (reaches_add Repo execSync logToFile desc sid iso sh _ _ _ R0 E1 Hs') as R1.
  unfold log. cbn [repo issued].
  destruct (execSync git_add _) as [[added|e2] r2] eqn:E2.
  2:{ eexists 1%nat, _, git_add. rewrite commit_failed_spec. cbn [repo issued].
      split; [exact R1 | ]. split; [done | ].
      split; [by rewrite <- app_assoc | ]. left. by exists e2, r2. }
  pose proof (reaches_diff Repo execSync logToFile desc sid iso sh _ _ _ R1 E2) as R2.
  cbn [repo issued].
  destruct (execSync git_diff r2) as [[staged|e3] r3] eqn:E3.
  2:{ eexists 2%nat, _, git_diff. rewrite commit_failed_spec. cbn [repo issued].
      split; [exact R2 | ]. split; [done | ].
      split; [by rewrite <- !app_assoc | ]. left. by exists e3, r3. }
  destruct (trim staged) as [|c' staged'] eqn:Hd.
  { eexists 2%nat, _, git_diff. cbn [repo issued].
    split; [exact R2 | ]. split; [done | ].
    split; [by rewrite <- !app_assoc | ]. right. exists staged, r3. split; [done | ]. split; [done | ]. right. left. auto. }
  assert (trim staged <> []) as Hd' by (rewrite Hd; done).
  pose proof (reaches_commit Repo execSync logToFile desc sid iso sh _ _ _ R2 E3 Hd') as R3.
  cbn [repo issued].
  destruct (execSync (git_commit (commit_message desc sid iso)) r3)
    as [[committed|e4] r4] eqn:E4.
  - eexists 3%nat, _, _. cbn [repo issued].
    split; [exact R3 | ]. split; [done | ].
    split; [by rewrite <- !app_assoc | ]. right. exists committed, r4. split; [done | ]. split; [done | ]. right. right. auto.
  - eexists 3%nat, _, _. rewrite commit_failed_spec. cbn [repo issued].
    split; [exact R3 | ]. split; [done | ].
    split; [by rewrite <- !app_assoc | ]. left. by exists e4, r4.
Qed.

(** The repository a call finds at a command is determined, and the
    commands before it have returned with something left to do. *)
Lemma reaches_fun desc sid iso sh k : forall r r',
  reaches Repo execSync logToFile desc sid iso sh k r ->
  reaches Repo execSync logToFile desc sid iso sh k r' -> r = r'.
Proof.
  assert (forall r r',
            reaches Repo execSync logToFile desc sid iso sh 0 r ->
            reaches Repo execSync logToFile desc sid iso sh 0 r' -> r = r') as F0.
  { intros r r' H H'. inversion H; inversion H'; congruence. }
  assert (forall r r',
            reaches Repo execSync logToFile desc sid iso sh 1 r ->
            reaches Repo execSync logToFile desc sid iso sh 1 r' -> r = r') as F1.
  { intros r r' H H'. inversion H; inversion H'; subst.
    match goal with
    | A : reaches _ _ _ _ _ _ _ 0 ?a, B : reaches _ _ _ _ _ _ _ 0 ?b |- _ =>
        pose proof (F0 _ _ A B); subst
    end. congruence. }
  assert (forall r r',
            reaches Repo execSync logToFile desc sid iso sh 2 r ->
            reaches Repo execSync logToFile desc sid iso sh 2 r' -> r = r') as F2.
  { intros r r' H H'. inversion H; inversion H'; subst.
    match goal with
    | A : reaches _ _ _ _ _ _ _ 1 ?a, B : reaches _ _ _ _ _ _ _ 1 ?b |- _ =>
        pose proof (F1 _ _ A B); subst
    end. congruence. }
  intros r r' H H'.
  destruct k as [|[|[|[|k]]]]; [by apply F0 | by apply F1 | by apply F2 | | inversion H].
  inversion H; inversion H'; subst.
  match goal with
  | A : reaches _ _ _ _ _ _ _ 2 ?a, B : reaches _ _ _ _ _ _ _ 2 ?b |- _ =>
      pose proof (F2 _ _ A B); subst
  end. congruence.
Qed.

Lemma reaches_before desc sid iso sh k r j cmd :
  reaches Repo execSync logToFile desc sid iso sh k r ->
  (j < k)%nat -> commands desc sid iso !! j = Some cmd ->
  exists rj out rj',
    reaches Repo execSync logToFile desc sid iso sh j rj /\
    execSync cmd rj = (Normal out, rj') /\
    ((j = 0%nat \/ j = 2%nat) -> trim out <> []).
Proof.
  intros H. revert j cmd.
  induction H as [ | r status r1 H0 IH E Hs | r added r2 H1 IH E
                 | r staged r3 H2 IH E Hs ]; intros j cmd Hj Hcmd.
  - lia.
  - assert (j = 0%nat) as -> by lia. injection Hcmd as <-.
    exists r, status, r1. auto.
  - destruct (decide (j = 1%nat)) as [-> | Hne].
    + injection Hcmd as <-. exists r, added, r2.
      split; [exact H1 | ]. split; [exact E | ]. intros [?|?]; lia.
    + apply IH; [lia | done].
  - destruct (decide (j = 2%nat)) as [-> | Hne].
    + injection Hcmd as <-. exists r, staged, r3. auto.
    + apply IH; [lia | done].
Qed.

Lemma reaches_bound desc sid iso sh k r :
  reaches Repo execSync logToFile desc sid iso sh k r -> (k < 4)%nat.
Proof. destruct 1; lia. Qed.

(** A command that the call reaches and that throws ends the call. *)
Lemma autoCommit_throws desc sid iso sh k r cmd error r' :
  reaches Repo execSync logToFile desc sid iso sh k r ->
  commands desc sid iso !! k = Some cmd ->
  execSync cmd r = (Throw error, r') ->
  (autoCommitChanges Repo execSync logToFile error_details desc sid iso sh).1
  = includes (js "nothing to commit") (message error).
Proof.
  intros Hk Hcmd Hthrow.
  destruct (autoCommit_run desc sid iso sh) as (k0 & r0 & cmd0 & Hk0 & Hcmd0 & _ & Hend).
  destruct (lt_eq_lt_dec k k0) as [[Hlt | ->] | Hgt].
  - destruct (reaches_before _ _ _ _ _ _ _ _ Hk0 Hlt Hcmd) as (rj & out & rj' & Hj & Hex & _).
    rewrite (reaches_fun _ _ _ _ _ _ _ Hk Hj) in Hthrow. congruence.
  - rewrite Hcmd in Hcmd0. injection Hcmd0 as <-.
    rewrite (reaches_fun _ _ _ _ _ _ _ Hk0 Hk) in Hend.
    destruct Hend as [(e & ? & Hex & Hok & _) | (out & ? & Hex & _)]; [ | congruence].
    rewrite Hthrow in Hex. by injection Hex as <- <-.
  - destruct (reaches_before _ _ _ _ _ _ _ _ Hk Hgt Hcmd0)
      as (rj & out & rj' & Hj & Hex & Hsome).
    rewrite (reaches_fun _ _ _ _ _ _ _ Hj Hk0) in Hex.
    pose proof (reaches_bound _ _ _ _ _ _ Hk) as Hb.
    destruct Hend as [(e & ? & Hex' & _) | (out' & ? & Hex' & _ & Hstop)]; [congruence | ].
    rewrite Hex in Hex'. injection Hex' as <- <-.
    destruct Hstop as [(-> & Hblank & _) | [(-> & Hblank & _) | (-> & _)]];
      [exfalso; apply Hsome; auto | exfalso; apply Hsome; auto | lia].
Qed.

End ReconcilerProps.

(** The reconciler issues its commands in one fixed order, status, add,
    staged diff, commit: every command before the last one issued has
    returned with something left to do, and the last one issued is the
    first that throws, a status query or a staged diff that prints
    nothing, or the commit. No command follows it: the status query for
    the operator in the [catch] block is never run. *)
Theorem autoCommitChanges_command_order (Repo : Type)
    (execSync : jsstring -> Repo -> completion jsstring * Repo)
    (logToFile : jsstring -> jsstring -> Repo -> Repo) (error_details : Error -> jsstring)
    (desc sid : option jsstring) (iso : jsstring) (sh : shell Repo) :
  let call := autoCommitChanges Repo execSync logToFile error_details desc sid iso sh in
  exists k r cmd,
    reaches Repo execSync logToFile desc sid iso sh k r /\
    commands desc sid iso !! k = Some cmd /\
    issued Repo call.2 = issued Repo sh ++ take (S k) (commands desc sid iso) /\
    ends_call Repo execSync logToFile error_details desc sid iso k cmd r
      call.1 (repo Repo call.2) /\
    git_status_short ∉ take (S k) (commands desc sid iso).
Proof.
  intros call. subst call.
  destruct (autoCommit_run Repo execSync logToFile error_details desc sid iso sh)
    as (k & r & cmd & Hk & Hcmd & Hi & Hend).
  exists k, r, cmd. repeat (split; [done | ]).
  intros Hin. apply elem_of_take in Hin as (i & Hi' & _).
  destruct i as [|[|[|[|i]]]]; simpl in Hi'; try discriminate.
Qed.

Lemma autoCommitChanges_command_order_witness :
  exists k r cmd,
    reaches _ toy_git ignored_log (Some (js "Add login")) None
      (js "2025-01-01T10:20:30.000Z") (mkShell _ (Transient, 0%nat) []) k r /\
    commands (Some (js "Add login")) None (js "2025-01-01T10:20:30.000Z") !! k = Some cmd /\
    issued _ (autoCommitChanges _ toy_git ignored_log no_details (Some (js "Add login")) None
                (js "2025-01-01T10:20:30.000Z") (mkShell _ (Transient, 0%nat) [])).2
    = [] ++ take (S k) (commands (Some (js "Add login")) None (js "2025-01-01T10:20:30.000Z")) /\
    ends_call _ toy_git ignored_log no_details (Some (js "Add login")) None
      (js "2025-01-01T10:20:30.000Z") k cmd r
      (autoCommitChanges _ toy_git ignored_log no_details (Some (js "Add login")) None
         (js "2025-01-01T10:20:30.000Z") (mkShell _ (Transient, 0%nat) [])).1
      (repo _ (autoCommitChanges _ toy_git ignored_log no_details (Some (js "Add login")) None
                 (js "2025-01-01T10:20:30.000Z") (mkShell _ (Transient, 0%nat) [])).2) /\
    git_status_short
      ∉ take (S k) (commands (Some (js "Add login")) None (js "2025-01-01T10:20:30.000Z")).
Proof.
  exact (autoCommitChanges_command_order _ toy_git ignored_log no_details
           (Some (js "Add login")) None (js "2025-01-01T10:20:30.000Z")
           (mkShell _ (Transient, 0%nat) [])).
Defined.

Lemma commits_of_commands (k : nat) desc sid iso :
  (k < 4)%nat ->
  filter (fun cmd => startsWith (js "git commit") cmd = true)
    (take (S k) (commands desc sid iso))
  = if (k =? 3)%nat then [git_commit (commit_message desc sid iso)] else [].
Proof.
  intros Hk.
  assert (startsWith (js "git commit") (git_commit (commit_message desc sid iso)) = true)
    as Hc by reflexivity.
  destruct k as [|[|[|[|k]]]]; try lia; unfold commands; cbn [take app Nat.eqb];
    repeat (first [ rewrite filter_cons_True by (exact Hc || reflexivity)
                  | rewrite filter_cons_False by (intros ?; discriminate) ]);
    rewrite ?filter_nil; reflexivity.
Qed.

(** One reconciliation makes at most one commit, and only with the
    synthesized message. *)
Theorem autoCommitChanges_at_most_one_commit (Repo : Type)
    (execSync : jsstring -> Repo -> completion jsstring * Repo)
    (logToFile : jsstring -> jsstring -> Repo -> Repo) (error_details : Error -> jsstring)
    (desc sid : option jsstring) (iso : jsstring) (sh : shell Repo) :
  let after := (autoCommitChanges Repo execSync logToFile error_details desc sid iso sh).2 in
  commits_issued Repo after = commits_issued Repo sh \/
  commits_issued Repo after
  = commits_issued Repo sh ++ [git_commit (commit_message desc sid iso)].
Proof.
  intros after. subst after.
  destruct (autoCommit_run Repo execSync logToFile error_details desc sid iso sh)
    as (k & r & cmd & Hk & _ & Hi & _).
  apply reaches_bound in Hk.
  unfold commits_issued. rewrite Hi, filter_app, commits_of_commands by done.
  destruct (k =? 3)%nat; [by right | left; by rewrite app_nil_r].
Qed.

(** The reconciler reports a failure exactly when a [git] command that
    this call has come to run, on the repository as the call has left it
    by then, threw an error whose message does not say
    [nothing to commit]. *)
Theorem autoCommitChanges_false_only_on_error (Repo : Type)
    (execSync : jsstring -> Repo -> completion jsstring * Repo)
    (logToFile : jsstring -> jsstring -> Repo -> Repo) (error_details : Error -> jsstring)
    (desc sid : option jsstring) (iso : jsstring) (sh : shell Repo) :
  (autoCommitChanges Repo execSync logToFile error_details desc sid iso sh).1 = false <->
  exists k r cmd error r',
    reaches Repo execSync logToFile desc sid iso sh k r /\
    commands desc sid iso !! k = Some cmd /\
    execSync cmd r = (Throw error, r') /\
    includes (js "nothing to commit") (message error) = false.
Proof.
  split.
  - intros Hok.
    destruct (autoCommit_run Repo execSync logToFile error_details desc sid iso sh)
      as (k & r & cmd & Hk & Hcmd & _ & Hend).
    destruct Hend as [(e & r' & Hex & Hinc & _) | (out & r' & _ & Htrue & _)];
      [ | congruence].
    exists k, r, cmd, e, r'. repeat split; [done | done | done | congruence].
  - intros (k & r & cmd & e & r' & Hk & Hcmd & Hex & Hinc).
    rewrite <- Hinc. by eapply autoCommit_throws.
Qed.

Lemma autoCommitChanges_false_only_on_error_witness :
  exists k r cmd error r',
    reaches _ broken_git Commit.ignored_log (Some (js "Add login")) None
      (js "2025-01-01T10:20:30.000Z") (mkShell _ tt []) k r /\
    commands (Some (js "Add login")) None (js "2025-01-01T10:20:30.000Z") !! k = Some cmd /\
    broken_git cmd r = (Throw error, r') /\
    includes (js "nothing to commit") (message error) = false.
Proof.
  apply (proj1 (autoCommitChanges_false_only_on_error _ broken_git
                  Commit.ignored_log Commit.no_details
                  (Some (js "Add login")) None (js "2025-01-01T10:20:30.000Z")
                  (mkShell _ tt []))).
  reflexivity.
Defined.

(** With changes in the working tree and every command succeeding, the
    reconciler makes exactly one commit, with the synthesized message,
    after staging and checking the staged diff. *)
Theorem autoCommitChanges_commits (Repo : Type)
    (execSync : jsstring -> Repo -> completion jsstring * Repo)
    (logToFile : jsstring -> jsstring -> Repo -> Repo) (error_details : Error -> jsstring)
    (desc sid : option jsstring) (iso : jsstring) (sh : shell Repo)
    (status added staged committed : jsstring) (r1 r2 r3 r4 : Repo) :
  execSync git_status (repo Repo sh) = (Normal status, r1) -> trim status <> [] ->
  execSync git_add
    (logToFile (commit_attempt desc (sanitize desc) (commit_message desc sid iso))
       (js "DEBUG") r1) = (Normal added, r2) ->
  execSync git_diff r2 = (Normal staged, r3) -> trim staged <> [] ->
  execSync (git_commit (commit_message desc sid iso)) r3 = (Normal committed, r4) ->
  autoCommitChanges Repo execSync logToFile error_details desc sid iso sh
  = (true, mkShell Repo
             (logToFile (auto_committed (commit_message desc sid iso)) (js "SUCCESS") r4)
             (issued Repo sh
              ++ [git_status; git_add; git_diff;
                  git_commit (commit_message desc sid iso)])).
Proof.
  intros H1 Hs H2 H3 Hd H4. unfold autoCommitChanges, exec, log.
  rewrite H1. destruct (trim status); [done | ]. cbn [repo issued].
  rewrite H2. cbn [repo issued]. rewrite H3.
  destruct (trim staged); [done | ]. cbn [repo issued]. rewrite H4.
  cbn [repo issued]. by rewrite <- !app_assoc.
Qed.

Lemma autoCommitChanges_commits_witness :
  autoCommitChanges _ toy_git ignored_log no_details
    (Some (js "Add login!")) (Some (js "sess-0001"))
    (js "2025-01-01T10:20:30.000Z") (mkShell _ (Changed, 0%nat) [])
  = (true, mkShell _ (Clean, 1%nat)
             [git_status; git_add; git_diff;
              git_commit (js "RALPHIO: Add login [s-0001-102030]")]).
Proof.
  apply (autoCommitChanges_commits _ toy_git ignored_log no_details
           (Some (js "Add login!"))
           (Some (js "sess-0001")) (js "2025-01-01T10:20:30.000Z")
           (mkShell _ (Changed, 0%nat) [])
           (js " M README.md" ++ [10]) [] (js " README.md | 2 +-" ++ [10])
           (js "1 file changed")
           (Changed, 0%nat) (Staged, 0%nat) (Staged, 0%nat) (Clean, 1%nat));
    first [reflexivity | discriminate].
Defined.

(** *** The commit message *)

Import Quoting.

Lemma session_tag_length sid : (length (session_tag sid) <= 6)%nat.
Proof.
  unfold session_tag. destruct sid as [[|c s]|]; [simpl; lia | | simpl; lia].
  rewrite length_drop. lia.
Qed.

Lemma hhmmss_length iso : (length (hhmmss iso) <= 8)%nat.
Proof.
  unfold hhmmss.
  etransitivity; [apply length_filter | ]. rewrite length_take. lia.
Qed.

(** The commit message has at most 77 code units: the prefix, at most 50
    of the task, at most 6 of the session and at most 8 of the clock. *)
Theorem commit_message_length (desc sid : option jsstring) (iso : jsstring) :
  (length (commit_message desc sid iso) <= 77)%nat.
Proof.
  unfold commit_message. rewrite !length_app.
  pose proof (sanitize_length desc). pose proof (session_tag_length sid).
  pose proof (hhmmss_length iso).
  change (length (js "RALPHIO: ")) with 9%nat.
  change (length (js " [")) with 2%nat.
  change (length (js "-")) with 1%nat.
  change (length (js "]")) with 1%nat.
  lia.
Qed.

Lemma safe_not_special c : is_safe c = true -> is_shell_special c = false.
Proof.
  unfold is_safe, is_shell_special.
  repeat match goal with
  | |- context [N.leb ?a ?b] => destruct (N.leb_spec a b)
  | |- context [N.eqb ?a ?b] => destruct (N.eqb_spec a b)
  end; simpl; try discriminate; try reflexivity; lia.
Qed.

(** No character of the task text can end or escape the quoted commit
    message: when the last six characters of the session id and the time
    stamp hold no shell-special character, the whole message holds none. *)
Theorem commit_message_shell_safe (desc sid : option jsstring) (iso : jsstring) :
  Forall (fun c => is_shell_special c = false) (session_tag sid) ->
  Forall (fun c => is_shell_special c = false) (hhmmss iso) ->
  Forall (fun c => is_shell_special c = false) (commit_message desc sid iso).
Proof.
  intros Hsid Hiso. unfold commit_message.
  repeat (apply Forall_app; split); try done; try (by repeat constructor).
  eapply Forall_impl; [apply sanitize_safe | ]. apply safe_not_special.
Qed.

Lemma commit_message_shell_safe_witness :
  Forall (fun c => is_shell_special c = false)
    (commit_message (Some (js "Fix `$HOME` " ++ [34] ++ js "quoting" ++ [34; 92]))
       (Some (js "sess-0001"))
       (js "2025-01-01T10:20:30.000Z")).
Proof.
  apply commit_message_shell_safe; vm_compute; repeat constructor.
Defined.

(** *** The sanitizer applied twice *)

Lemma strip_unsafe_safe t : Forall safe t -> strip_unsafe t = t.
Proof.
  unfold strip_unsafe. induction 1 as [|c t Hc Ht IH]; [done | ].
  rewrite filter_cons_True by done. by f_equal.
Qed.

Lemma collapse_spaces_single b t :
  Forall safe t -> single_spaced b t = true -> collapse_spaces b t = t.
Proof.
  intros Ht. revert b. induction Ht as [|c t Hc Ht IH]; intros b; simpl; [done | ].
  rewrite (safe_space_iff c Hc). destruct (c =? 32) eqn:E.
  - apply N.eqb_eq in E as ->. intros [Hb Hr]%andb_true_iff.
    destruct b; [discriminate | ]. f_equal. by apply IH.
  - intros Hr. f_equal. by apply IH.
Qed.

Lemma trim_single_spaced b x : single_spaced b x = true -> single_spaced false (trim x) = true.
Proof.
  intros H. unfold trim.
  destruct (trimStart_sublist x) as [p Hp].
  destruct (trimEnd_sublist (trimStart x)) as [q Hq].
  rewrite Hp in H. apply single_spaced_app in H as [_ H].
  rewrite Hq in H. by apply single_spaced_app in H as [H _].
Qed.

Lemma truncate_single_spaced n : single_spaced false n = true -> single_spaced false (truncate n) = true.
Proof.
  intros H. unfold truncate, substring0.
  destruct (_ <? _)%nat; [ | done].
  assert (forall k, single_spaced false (take k n) = true) as Htake.
  { intros k. rewrite <- (take_drop k n) in H. by apply single_spaced_app in H as [H _]. }
  destruct (_ <? _)%Z; [ | apply Htake].
  rewrite take_take. apply Htake.
Qed.

(** What the sanitizer returns is already in its normal form. *)
Lemma sanitize_normal_form desc :
  let t := sanitize desc in
  Forall safe t /\ tidy t /\ single_spaced false t = true /\
  (length t <= 50)%nat /\ t <> [].
Proof.
  intros t. subst t.
  split; [apply sanitize_safe | ].
  split; [ | split; [ | split; [apply sanitize_length | apply sanitize_nonempty]]].
  - unfold sanitize. pose proof (trim_tidy (truncate (normalize desc))) as Ht.
    destruct (trim (truncate (normalize desc))); [ | exact Ht].
    split; intros c [= <-]; reflexivity.
  - unfold sanitize.
    pose proof (trim_single_spaced false _
                  (truncate_single_spaced _ (normalize_single_spaced desc))) as Hs.
    destruct (trim (truncate (normalize desc))); [reflexivity | exact Hs].
Qed.

(** Sanitizing is idempotent: a sanitized task text is left as it is. *)
Theorem sanitize_idempotent (desc : option jsstring) :
  sanitize (Some (sanitize desc)) = sanitize desc.
Proof.
  destruct (sanitize_normal_form desc) as (Hsafe & Htidy & Hss & Hlen & Hne).
  set (t := sanitize desc) in *.
  assert (normalize (Some t) = t) as Hn.
  { unfold normalize. rewrite or_default_Some by done.
    rewrite strip_unsafe_safe, collapse_spaces_single, trim_id by done. done. }
  unfold sanitize at 1. rewrite Hn. unfold truncate.
  destruct (Nat.ltb_spec 50 (length t)); [lia | ].
  rewrite trim_id by done. by apply or_default_Some.
Qed.

End CommitProps.

(** ** Further facts about the task store and the loop *)

Module ControllerProps.
Import TaskStore TaskStoreFacts Adapter Controller ControllerFacts Hopeless.

(** *** The task named in the commit message *)

Lemma strip_prefix_Some p s r : strip_prefix p s = Some r -> s = p ++ r.
Proof.
  revert s. induction p as [|a p IH]; intros s; simpl.
  - by intros [= ->].
  - destruct s as [|b s]; [done | ].
    destruct (N.eqb_spec a b) as [->|]; [ | done].
    intros H. f_equal. by apply IH.
Qed.

Lemma drop_indent_spec l :
  exists indent,
    l = indent ++ drop_indent l /\ Forall (fun c => is_space_or_tab c = true) indent.
Proof.
  induction l as [|c l (indent & Hl & Hi)]; simpl.
  - by exists [].
  - destruct (is_space_or_tab c) eqn:Hc.
    + exists (c :: indent). split; [simpl; by f_equal | by constructor].
    + by exists [].
Qed.

Lemma task_text_unchecked l t :
  task_text l = Some t ->
  t <> [] /\
  exists indent,
    l = indent ++ js "- [ ] " ++ t /\
    Forall (fun c => is_space_or_tab c = true) indent.
Proof.
  unfold task_text.
  destruct (strip_prefix (js "- [ ] ") (drop_indent l)) as [[|c r]|] eqn:Hs; try done.
  intros [= <-]. split; [done | ].
  apply strip_prefix_Some in Hs.
  destruct (drop_indent_spec l) as (indent & Hl & Hi).
  exists indent. by rewrite <- Hs.
Qed.

(** The two patterns of the program agree: the task that [runTask] names
    in the commit message is the text of a line that the reader counts
    as unchecked, so a store with a current task always has unfinished
    work. *)
Theorem first_task_unchecked (planningContent t : jsstring) :
  first_task planningContent = Some t ->
  t <> [] /\
  (exists l indent,
     l ∈ split_lines planningContent /\
     l = indent ++ js "- [ ] " ++ t /\
     Forall (fun c => is_space_or_tab c = true) indent) /\
  (0 < unchecked_count planningContent)%nat /\
  store_has planningContent = true.
Proof.
  unfold first_task. intros Hhead.
  assert (t ∈ omap task_text (split_lines planningContent)) as Hin.
  { destruct (omap task_text (split_lines planningContent)) as [|t' ts]; [done | ].
    injection Hhead as ->. left. }
  apply list_elem_of_omap in Hin as (l & Hl & Ht).
  apply task_text_unchecked in Ht as (Hne & indent & Heq & Hi).
  assert (0 < unchecked_count planningContent)%nat as Hcount.
  { unfold unchecked_count.
    assert (scan true 0 planningContent <> []) as Hscan.
    { apply scan_nonempty. exists l. split; [done | ].
      exists indent, (32 :: t). split; [ | done]. by rewrite Heq. }
    destruct (scan true 0 planningContent); [done | simpl; lia]. }
  split; [done | ]. split; [by exists l, indent | ]. split; [done | ].
  rewrite store_has_count. by apply Nat.ltb_lt.
Qed.

Lemma first_task_unchecked_witness :
  first_task (js "# Plan" ++ [10] ++ js "- [x] Set up" ++ [10] ++ js "  - [ ] Add login")
  = Some (js "Add login") /\
  store_has (js "# Plan" ++ [10] ++ js "- [x] Set up" ++ [10] ++ js "  - [ ] Add login")
  = true.
Proof.
  assert (first_task
            (js "# Plan" ++ [10] ++ js "- [x] Set up" ++ [10] ++ js "  - [ ] Add login")
          = Some (js "Add login")) as H by (vm_compute; reflexivity).
  split; [exact H | ].
  apply (first_task_unchecked _ _ H).
Defined.

(** *** The exit codes *)

(** The exit code is 0, 1 or 2, and it is 0 only when the reader finds no
    unchecked entry in the world the controller leaves. *)
Theorem exit_zero_means_done (World : Type) (has : World -> bool)
    (run : World -> completion unit * World) (k : nat) (w : World) :
  exists code s,
    runUntilSuccess World has run (51 + k) w = Some (code, s) /\
    (code = 0%Z \/ code = 1%Z \/ code = 2%Z) /\
    (code = 0%Z -> has (world s) = false) /\
    (has (world s) = true -> code = 1%Z \/ code = 2%Z).
Proof.
  destruct (runUntilSuccess_spec World has run k w)
    as (code & s & Hrun & _ & _ & _ & Hcode).
  exists code, s. split; [exact Hrun | ].
  destruct Hcode as [(-> & _ & _ & Hhas) | [(-> & _) | (-> & _)]].
  - split; [by left | ]. split; [done | ]. intros Hh. congruence.
  - split; [right; by left | ]. split; [done | ]. intros _. by left.
  - split; [right; by right | ]. split; [done | ]. intros _. by right.
Qed.

Lemma exit_zero_means_done_witness :
  exists code s,
    runUntilSuccess _ counting_has counting_run 51 3%nat = Some (code, s) /\
    code = 0%Z /\ counting_has (world s) = false.
Proof.
  destruct (exit_zero_means_done _ counting_has counting_run 0 3%nat)
    as (code & s & Hrun & _ & Hzero & _).
  exists code, s. split; [exact Hrun | ].
  assert (code = 0%Z) as Hcode by (vm_compute in Hrun; by injection Hrun as <- _).
  split; [exact Hcode | exact (Hzero Hcode)].
Defined.

(** When work remains and every invocation throws, the controller makes
    exactly three invocations and exits with code 1. *)
Theorem always_failing_run (World : Type) (has : World -> bool)
    (run : World -> completion unit * World) (stuck : World -> Prop)
    (k : nat) (w : World) :
  (forall w, stuck w ->
     has w = true /\ exists error w', run w = (Throw error, w') /\ stuck w') ->
  stuck w ->
  exists s,
    runUntilSuccess World has run (51 + k) w = Some (1%Z, s) /\
    invocations s = [false; false; false] /\
    iteration s = 3%nat /\ stuck (world s).
Proof.
  intros Hstuck Hw.
  destruct (Hstuck w Hw) as (Hhas0 & e1 & w1 & Hrun1 & Hw1).
  destruct (Hstuck w1 Hw1) as (Hhas1 & e2 & w2 & Hrun2 & Hw2).
  destruct (Hstuck w2 Hw2) as (Hhas2 & e3 & w3 & Hrun3 & Hw3).
  exists (mkLoop 3 3 w3 [false; false; false]).
  split; [ | done].
  unfold runUntilSuccess. rewrite Hhas0. simpl negb. cbv iota.
  change (51 + k)%nat with (S (S (S (48 + k)))).
  cbn [while_loop iteration]. unfold loop_body at 1. cbn [world].
  rewrite Hhas0, Hrun1. simpl negb. cbv iota beta.
  cbn [consecutiveFailures iteration invocations Nat.leb maxConsecutiveFailures
       maxIterations]. cbv iota.
  unfold loop_body at 1. cbn [world]. rewrite Hhas1, Hrun2. simpl negb. cbv iota beta.
  cbn [consecutiveFailures iteration invocations Nat.leb maxConsecutiveFailures
       maxIterations]. cbv iota.
  unfold loop_body at 1. cbn [world]. rewrite Hhas2, Hrun3. simpl negb. cbv iota beta.
  cbn [consecutiveFailures iteration invocations Nat.leb maxConsecutiveFailures
       maxIterations]. cbv iota.
  reflexivity.
Qed.

Lemma always_failing_run_witness :
  exists s,
    runUntilSuccess _ hopeless_has hopeless_run 51 0%nat = Some (1%Z, s) /\
    invocations s = [false; false; false] /\ iteration s = 3%nat.
Proof.
  destruct (always_failing_run nat hopeless_has hopeless_run (fun _ => True) 0 0%nat)
    as (s & Hrun & Hinv & Hit & _).
  - intros w _. split; [reflexivity | ]. eexists _, _. split; [reflexivity | exact I].
  - exact I.
  - exists s. split; [exact Hrun | split; [exact Hinv | exact Hit]].
Defined.

End ControllerProps.

(** ** Facts about the log output *)

Module LoggingFacts.
Import Logging.

Lemma strip_ansi_from_drop s : forall k,
  strip_ansi_from k s = strip_ansi_from 0 (drop k s).
Proof.
  induction s as [|c s IH]; intros k.
  - by destruct k.
  - destruct k as [|k]; [done | ]. simpl. apply IH.
Qed.

Lemma sgr_tail_params p rest :
  Forall (fun c => is_sgr_param c = true) p ->
  sgr_tail (p ++ 109 :: rest) = Some (S (length p)).
Proof.
  induction 1 as [|c p Hc Hp IH]; simpl.
  - reflexivity.
  - by rewrite Hc, IH.
Qed.

Lemma strip_sgr p rest :
  Forall (fun c => is_sgr_param c = true) p ->
  cleanText (sgr p ++ rest) = cleanText rest.
Proof.
  intros Hp. unfold cleanText.
  change (sgr p ++ rest) with (27 :: 91 :: (p ++ [109]) ++ rest).
  rewrite <- app_assoc. cbn [strip_ansi_from match_sgr].
  change ((27 =? 27) && (91 =? 91)) with true. cbv iota.
  change ([109] ++ rest) with (109 :: rest).
  rewrite sgr_tail_params by done. cbn [option_map Nat.sub].
  rewrite strip_ansi_from_drop. f_equal. cbn [drop].
  change (p ++ 109 :: rest) with (p ++ [109] ++ rest).
  rewrite app_assoc. apply drop_app_length'. rewrite length_app. simpl. lia.
Qed.

Lemma strip_plain t rest :
  Forall (fun c => c <> 27) t -> cleanText (t ++ rest) = t ++ cleanText rest.
Proof.
  unfold cleanText. induction 1 as [|c t Hc Ht IH]; [done | ].
  cbn [app strip_ansi_from].
  assert (match_sgr (c :: t ++ rest) = None) as ->.
  { unfold match_sgr. destruct (t ++ rest) as [|d r]; [done | ].
    by destruct (N.eqb_spec c 27). }
  by rewrite IH.
Qed.

(** What is logged is the text without its colour sequences: a colour
    sequence vanishes wherever it stands, and text without the escape
    character is kept as it is. *)
Theorem cleanText_compose :
  (forall p rest,
     Forall (fun c => is_sgr_param c = true) p ->
     cleanText (sgr p ++ rest) = cleanText rest) /\
  (forall t rest,
     Forall (fun c => c <> 27) t -> cleanText (t ++ rest) = t ++ cleanText rest).
Proof. split; [apply strip_sgr | apply strip_plain]. Qed.

Lemma cleanText_compose_witness :
  cleanText (sgr (js "1;32") ++ js "ok") = cleanText (js "ok") /\
  cleanText (js "ok" ++ sgr (js "0")) = js "ok" ++ cleanText (sgr (js "0")).
Proof.
  destruct cleanText_compose as [Hsgr Hplain]. split.
  - apply Hsgr. repeat constructor.
  - apply Hplain. repeat constructor; discriminate.
Defined.

(** Text coloured with one sequence and reset at its end is logged as the
    bare text. *)
Theorem cleanText_coloured (p q t : jsstring) :
  Forall (fun c => is_sgr_param c = true) p ->
  Forall (fun c => is_sgr_param c = true) q ->
  Forall (fun c => c <> 27) t ->
  cleanText (sgr p ++ t ++ sgr q) = t.
Proof.
  intros Hp Hq Ht. rewrite strip_sgr, strip_plain by done.
  rewrite <- (app_nil_r (sgr q)), strip_sgr by done. apply app_nil_r.
Qed.

Lemma cleanText_coloured_witness :
  cleanText (sgr (js "1;32") ++ js "ITERATION 1 COMPLETED" ++ sgr (js "0"))
  = js "ITERATION 1 COMPLETED".
Proof.
  apply cleanText_coloured; repeat constructor; discriminate.
Defined.

End LoggingFacts.

(** ** Facts about the log file and [init] *)

Module WorkspaceFacts.
Import Workspace Init.

(** *** Sequencing *)

Lemma io_bind_normal {A B} (m : io A) (k : A -> io B) fs b fs' :
  (m ≫= k) fs = (Normal b, fs') ->
  exists a fs1, m fs = (Normal a, fs1) /\ k a fs1 = (Normal b, fs').
Proof.
  unfold mbind, io_mbind, io_bind. destruct (m fs) as [[a|e] fs1]; intros H.
  - eauto.
  - discriminate.
Qed.

Lemma touches_bind {A B} P (m : io A) (k : A -> io B) :
  touches_only P m -> (forall a, touches_only P (k a)) -> touches_only P (m ≫= k).
Proof.
  intros Hm Hk fs q Hq. unfold mbind, io_mbind, io_bind.
  specialize (Hm fs q Hq). destruct (m fs) as [[a|e] fs1]; simpl in *.
  - rewrite (Hk a fs1 q Hq). exact Hm.
  - exact Hm.
Qed.

Lemma touches_ret {A} P (a : A) : touches_only P (mret a).
Proof. intros fs q _. reflexivity. Qed.

Lemma touches_lift {A} P (f : gmap string node -> completion A) :
  touches_only P (io_lift f).
Proof. intros fs q _. reflexivity. Qed.

Lemma touches_update P f :
  (forall fs fs' q, f fs = Normal fs' -> ~ P q -> fs' !! q = fs !! q) ->
  touches_only P (io_update f).
Proof.
  intros Hf fs q Hq. unfold io_update. destruct (f fs) as [fs'|e] eqn:E; simpl.
  - eauto.
  - reflexivity.
Qed.

Lemma keeps_bind {A B} (m : io A) (k : A -> io B) :
  keeps m -> (forall a, keeps (k a)) -> keeps (m ≫= k).
Proof.
  intros Hm Hk fs q Hq. unfold mbind, io_mbind, io_bind.
  specialize (Hm fs q Hq). destruct (m fs) as [[a|e] fs1]; simpl in *.
  - apply Hk, Hm.
  - exact Hm.
Qed.

Lemma keeps_ret {A} (a : A) : keeps (mret a).
Proof. intros fs q H. exact H. Qed.

Lemma keeps_lift {A} (f : gmap string node -> completion A) : keeps (io_lift f).
Proof. intros fs q H. exact H. Qed.

Lemma keeps_update f :
  (forall fs fs' q, f fs = Normal fs' -> is_Some (fs !! q) -> is_Some (fs' !! q)) ->
  keeps (io_update f).
Proof.
  intros Hf fs q Hq. unfold io_update. destruct (f fs) as [fs'|e] eqn:E; simpl.
  - eauto.
  - exact Hq.
Qed.

(** *** The file operations *)

Lemma mkdir_normal p fs fs' :
  mkdir p fs = Normal fs' ->
  (forall q, q <> p -> fs' !! q = fs !! q) /\
  (forall q, is_Some (fs !! q) -> is_Some (fs' !! q)) /\
  is_Some (fs' !! p).
Proof.
  unfold mkdir. destruct (fs !! p) as [n|] eqn:E.
  - destruct (is_directory n); intros H; inversion H; subst.
    rewrite E. eauto.
  - intros H; inversion H; subst. split; [|split].
    + intros q Hq. apply lookup_insert_ne. congruence.
    + intros q Hq. destruct (decide (p = q)) as [->|Hne].
      * rewrite lookup_insert_eq. eauto.
      * rewrite lookup_insert_ne by exact Hne. exact Hq.
    + rewrite lookup_insert_eq. eauto.
Qed.

Lemma touches_mkdir_levels (P : string -> Prop) below : forall above,
  Forall P (levels above below) -> touches_only P (mkdir_levels above below).
Proof.
  induction below as [|segment below' IH]; intros above HP; simpl.
  - apply (touches_ret (A:=unit)).
  - inversion HP; subst. apply touches_bind.
    + apply touches_update. intros fs fs' q Hm Hq.
      apply (mkdir_normal _ _ _ Hm). congruence.
    + intros _. apply IH. assumption.
Qed.

Lemma keeps_mkdir_levels below : forall above, keeps (mkdir_levels above below).
Proof.
  induction below as [|segment below' IH]; intros above; simpl.
  - apply (keeps_ret (A:=unit)).
  - apply keeps_bind.
    + apply keeps_update. intros fs fs' q Hm. apply (mkdir_normal _ _ _ Hm).
    + intros _. apply IH.
Qed.

Lemma writeFileSync_normal segments data fs u fs' :
  writeFileSync segments data fs = (Normal u, fs') ->
  fs' = <[path_join segments := File data]> fs.
Proof.
  unfold writeFileSync, io_update.
  destruct (parent_there fs segments); [|discriminate].
  destruct (fs !! path_join segments) as [[e|c]|]; intros H; inversion H; reflexivity.
Qed.

Lemma touches_writeFileSync (P : string -> Prop) segments data :
  P (path_join segments) -> touches_only P (writeFileSync segments data).
Proof.
  intros HP fs q Hq.
  destruct (writeFileSync segments data fs) as [[u|e] fs'] eqn:E.
  - apply writeFileSync_normal in E. subst. simpl.
    apply lookup_insert_ne. congruence.
  - unfold writeFileSync, io_update in E.
    destruct (parent_there fs segments);
      [destruct (fs !! path_join segments) as [[e'|c]|]|]; inversion E; reflexivity.
Qed.

Lemma keeps_writeFileSync segments data : keeps (writeFileSync segments data).
Proof.
  intros fs q Hq.
  destruct (writeFileSync segments data fs) as [[u|e] fs'] eqn:E.
  - apply writeFileSync_normal in E. subst. simpl.
    destruct (decide (path_join segments = q)) as [->|Hne].
    + rewrite lookup_insert_eq. eauto.
    + rewrite lookup_insert_ne by exact Hne. exact Hq.
  - unfold writeFileSync, io_update in E.
    destruct (parent_there fs segments);
      [destruct (fs !! path_join segments) as [[e'|c]|]|]; inversion E; subst; exact Hq.
Qed.

Lemma touches_bind_post {A B} (P : string -> Prop) (Q : A -> Prop)
  (m : io A) (k : A -> io B) :
  touches_only P m ->
  (forall fs a fs1, m fs = (Normal a, fs1) -> Q a) ->
  (forall a, Q a -> touches_only P (k a)) ->
  touches_only P (m ≫= k).
Proof.
  intros Hm HQ Hk fs q Hq. unfold mbind, io_mbind, io_bind.
  specialize (Hm fs q Hq). specialize (HQ fs).
  destruct (m fs) as [[a|e] fs1]; simpl in *.
  - rewrite (Hk a (HQ _ _ eq_refl) fs1 q Hq). exact Hm.
  - exact Hm.
Qed.

(** *** The log file *)

Lemma appendFileSync_normal fs p data fs' :
  appendFileSync fs p data = Normal fs' ->
  (forall q, q <> resolve p -> fs' !! q = fs !! q) /\
  (forall q, is_Some (fs !! q) -> is_Some (fs' !! q)) /\
  exists old, fs' !! resolve p = Some (File (old ++ data)) /\
    (forall c, fs !! resolve p = Some (File c) -> old = c).
Proof.
  unfold appendFileSync. destruct (fs !! resolve p) as [[e|c]|] eqn:E;
    intros H; inversion H; subst; clear H.
  - split; [|split].
    + intros q Hq. apply lookup_insert_ne. congruence.
    + intros q Hq. destruct (decide (resolve p = q)) as [<-|Hne].
      * rewrite lookup_insert_eq. eauto.
      * rewrite lookup_insert_ne by exact Hne. exact Hq.
    + exists c. rewrite lookup_insert_eq. split; [reflexivity|].
      intros c' Hc'. congruence.
  - split; [|split].
    + intros q Hq. apply lookup_insert_ne. congruence.
    + intros q Hq. destruct (decide (resolve p = q)) as [<-|Hne].
      * rewrite lookup_insert_eq. eauto.
      * rewrite lookup_insert_ne by exact Hne. exact Hq.
    + exists []. rewrite lookup_insert_eq. split; [reflexivity|].
      intros c' Hc'. discriminate.
Qed.

Lemma getLogFilePath_normal now fs file fs1 :
  getLogFilePath now fs = (Normal file, fs1) -> file = log_file (before_T now).
Proof.
  unfold getLogFilePath. intros H.
  apply io_bind_normal in H as (u & fs0 & _ & H). inversion H. reflexivity.
Qed.

Lemma touches_getLogFilePath now : touches_only log_dirs (getLogFilePath now).
Proof.
  unfold getLogFilePath. apply touches_bind; [|intros _; apply touches_ret].
  intros fs q Hq. destruct (negb _); [|reflexivity].
  unfold mkdirSync. apply (touches_mkdir_levels log_dirs); [|exact Hq].
  constructor; [left; reflexivity|].
  constructor; [right; reflexivity|]. constructor.
Qed.

Lemma keeps_getLogFilePath now : keeps (getLogFilePath now).
Proof.
  unfold getLogFilePath. apply keeps_bind; [|intros _; apply keeps_ret].
  intros fs q Hq. destruct (negb _); [|exact Hq].
  apply keeps_mkdir_levels, Hq.
Qed.

Lemma touches_weaken {A} (P Q : string -> Prop) (m : io A) :
  (forall q, P q -> Q q) -> touches_only P m -> touches_only Q m.
Proof. intros HPQ Hm fs q Hq. apply Hm. intros HP. apply Hq, HPQ, HP. Qed.

Lemma log_file_not_dir d : ~ log_dirs (path_join (log_file d)).
Proof. intros [H|H]; discriminate H. Qed.

Lemma logToFile_lookup timestamp now message type fs q :
  ~ log_paths now q ->
  logToFile timestamp now message type fs !! q = fs !! q.
Proof.
  intros Hq. unfold logToFile.
  refine (touches_bind_post (log_paths now) (fun file => file = log_file (before_T now))
            _ _ _ _ _ fs q Hq).
  - apply (touches_weaken log_dirs); [|apply touches_getLogFilePath].
    intros q' H. left. exact H.
  - intros fs0 a fs1. apply getLogFilePath_normal.
  - intros a ->. apply touches_update. intros fs0 fs' q' H Hq'.
    destruct (parent_there fs0 _); [|discriminate].
    apply appendFileSync_normal in H as (H & _).
    apply H. intros ->. apply Hq'. right. reflexivity.
Qed.

(** Logging never touches the task store: after [logToFile] the reader
    gives the same answer, and the three files an invocation reads first
    read as before. *)
Theorem logToFile_keeps_task_store timestamp now message type fs :
  let fs' := logToFile timestamp now message type fs in
  TaskStore.hasUnfinishedTasks fs' = TaskStore.hasUnfinishedTasks fs /\
  readFileSync fs' ".agent/prompt.md" = readFileSync fs ".agent/prompt.md" /\
  readFileSync fs' ".agent/memory.md" = readFileSync fs ".agent/memory.md" /\
  readFileSync fs' ".agent/planning.md" = readFileSync fs ".agent/planning.md".
Proof.
  intros fs'.
  assert (Hl : forall p, In p [".agent/prompt.md"; ".agent/memory.md";
                               ".agent/planning.md"; "planning.md"]%string ->
                         fs' !! p = fs !! p).
  { intros p Hp. apply logToFile_lookup.
    simpl in Hp. intros [[H|H]|H];
      repeat (destruct Hp as [<-|Hp]; [discriminate H|]); exact Hp. }
  assert (H1 := Hl ".agent/prompt.md"%string ltac:(simpl; tauto)).
  assert (H2 := Hl ".agent/memory.md"%string ltac:(simpl; tauto)).
  assert (H3 := Hl ".agent/planning.md"%string ltac:(simpl; tauto)).
  assert (H4 := Hl "planning.md"%string ltac:(simpl; tauto)).
  unfold TaskStore.hasUnfinishedTasks, existsSync, readFileSync.
  cbn [resolve]. rewrite H1, H2, H3, H4. repeat split; reflexivity.
Qed.

(** The log file of the day only grows: what was in it stays, followed
    by the new entry or, when the entry could not be written, by nothing. *)
Theorem logToFile_only_grows timestamp now message type fs c :
  fs !! path_join (log_file (before_T now)) = Some (File c) ->
  exists suffix,
    logToFile timestamp now message type fs !! path_join (log_file (before_T now))
      = Some (File (c ++ suffix)) /\
    (suffix = [] \/ suffix = logEntry timestamp type message).
Proof.
  intros Hc. unfold logToFile, mbind, io_mbind, io_bind.
  pose proof (touches_getLogFilePath now fs _ (log_file_not_dir (before_T now))) as Ht.
  destruct (getLogFilePath now fs) as [[file|e] fs1] eqn:E; simpl in Ht.
  - apply getLogFilePath_normal in E. subst file. rewrite Hc in Ht.
    unfold io_update. destruct (parent_there fs1 _).
    + unfold appendFileSync. change (resolve (path_join (log_file ?d))) with (path_join (log_file d)).
      rewrite Ht. simpl. rewrite lookup_insert_eq. eauto.
    + simpl. exists []. rewrite app_nil_r. eauto.
  - simpl. exists []. rewrite app_nil_r, Ht, Hc. eauto.
Qed.

Lemma logToFile_only_grows_witness :
  exists suffix,
    logToFile (js "2025-01-01T10:20:30.000Z") (js "2025-01-01T10:20:30.001Z")
      (js "RALPHIO single iteration failed") (js "COMPLETE") logged_project
      !! path_join (log_file (before_T (js "2025-01-01T10:20:30.001Z")))
    = Some (File ((js "[2025-01-01T09:00:00.000Z] [START] first" ++ [10]) ++ suffix)) /\
    (suffix = [] \/
     suffix = logEntry (js "2025-01-01T10:20:30.000Z") (js "COMPLETE")
                (js "RALPHIO single iteration failed")).
Proof.
  apply (logToFile_only_grows (js "2025-01-01T10:20:30.000Z")
           (js "2025-01-01T10:20:30.001Z") (js "RALPHIO single iteration failed")
           (js "COMPLETE") logged_project).
  vm_compute. reflexivity.
Defined.

Lemma mkdir_levels_first above segment below fs :
  fs !! path_join (above ++ [segment]) = None ->
  is_Some (snd (mkdir_levels above (segment :: below) fs) !! path_join (above ++ [segment])).
Proof.
  intros Hn. cbn [mkdir_levels]. unfold mbind, io_mbind, io_bind, io_update at 1, mkdir.
  rewrite Hn.
  apply keeps_mkdir_levels. rewrite lookup_insert_eq. eauto.
Qed.

Lemma logToFile_agent_there timestamp now message type fs :
  (fs !! ".agent/logs"%string <> None -> fs !! ".agent"%string <> None) ->
  is_Some (logToFile timestamp now message type fs !! ".agent"%string).
Proof.
  intros Hwf. unfold logToFile.
  assert (Hk : keeps (file ← getLogFilePath now;
                      io_update (fun fs =>
                        if parent_there fs file
                        then appendFileSync fs (path_join file) (logEntry timestamp type message)
                        else Throw ENOTDIR))).
  { apply keeps_bind; [apply keeps_getLogFilePath|]. intros file.
    apply keeps_update. intros fs0 fs' q H.
    destruct (parent_there fs0 file); [|discriminate].
    apply appendFileSync_normal in H as (_ & H & _). apply H. }
  destruct (fs !! ".agent"%string) as [n|] eqn:Ea.
  - apply Hk. rewrite Ea. eauto.
  - destruct (fs !! ".agent/logs"%string) as [n|] eqn:El.
    { exfalso. apply Hwf; [discriminate|reflexivity]. }
    unfold getLogFilePath, mbind, io_mbind, io_bind, existsSync.
    cbn [resolve]. rewrite El. cbn [negb].
    pose proof (mkdir_levels_first [] "./.agent"%string ["logs"%string] fs Ea) as Hm.
    fold (mkdirSync ["./.agent"; "logs"]%string) in Hm.
    destruct (mkdirSync ["./.agent"; "logs"]%string fs) as [[u|e] fs1]; simpl in Hm |- *.
    + unfold io_update. destruct (parent_there fs1 _); [|exact Hm].
      destruct (appendFileSync _ _ _) as [fs2|e] eqn:E2; [|exact Hm].
      apply appendFileSync_normal in E2 as (_ & H & _). simpl. apply H, Hm.
    + exact Hm.
Qed.

(** Once anything has been logged [.agent] is there, so [init] skips:
    it reports no error and leaves the directory as logging left it. On
    the way in, a [.agent/logs] that is there lies in a [.agent] that is
    there. *)
Theorem initializeAgentStructure_after_logging possiblePaths timestamp now message type fs :
  (fs !! ".agent/logs"%string <> None -> fs !! ".agent"%string <> None) ->
  initializeAgentStructure possiblePaths (logToFile timestamp now message type fs)
  = (Skipped, logToFile timestamp now message type fs).
Proof.
  intros Hwf. pose proof (logToFile_agent_there timestamp now message type fs Hwf) as [n Hn].
  unfold initializeAgentStructure, existsSync. cbn [resolve]. rewrite Hn. reflexivity.
Qed.

Lemma initializeAgentStructure_after_logging_witness :
  initializeAgentStructure []
    (logToFile (js "2025-01-01T10:20:30.000Z") (js "2025-01-01T10:20:30.001Z")
       (js "No planning.md found in .agent/ or root directory") (js "WARNING") ∅)
  = (Skipped,
     logToFile (js "2025-01-01T10:20:30.000Z") (js "2025-01-01T10:20:30.001Z")
       (js "No planning.md found in .agent/ or root directory") (js "WARNING") ∅).
Proof.
  apply (initializeAgentStructure_after_logging [] (js "2025-01-01T10:20:30.000Z")
           (js "2025-01-01T10:20:30.001Z")
           (js "No planning.md found in .agent/ or root directory") (js "WARNING") ∅).
  intros H. exfalso. apply H. vm_compute. reflexivity.
Defined.

(** *** [init] *)

Lemma keeps_init_rest possiblePaths :
  keeps (mkdirSync ["./.agent"; "artifacts"; "loops"]%string;;
         mkdirSync ["./.agent"; "logs"]%string;;
         writeFileSync ["./.agent"; "agent.config.json"]%string configContent;;
         writeFileSync ["./.agent"; "memory.md"]%string memoryTemplate;;
         writeFileSync ["./.agent"; "planning.md"]%string planTemplate;;
         prompt ← io_lift (fun fs => Normal (promptTemplate possiblePaths fs));
         writeFileSync ["./.agent"; "prompt.md"]%string prompt).
Proof.
  repeat (apply keeps_bind;
          [first [apply keeps_mkdir_levels | apply keeps_writeFileSync | apply keeps_lift]
          |intros ?]).
  apply keeps_writeFileSync.
Qed.

Lemma init_agent_there possiblePaths fs :
  is_Some (snd (initializeAgentStructure possiblePaths fs) !! ".agent"%string).
Proof.
  unfold initializeAgentStructure, existsSync. cbn [resolve].
  destruct (fs !! ".agent"%string) as [n|] eqn:Ea.
  - simpl. rewrite Ea. eauto.
  - pose proof (mkdir_levels_first [] "./.agent"%string [] fs Ea) as Hm.
    fold (mkdirSync ["./.agent"%string]) in Hm.
    unfold mbind at 1, io_mbind at 1, io_bind at 1.
    destruct (mkdirSync ["./.agent"%string] fs) as [[u|e] fs1]; simpl in Hm.
    + pose proof (keeps_init_rest possiblePaths fs1 _ Hm) as Hk.
      match goal with |- context [match ?c with _ => _ end] =>
        destruct c as [[u'|e] fs2] end; exact Hk.
    + exact Hm.
Qed.

(** [init] runs at most once: whatever the first run did, succeed, fail
    half way or skip, a second run skips and changes nothing. *)
Theorem initializeAgentStructure_twice possiblePaths fs :
  let once := initializeAgentStructure possiblePaths fs in
  initializeAgentStructure possiblePaths (snd once) = (Skipped, snd once).
Proof.
  intros once. destruct (init_agent_there possiblePaths fs) as [n Hn].
  fold once in Hn. unfold initializeAgentStructure at 1, existsSync.
  cbn [resolve]. rewrite Hn. reflexivity.
Qed.

Lemma touches_init_steps possiblePaths :
  touches_only (fun q => String.prefix ".agent" q = true)
    (mkdirSync ["./.agent"%string];;
     mkdirSync ["./.agent"; "artifacts"; "loops"]%string;;
     mkdirSync ["./.agent"; "logs"]%string;;
     writeFileSync ["./.agent"; "agent.config.json"]%string configContent;;
     writeFileSync ["./.agent"; "memory.md"]%string memoryTemplate;;
     writeFileSync ["./.agent"; "planning.md"]%string planTemplate;;
     prompt ← io_lift (fun fs => Normal (promptTemplate possiblePaths fs));
     writeFileSync ["./.agent"; "prompt.md"]%string prompt).
Proof.
  repeat (apply touches_bind;
          [first [apply touches_mkdir_levels; repeat constructor
                 | apply touches_writeFileSync; reflexivity
                 | apply touches_lift]
          |intros ?]).
  apply touches_writeFileSync; reflexivity.
Qed.

(** [init] changes nothing outside [.agent], whether it succeeds or
    fails. *)
Theorem initializeAgentStructure_stays_inside possiblePaths fs q :
  String.prefix ".agent" q = false ->
  snd (initializeAgentStructure possiblePaths fs) !! q = fs !! q.
Proof.
  intros Hq. unfold initializeAgentStructure.
  destruct (existsSync fs "./.agent"); [reflexivity|].
  pose proof (touches_init_steps possiblePaths fs q) as Ht.
  match goal with |- context [match ?c with _ => _ end] =>
    destruct c as [[u'|e] fs2] end; simpl in *; apply Ht; congruence.
Qed.

Lemma initializeAgentStructure_stays_inside_witness :
  snd (initializeAgentStructure [] legacy_project) !! "planning.md"%string
  = legacy_project !! "planning.md"%string.
Proof.
  apply (initializeAgentStructure_stays_inside [] legacy_project "planning.md").
  vm_compute. reflexivity.
Defined.

(** After a successful [init] the project is ready for a first
    invocation: the task list, the memory and the prompt can be read, the
    reader reports unfinished work, and the task an invocation takes up is
    the first of the sample tasks. *)
Theorem initializeAgentStructure_ready possiblePaths fs fs' :
  initializeAgentStructure possiblePaths fs = (Initialized, fs') ->
  TaskStore.hasUnfinishedTasks fs' = Normal true /\
  readFileSync fs' ".agent/planning.md" = Normal planTemplate /\
  readFileSync fs' ".agent/memory.md" = Normal memoryTemplate /\
  (exists prompt, readFileSync fs' ".agent/prompt.md" = Normal prompt) /\
  Adapter.first_task planTemplate
  = Some (js "Run npm run build to verify project setup").
Proof.
  unfold initializeAgentStructure. destruct (existsSync fs "./.agent"); [discriminate|].
  match goal with |- context [match ?c with _ => _ end] =>
    destruct c as [[u'|e] fs2] eqn:E end; [|discriminate].
  intros H. inversion H. subst fs2. clear H.
  apply io_bind_normal in E as (? & fs1 & _ & E).
  apply io_bind_normal in E as (? & fs2 & _ & E).
  apply io_bind_normal in E as (? & fs3 & _ & E).
  apply io_bind_normal in E as (? & fs4 & _ & E).
  apply io_bind_normal in E as (? & fs5 & E5 & E).
  apply io_bind_normal in E as (? & fs6 & E6 & E).
  apply io_bind_normal in E as (prompt & fs7 & E7 & E).
  apply writeFileSync_normal in E5, E6, E.
  assert (Hfs : fs6 = fs7) by (injection E7; auto). clear E7. subst.
  assert (Hpl : forall m : gmap string node,
    (<[path_join ["./.agent"; "prompt.md"]%string := File prompt]>
       (<[path_join ["./.agent"; "planning.md"]%string := File planTemplate]> m))
      !! ".agent/planning.md"%string = Some (File planTemplate)).
  { intros m. rewrite lookup_insert_ne by discriminate. apply lookup_insert_eq. }
  unfold TaskStore.hasUnfinishedTasks, existsSync, readFileSync. cbn [resolve].
  rewrite Hpl. split; [vm_compute; reflexivity|]. split; [reflexivity|].
  split.
  { rewrite lookup_insert_ne by discriminate. rewrite lookup_insert_ne by discriminate.
    change (path_join ["./.agent"; "memory.md"]%string) with ".agent/memory.md"%string.
    rewrite lookup_insert_eq. reflexivity. }
  split.
  { exists prompt.
    change (path_join ["./.agent"; "prompt.md"]%string) with ".agent/prompt.md"%string.
    rewrite lookup_insert_eq. reflexivity. }
  vm_compute. reflexivity.
Qed.

Lemma initializeAgentStructure_ready_witness :
  let fs' := snd (initializeAgentStructure [] legacy_project) in
  TaskStore.hasUnfinishedTasks fs' = Normal true /\
  readFileSync fs' ".agent/planning.md" = Normal planTemplate /\
  readFileSync fs' ".agent/memory.md" = Normal memoryTemplate /\
  (exists prompt, readFileSync fs' ".agent/prompt.md" = Normal prompt) /\
  Adapter.first_task planTemplate
  = Some (js "Run npm run build to verify project setup").
Proof.
  apply (initializeAgentStructure_ready [] legacy_project).
  vm_compute. reflexivity.
Defined.

Lemma mkdir_absent p fs :
  fs !! p = None ->
  io_update (mkdir p) fs = (Normal tt, <[p := Unreadable EISDIR]> fs).
Proof. intros H. unfold io_update, mkdir. rewrite H. reflexivity. Qed.

Lemma mkdir_present p fs :
  fs !! p = Some (Unreadable EISDIR) ->
  io_update (mkdir p) fs = (Normal tt, fs).
Proof. intros H. unfold io_update, mkdir. rewrite H. reflexivity. Qed.

Lemma writeFileSync_absent dir name data fs :
  fs !! path_join [dir] = Some (Unreadable EISDIR) ->
  fs !! path_join [dir; name] = None ->
  writeFileSync [dir; name] data fs
  = (Normal tt, <[path_join [dir; name] := File data]> fs).
Proof.
  intros Hd Hn. unfold writeFileSync, io_update, parent_there. cbn [removelast].
  rewrite Hd, Hn. reflexivity.
Qed.

(** In a directory with nothing called [.agent...], [init] succeeds. *)
Theorem initializeAgentStructure_fresh possiblePaths fs :
  (forall p, String.prefix ".agent" p = true -> fs !! p = None) ->
  fst (initializeAgentStructure possiblePaths fs) = Initialized.
Proof.
  intros Hfresh.
  unfold initializeAgentStructure, existsSync. cbn [resolve].
  rewrite (Hfresh ".agent"%string eq_refl).
  unfold mkdirSync. cbn [mkdir_levels app].
  unfold mbind, io_mbind, io_bind, mret, io_mret, io_ret, io_lift.
  rewrite mkdir_absent by (apply Hfresh; reflexivity).
  rewrite mkdir_present by apply lookup_insert_eq.
  rewrite mkdir_absent
    by (rewrite lookup_insert_ne by discriminate; apply Hfresh; reflexivity).
  rewrite mkdir_absent
    by (rewrite !lookup_insert_ne by discriminate; apply Hfresh; reflexivity).
  rewrite mkdir_present
    by (rewrite !lookup_insert_ne by discriminate; apply lookup_insert_eq).
  rewrite mkdir_absent
    by (rewrite !lookup_insert_ne by discriminate; apply Hfresh; reflexivity).
  rewrite writeFileSync_absent;
    [|rewrite !lookup_insert_ne by discriminate; apply lookup_insert_eq
     |rewrite !lookup_insert_ne by discriminate; apply Hfresh; reflexivity].
  rewrite writeFileSync_absent;
    [|rewrite !lookup_insert_ne by discriminate; apply lookup_insert_eq
     |rewrite !lookup_insert_ne by discriminate; apply Hfresh; reflexivity].
  rewrite writeFileSync_absent;
    [|rewrite !lookup_insert_ne by discriminate; apply lookup_insert_eq
     |rewrite !lookup_insert_ne by discriminate; apply Hfresh; reflexivity].
  rewrite writeFileSync_absent;
    [|rewrite !lookup_insert_ne by discriminate; apply lookup_insert_eq
     |rewrite !lookup_insert_ne by discriminate; apply Hfresh; reflexivity].
  reflexivity.
Qed.

Lemma initializeAgentStructure_fresh_witness :
  fst (initializeAgentStructure [] legacy_project) = Initialized.
Proof.
  apply (initializeAgentStructure_fresh [] legacy_project).
  intros p Hp. apply lookup_singleton_ne. intros <-. vm_compute in Hp. discriminate Hp.
Defined.

End WorkspaceFacts.

(** ** Facts about the requirements parser *)

Module PrdFacts.
Import TaskStore TaskStoreFacts Adapter Prd.

#[local] Arguments Workspace.logToFile : simpl never.

Lemma split_lines_app_lf a b :
  split_lines (a ++ 10 :: b) = split_lines a ++ split_lines b.
Proof.
  induction a as [|c a IH]; simpl; [done | ].
  rewrite IH. destruct (is_line_terminator c); [done | ].
  destruct (split_lines_first a) as (l & ls & -> & _). done.
Qed.

Lemma unchecked_count_app_lf a b :
  unchecked_count (a ++ 10 :: b) = (unchecked_count a + unchecked_count b)%nat.
Proof.
  rewrite !unchecked_count_lines, split_lines_app_lf, omap_app. apply length_app.
Qed.

Lemma unchecked_count_appended old iso tasks :
  (unchecked_count old + unchecked_count tasks
   <= unchecked_count (old ++ separator iso ++ tasks ++ [10%N]))%nat.
Proof.
  unfold separator.
  replace (old ++ ([10; 10] ++ js "## Tasks from PRD (" ++ before_T iso ++ js ")" ++ [10])
               ++ tasks ++ [10])
    with (old ++ 10 :: ((10 :: js "## Tasks from PRD (" ++ before_T iso ++ js ")")
                        ++ 10 :: (tasks ++ 10 :: [])))
    by (simpl; rewrite <- !app_assoc; simpl; done).
  rewrite !unchecked_count_app_lf. lia.
Qed.

Section ParsePrdFacts.

Variable query : jsstring -> agent_response.
Variable possiblePrdPaths : list string.

(** Every way out of [parsePRD]. *)
Lemma parsePRD_cases iso fs prdFile ok fs' :
  parsePRD query possiblePrdPaths iso fs prdFile = Some (ok, fs') ->
  (ok = false /\
   (fs' = fs \/
    exists error,
      fs' = Workspace.logToFile iso iso (js "PRD parsing error: " ++ message error)
              (js "ERROR") fs)) \/
  (ok = true /\
   exists old prompt,
     fs !! ".agent/planning.md"%string = Some (File old) /\
     foldl collect [] (events (query prompt)) <> [] /\
     fs' = <[".agent/planning.md"%string :=
               File (old ++ separator iso
                         ++ foldl collect [] (events (query prompt)) ++ [10])]> fs).
Proof.
  assert (forall error,
            parse_failed iso error fs = Some (ok, fs') ->
            ok = false /\
            (fs' = fs \/
             exists error,
               fs' = Workspace.logToFile iso iso
                       (js "PRD parsing error: " ++ message error) (js "ERROR") fs))
    as Hfailed.
  { intros error. unfold parse_failed. intros [= <- <-]. eauto. }
  assert (Some (false, fs) = Some (ok, fs') ->
          ok = false /\
          (fs' = fs \/
           exists error,
             fs' = Workspace.logToFile iso iso
                     (js "PRD parsing error: " ++ message error) (js "ERROR") fs))
    as Hfalse.
  { intros [= <- <-]. auto. }
  unfold parsePRD.
  destruct (existsSync fs prdFile); cbn [negb]; [ | intros H; left; by apply Hfalse].
  destruct (existsSync fs ".agent/planning.md"); cbn [negb];
    [ | intros H; left; by apply Hfalse].
  destruct (readFileSync fs prdFile) as [prd|e]; [ | intros H; left; by eapply Hfailed].
  unfold readFileSync at 1. cbn [resolve].
  destruct (fs !! ".agent/planning.md"%string) as [[e|old]|] eqn:Hold;
    [intros H; left; by eapply Hfailed | | intros H; left; by eapply Hfailed].
  set (prompt := fullPrompt _ prd old).
  destruct (ending (query prompt));
    [ | intros H; left; by eapply Hfailed | intros H; discriminate H].
  destruct (foldl collect [] (events (query prompt))) as [|c tasks] eqn:Htasks;
    [intros H; left; by apply Hfalse | ].
  unfold appendFileSync. cbn [resolve]. rewrite Hold.
  intros [= <- <-]. right. split; [reflexivity | ].
  exists old, prompt. rewrite Htasks. split; [reflexivity | ]. split; [discriminate | reflexivity].
Qed.

End ParsePrdFacts.

(** [parsePRD] only ever appends. When it reports a failure the one
    change, if any, is the entry that the [catch] block logs: apart from
    the log directory and the log file of the day every path, the task
    list and the requirements document among them, is as it was. When it
    reports success the one change is that the dated heading, the
    generated tasks and a line feed are appended to
    [.agent/planning.md]. *)
Theorem parsePRD_append_only (query : jsstring -> agent_response)
    (possiblePrdPaths : list string) (iso : jsstring) (fs : gmap string node)
    (prdFile : string) (ok : bool) (fs' : gmap string node) :
  parsePRD query possiblePrdPaths iso fs prdFile = Some (ok, fs') ->
  (ok = false ->
   (fs' = fs \/
    exists error,
      fs' = Workspace.logToFile iso iso (js "PRD parsing error: " ++ message error)
              (js "ERROR") fs) /\
   forall path, ~ Workspace.log_paths iso path -> fs' !! path = fs !! path) /\
  (ok = true ->
   exists old tasks,
     fs !! ".agent/planning.md"%string = Some (File old) /\
     tasks <> [] /\
     fs' !! ".agent/planning.md"%string
     = Some (File (old ++ separator iso ++ tasks ++ [10])) /\
     forall path, path <> ".agent/planning.md"%string -> fs' !! path = fs !! path).
Proof.
  intros [[-> Hlog] | (-> & old & prompt & Hold & Hne & ->)]%parsePRD_cases.
  - split; [ | discriminate]. intros _. split; [exact Hlog | ].
    intros path Hpath. destruct Hlog as [-> | [error ->]]; [done | ].
    by apply WorkspaceFacts.logToFile_lookup.
  - split; [discriminate | ]. intros _.
    exists old, (foldl collect [] (events (query prompt))).
    split; [done | ]. split; [done | ].
    split; [apply lookup_insert_eq | ].
    intros path Hpath. by apply lookup_insert_ne.
Qed.

Lemma parsePRD_append_only_witness :
  (exists fs',
     parsePRD prd_agent [] (js "2025-03-04T10:20:30.000Z") prd_world "PRD.md"
     = Some (true, fs') /\
     fs' !! ".agent/planning.md"%string
     = Some (File (js "- [ ] Set up" ++ [10] ++ js "- [x] Init" ++ [10; 10]
                   ++ js "## Tasks from PRD (2025-03-04)" ++ [10]
                   ++ js "- [ ] Add POST /login endpoint (2 stories)" ++ [10])) /\
     fs' !! "PRD.md"%string = prd_world !! "PRD.md"%string) /\
  (exists fs',
     parsePRD (fun _ => failing_response) [] (js "2025-03-04T10:20:30.000Z")
       prd_world "PRD.md" = Some (false, fs') /\
     fs' !! ".agent/planning.md"%string = prd_world !! ".agent/planning.md"%string /\
     fs' !! "PRD.md"%string = prd_world !! "PRD.md"%string /\
     fs' !! ".agent/logs"%string = Some (Unreadable Workspace.EISDIR)).
Proof.
  split.
  - assert (exists fs',
              parsePRD prd_agent [] (js "2025-03-04T10:20:30.000Z") prd_world "PRD.md"
              = Some (true, fs')) as [fs' Hrun]
      by (eexists; vm_compute; reflexivity).
    exists fs'. split; [exact Hrun | ].
    destruct (proj2 (parsePRD_append_only _ _ _ _ _ _ _ Hrun) eq_refl)
      as (old & tasks & Hold & Hne & Hnew & Hother).
    split.
    + vm_compute in Hrun. injection Hrun as <-. vm_compute. reflexivity.
    + apply Hother. discriminate.
  - assert (exists fs',
              parsePRD (fun _ => failing_response) [] (js "2025-03-04T10:20:30.000Z")
                prd_world "PRD.md" = Some (false, fs') /\
              fs' !! ".agent/logs"%string = Some (Unreadable Workspace.EISDIR))
      as (fs' & Hrun & Hlogs)
      by (eexists; split; vm_compute; reflexivity).
    exists fs'. split; [exact Hrun | ].
    destruct (proj1 (parsePRD_append_only _ _ _ _ _ _ _ Hrun) eq_refl)
      as (_ & Hother).
    split; [ | split].
    + apply Hother. intros [[H|H]|H]; discriminate H.
    + apply Hother. intros [[H|H]|H]; discriminate H.
    + exact Hlogs.
Defined.

(** [parsePRD] loses no pending work: after a success the task store has
    at least the unchecked entries it had before plus the unchecked
    entries among the generated tasks. *)
Theorem parsePRD_keeps_pending (query : jsstring -> agent_response)
    (possiblePrdPaths : list string) (iso : jsstring) (fs : gmap string node)
    (prdFile : string) (fs' : gmap string node) :
  parsePRD query possiblePrdPaths iso fs prdFile = Some (true, fs') ->
  exists old new tasks,
    fs !! ".agent/planning.md"%string = Some (File old) /\
    fs' !! ".agent/planning.md"%string = Some (File new) /\
    new = old ++ separator iso ++ tasks ++ [10] /\
    (unchecked_count old + unchecked_count tasks <= unchecked_count new)%nat.
Proof.
  intros [[[=] _] | (_ & old & prompt & Hold & Hne & ->)]%parsePRD_cases.
  set (tasks := foldl collect [] (events (query prompt))).
  exists old, (old ++ separator iso ++ tasks ++ [10]), tasks.
  split; [done | ]. split; [apply lookup_insert_eq | ]. split; [done | ].
  apply unchecked_count_appended.
Qed.

Lemma parsePRD_keeps_pending_witness :
  exists fs',
    parsePRD prd_agent [] (js "2025-03-04T10:20:30.000Z") prd_world "PRD.md"
    = Some (true, fs') /\
    exists old new tasks,
      prd_world !! ".agent/planning.md"%string = Some (File old) /\
      fs' !! ".agent/planning.md"%string = Some (File new) /\
      new = old ++ separator (js "2025-03-04T10:20:30.000Z") ++ tasks ++ [10] /\
      (unchecked_count old + unchecked_count tasks <= unchecked_count new)%nat.
Proof.
  assert (exists fs',
            parsePRD prd_agent [] (js "2025-03-04T10:20:30.000Z") prd_world "PRD.md"
            = Some (true, fs')) as [fs' Hrun]
    by (eexists; vm_compute; reflexivity).
  exists fs'. split; [exact Hrun | ].
  exact (parsePRD_keeps_pending _ _ _ _ _ _ Hrun).
Defined.

Lemma reader_of_store fs content :
  fs !! ".agent/planning.md"%string = Some (File content) ->
  hasUnfinishedTasks fs = Normal (0 <? unchecked_count content)%nat.
Proof.
  intros Hc. unfold hasUnfinishedTasks, existsSync, readFileSync. simpl resolve.
  rewrite Hc. simpl.
  change (mbind _ (Normal content)) with
    (match match_unchecked content with
     | Some ms => if (0 <? length ms)%nat then Normal true else Normal false
     | None => Normal false
     end).
  rewrite check_content. unfold unchecked_count.
  by destruct (scan true 0 content).
Qed.

(** After a successful [parsePRD] the reader finds unfinished work
    whenever it found some before, and whenever the generated tasks hold
    an unchecked entry. *)
Theorem parsePRD_then_reader (query : jsstring -> agent_response)
    (possiblePrdPaths : list string) (iso : jsstring) (fs : gmap string node)
    (prdFile : string) (fs' : gmap string node) :
  parsePRD query possiblePrdPaths iso fs prdFile = Some (true, fs') ->
  (hasUnfinishedTasks fs = Normal true -> hasUnfinishedTasks fs' = Normal true) /\
  (forall old tasks,
     fs' !! ".agent/planning.md"%string
     = Some (File (old ++ separator iso ++ tasks ++ [10])) ->
     (0 < unchecked_count tasks)%nat ->
     hasUnfinishedTasks fs' = Normal true).
Proof.
  intros [[[=] _] | (_ & old & prompt & Hold & Hne & ->)]%parsePRD_cases.
  set (tasks := foldl collect [] (events (query prompt))).
  split.
  - rewrite (reader_of_store fs old Hold). intros [= Hc%Nat.ltb_lt].
    rewrite (reader_of_store _ (old ++ separator iso ++ tasks ++ [10]))
      by apply lookup_insert_eq.
    f_equal. apply Nat.ltb_lt.
    pose proof (unchecked_count_appended old iso tasks). lia.
  - intros old' tasks' Hnew Hc. rewrite (reader_of_store _ _ Hnew).
    f_equal. apply Nat.ltb_lt.
    pose proof (unchecked_count_appended old' iso tasks'). lia.
Qed.

Lemma parsePRD_then_reader_witness :
  exists fs',
    parsePRD prd_agent [] (js "2025-03-04T10:20:30.000Z") prd_world "PRD.md"
    = Some (true, fs') /\
    hasUnfinishedTasks fs' = Normal true.
Proof.
  assert (exists fs',
            parsePRD prd_agent [] (js "2025-03-04T10:20:30.000Z") prd_world "PRD.md"
            = Some (true, fs')) as [fs' Hrun]
    by (eexists; vm_compute; reflexivity).
  exists fs'. split; [exact Hrun | ].
  apply (proj1 (parsePRD_then_reader _ _ _ _ _ _ Hrun)).
  vm_compute. reflexivity.
Defined.

Lemma collect_appends post : forall acc,
  Forall no_final post -> foldl collect acc post = acc ++ foldl collect [] post.
Proof.
  induction post as [|m post IH]; intros acc Hpost; simpl.
  - by rewrite app_nil_r.
  - inversion Hpost as [|? ? Hm Hpost']; subst.
    rewrite (IH (collect acc m)), (IH (collect [] m)) by done.
    destruct m as [|[content|]| |[[|c r]|]|]; simpl in *;
      rewrite ?app_nil_r, <- ?app_assoc; done.
Qed.

(** A non-empty terminal result replaces whatever the assistant had said
    before it: the generated tasks are the last such result, followed by
    the assistant text that comes after it. *)
Theorem collect_result_replaces (pre post : list sdk_message) (c : N) (r : jsstring) :
  Forall no_final post ->
  foldl collect [] (pre ++ Result (Some (c :: r)) :: post)
  = (c :: r) ++ foldl collect [] post.
Proof.
  intros Hpost. rewrite foldl_app. simpl. by apply collect_appends.
Qed.

Lemma collect_result_replaces_witness :
  foldl collect []
    ([Assistant (Some [TextBlock (js "Here are the tasks:")])]
     ++ Result (Some (45 :: js " [ ] Add login")) :: [Unknown (js "stats")])
  = (45 :: js " [ ] Add login") ++ foldl collect [] [Unknown (js "stats")].
Proof.
  apply collect_result_replaces. repeat constructor.
Defined.

End PrdFacts.

(** ** Facts about the command line *)

Module CliFacts.
Import Cli.




Lemma indexOf_first pre a rest :
  a ∉ pre -> indexOf (pre ++ a :: rest) a = length pre.
Proof.
  induction pre as [|b pre IH]; simpl; intros Hn.
  - by rewrite bool_decide_true.
  - apply not_elem_of_cons in Hn as [Hne Hn].
    rewrite bool_decide_false by done. by rewrite IH.
Qed.

(** The requirements file is the argument that follows the first
    [--parse-prd], whatever it looks like; when nothing or the empty
    string follows, the program stops with the error for a missing
    file. *)
Theorem dispatch_parse_prd (pre rest : list string) :
  let args := pre ++ "--parse-prd"%string :: rest in
  "--parse-prd"%string ∉ pre ->
  "--help"%string ∉ args -> "--version"%string ∉ args -> "init"%string ∉ args ->
  dispatch args
  = match rest with
    | (String _ _ as prdFile) :: _ => ParsePrd prdFile
    | _ => MissingPrdFile
    end.
Proof.
  intros args Hpre Hhelp Hversion Hinit. unfold dispatch.
  assert (bool_decide (length args = 0%nat) = false) as ->.
  { apply bool_decide_eq_false. subst args. rewrite length_app. simpl. lia. }
  unfold includes_arg.
  rewrite !(bool_decide_eq_false_2 (_ ∈ args)) by done. simpl.
  rewrite bool_decide_true by (subst args; set_solver).
  subst args. rewrite indexOf_first by done.
  replace (length pre + 1)%nat with (S (length pre)) by lia.
  rewrite lookup_app_r by lia.
  replace (S (length pre) - length pre)%nat with 1%nat by lia. simpl.
  by destruct rest as [|[|a f] rest'].
Qed.

Lemma dispatch_parse_prd_witness :
  dispatch ["--once"; "--parse-prd"; "--until-success"]%string = ParsePrd "--until-success" /\
  dispatch ["--once"; "--parse-prd"]%string = MissingPrdFile.
Proof.
  assert (forall (a b : string) l, a <> b -> a ∉ l -> a ∉ b :: l) as Hcons
    by (intros a b l Hne Hl Hin; apply elem_of_cons in Hin as [?|?]; done).
  split.
  - apply (dispatch_parse_prd ["--once"%string] ["--until-success"%string]);
      repeat (apply Hcons; [discriminate | ]); apply not_elem_of_nil.
  - apply (dispatch_parse_prd ["--once"%string] []);
      repeat (apply Hcons; [discriminate | ]); apply not_elem_of_nil.
Defined.

End CliFacts.
